(** * Corestore: a shallow embedding of [index.js]

    [Corestore] keeps a registry of hypercore handles ([this.cores]), a list
    of open replication streams ([this.replicationStreams]) and an optional
    default core.  The store is single threaded and event driven: its
    methods run to completion, and the append-only-log engine (hypercore)
    and the stream engine (hypercore-protocol) call back later.  The
    embedding therefore has two layers:

    - the methods of the class, as functions on a [Store] value that holds
      the fields of the object together with the heap of core and stream
      objects they point to;
    - the event loop, as a labelled step function [step]: a label is either
      a call of a public method or a notification delivered by an engine.

    The two libraries the store is parameterised by, [hypercore-crypto] and
    [dat-encoding], are interfaces ([Crypto], [DatEncoding]); every theorem
    holds for all their implementations. *)

From Stdlib Require Import ZArith NArith Lia.
From Stdlib.Strings Require Import Ascii Byte.
From stdpp Require Import base list strings.

Open Scope string_scope.
Open Scope list_scope.

(** ** Values *)

Definition Buffer := list Byte.byte.

Record KeyPair := mkKeyPair { publicKey : Buffer; kp_secretKey : Buffer }.

(** A key or discovery key handed in by a caller is a [Buffer] or its text
    form ([idx instanceof Buffer] tells them apart). *)
Inductive KeyArg :=
| KBuf (b : Buffer)
| KText (t : string).

(** The options object of [get] and [default]; an absent property is
    [None], an absent [default] flag is [false]. *)
Record CoreOpts := mkCoreOpts {
  opt_default : bool;
  opt_name : option string;
  opt_key : option KeyArg;
  opt_discoveryKey : option KeyArg;
  opt_secretKey : option Buffer;
  opt_keyPair : option KeyPair
}.

Definition noOpts : CoreOpts := mkCoreOpts false None None None None None.

(** JavaScript truthiness of the values the store tests: an absent property
    and the empty string are falsy, every Buffer and every object is
    truthy. *)
Definition truthy_string (t : string) : bool :=
  match t with EmptyString => false | String _ _ => true end.

Definition truthy_name (n : option string) : bool :=
  match n with Some t => truthy_string t | None => false end.

Definition truthy_arg (k : KeyArg) : bool :=
  match k with KBuf _ => true | KText t => truthy_string t end.

Definition truthy_key (k : option KeyArg) : bool :=
  match k with Some k => truthy_arg k | None => false end.

Definition truthy_obj {A} (o : option A) : bool :=
  match o with Some _ => true | None => false end.

(** [a || b] on optional keys: the first operand when it is truthy,
    otherwise the second, whatever it is. *)
Definition key_or (a b : option KeyArg) : option KeyArg :=
  if truthy_key a then a else b.

Inductive Error :=
| DecodeError          (* datEncoding.decode on malformed text *)
| ConfigurationError   (* 'A main core must be specified before replication.' *)
| TypeError            (* property read on null or undefined *)
| TeardownError.       (* what a failing [core.close] hands to its callback *)

Inductive Result (A : Type) :=
| Ok (a : A)
| Throw (e : Error).
Arguments Ok {A} a.
Arguments Throw {A} e.

(** ** The two libraries *)

(** [hypercore-crypto].  [keyPair] and [randomBytes] draw from the system's
    entropy; the store threads a counter ([rng]) that numbers the draws. *)
Class Crypto := {
  crypto_keyPair : nat -> KeyPair;
  crypto_discoveryKey : Buffer -> Buffer;
  crypto_randomBytes : nat -> nat -> Buffer
}.

(** [dat-encoding]: [decode] throws on malformed text. *)
Class DatEncoding := {
  encode : Buffer -> string;
  decode : string -> option Buffer
}.

(** The two interfaces describe the libraries on keys, which are Buffers of
    32 bytes.  On other Buffers the libraries throw ([crypto.discoveryKey]
    on a Buffer shorter than 16 bytes, [datEncoding.encode] on one that is
    not 32 bytes long); the functions above are total and do not show
    this.  The development reads the Buffers a request brings as keys, and
    where a statement is about a call not throwing it says so. *)
Definition wellFormedKey (b : Buffer) : Prop := length b = 32.

(** ** The key indexer *)

Inductive Idx :=
| IStr (t : string)
| IBuf (b : Buffer).

Record Index := mkIndex {
  idx : Idx;
  key : option KeyArg;
  secretKey : option Buffer
}.

Section Indexer.
Context `{Crypto} `{DatEncoding}.

(** [if (!(idx instanceof Buffer)) idx = datEncoding.decode(idx)] *)
Definition toBuffer (k : KeyArg) : Result Buffer :=
  match k with
  | KBuf b => Ok b
  | KText t => match decode t with Some b => Ok b | None => Throw DecodeError end
  end.

(** The branch [if (!idx)] of [_optsToIndex]: no key was given, so the
    caller's key pair or a new one is used. *)
Definition freshIndex (coreOpts : CoreOpts) (rng : nat) : Result (Index * nat) :=
  let '(kp, rng') :=
    match opt_keyPair coreOpts with
    | Some kp => (kp, rng)
    | None => (crypto_keyPair rng, S rng)
    end in
  Ok (mkIndex (IBuf (crypto_discoveryKey (publicKey kp)))
              (key_or (opt_key coreOpts) (Some (KBuf (publicKey kp))))
              (Some (kp_secretKey kp)), rng').

(** The last [else] branch of [_optsToIndex]: index by key or by
    discovery key. *)
Definition keyedIndex (coreOpts : CoreOpts) (rng : nat) : Result (Index * nat) :=
  match key_or (opt_key coreOpts) (opt_discoveryKey coreOpts) with
  | Some k0 =>
      if truthy_arg k0 then
        match toBuffer k0 with
        | Throw e => Throw e
        | Ok b =>
            let b' := if truthy_key (opt_key coreOpts)
                      then crypto_discoveryKey b else b in
            Ok (mkIndex (IBuf b') (key_or (opt_key coreOpts) None) None, rng)
        end
      else freshIndex coreOpts rng
  | None => freshIndex coreOpts rng
  end.

(** [_optsToIndex].  The second component of the result is the entropy
    counter after the call: it moves only when [crypto.keyPair()] ran. *)
Definition _optsToIndex (coreOpts : CoreOpts) (rng : nat) : Result (Index * nat) :=
  let keyless := negb (truthy_key (opt_key coreOpts))
                 && negb (truthy_obj (opt_secretKey coreOpts)) in
  if opt_default coreOpts && keyless
  then Ok (mkIndex (IStr "default") (key_or (opt_key coreOpts) None) None, rng)
  else
    match opt_name coreOpts with
    | Some n =>
        if truthy_string n && keyless
        then Ok (mkIndex (IStr n) (key_or (opt_key coreOpts) None) None, rng)
        else keyedIndex coreOpts rng
    | None => keyedIndex coreOpts rng
    end.

(** [(idx instanceof Buffer) ? datEncoding.encode(idx) : idx] *)
Definition idxString (i : Idx) : string :=
  match i with IBuf b => encode b | IStr t => t end.
End Indexer.

(** ** Objects on the heap *)

(** Options passed through to the engines.  The store itself reads only
    [encrypt]; everything else is carried along unread. *)
Record Opts := mkOpts {
  encrypt : option bool;
  passthrough : list (string * string)
}.

Definition emptyOpts : Opts := mkOpts None [].

(** [{ ...a, ...b }]: a property of [b] wins over the same property of [a]. *)
Definition spread (a b : Opts) : Opts :=
  mkOpts (match encrypt b with Some e => Some e | None => encrypt a end)
         (passthrough b ++ passthrough a).

(** Spreading [undefined] adds nothing. *)
Definition spread_opt (a : Opts) (b : option Opts) : Opts :=
  match b with Some b => spread a b | None => a end.

Definition truthy_flag (b : option bool) : bool :=
  match b with Some true => true | _ => false end.

(** The life cycle of a log as the engine reports it. *)
Inductive Status :=
| Pending
| Ready (k : Buffer)   (* opened; [core.key] is [k] *)
| Errored.

(** A hypercore object together with what the closures of [get] captured
    for it: [coreOpts], [errored], and whether the two [once] listeners are
    still attached. *)
Record Core := mkCore {
  c_storageRoot : string;
  c_ctorKey : option KeyArg;
  c_createIfMissing : bool;
  c_secretKey : option Buffer;
  c_coreOpts : CoreOpts;
  c_status : Status;
  c_closed : bool;
  c_errored : bool;
  c_errorListener : bool;
  c_readyListener : bool
}.

Definition set_status (v : Status) (c : Core) : Core :=
  mkCore (c_storageRoot c) (c_ctorKey c) (c_createIfMissing c) (c_secretKey c)
         (c_coreOpts c) v (c_closed c) (c_errored c) (c_errorListener c)
         (c_readyListener c).
Definition set_closed (v : bool) (c : Core) : Core :=
  mkCore (c_storageRoot c) (c_ctorKey c) (c_createIfMissing c) (c_secretKey c)
         (c_coreOpts c) (c_status c) v (c_errored c) (c_errorListener c)
         (c_readyListener c).
Definition set_errored (v : bool) (c : Core) : Core :=
  mkCore (c_storageRoot c) (c_ctorKey c) (c_createIfMissing c) (c_secretKey c)
         (c_coreOpts c) (c_status c) (c_closed c) v (c_errorListener c)
         (c_readyListener c).
Definition set_errorListener (v : bool) (c : Core) : Core :=
  mkCore (c_storageRoot c) (c_ctorKey c) (c_createIfMissing c) (c_secretKey c)
         (c_coreOpts c) (c_status c) (c_closed c) (c_errored c) v
         (c_readyListener c).
Definition set_readyListener (v : bool) (c : Core) : Core :=
  mkCore (c_storageRoot c) (c_ctorKey c) (c_createIfMissing c) (c_secretKey c)
         (c_coreOpts c) (c_status c) (c_closed c) (c_errored c)
         (c_errorListener c) v.

(** A protocol stream: the options it was made with, the core whose
    [replicate] made it (if any), the cores replicated over it
    ([feed.peer.feed] of each entry of [mainStream.feeds], in order), its
    [destroyed] flag, and the [closed] variable of the [onclose] closure
    that listens to it. *)
Record Stream := mkStream {
  s_opts : Opts;
  s_anchor : option nat;
  feeds : list nat;
  destroyed : bool;
  onclose_closed : bool
}.

Definition set_feeds (v : list nat) (st : Stream) : Stream :=
  mkStream (s_opts st) (s_anchor st) v (destroyed st) (onclose_closed st).
Definition set_destroyed (v : bool) (st : Stream) : Stream :=
  mkStream (s_opts st) (s_anchor st) (feeds st) v (onclose_closed st).
Definition set_onclose_closed (v : bool) (st : Stream) : Stream :=
  mkStream (s_opts st) (s_anchor st) (feeds st) (destroyed st) v.

(** [{ stream: mainStream, opts: finalOpts }]; one such object is made per
    stream, so the stream's address identifies it. *)
Record StreamState := mkStreamState { stream : nat; ss_opts : Opts }.

(** A callback handed to [core.ready] by [_replicateCore], not yet run. *)
Record ReadyTask := mkTask { t_core : nat; t_stream : nat; t_opts : Opts }.

(** A [core.close(onclose)] not yet answered: the core and the call of
    [close] whose [onclose] waits for it. *)
Record CloseTask := mkCloseTask { ct_core : nat; ct_call : nat }.

(** ** The registry: a JavaScript [Map] from index strings to cores *)

Definition JsMap := list (string * nat).

Fixpoint Map_get (k : string) (m : JsMap) : option nat :=
  match m with
  | [] => None
  | (k', v) :: m' => if String.eqb k' k then Some v else Map_get k m'
  end.

(** [set] overwrites in place, or appends: iteration is in insertion
    order. *)
Fixpoint Map_set (k : string) (v : nat) (m : JsMap) : JsMap :=
  match m with
  | [] => [(k, v)]
  | (k', v') :: m' =>
      if String.eqb k' k then (k', v) :: m' else (k', v') :: Map_set k v m'
  end.

Definition Map_size (m : JsMap) : Z := Z.of_nat (length m).

(** ** The store *)

Record Store := mkStore {
  (* the fields of the object *)
  opts : Opts;
  cores : JsMap;
  replicationStreams : list StreamState;
  defaultCore : option nat;
  storeId : Buffer;
  (* the objects its fields and closures point to *)
  coreHeap : list Core;
  streamHeap : list Stream;
  closeCalls : list Z;             (* [remaining] of each call of [close] *)
  (* what the engines still owe the store *)
  readyQueue : list ReadyTask;
  closeQueue : list CloseTask;
  (* what the store told the outside *)
  feedEvents : list (nat * CoreOpts);          (* [this.emit('feed', ...)] *)
  callbacks : list (nat * option Error);       (* [cb(err)] of [close] *)
  rng : nat
}.

Definition set_cores v (s : Store) : Store :=
  mkStore (opts s) v (replicationStreams s) (defaultCore s) (storeId s)
          (coreHeap s) (streamHeap s) (closeCalls s) (readyQueue s)
          (closeQueue s) (feedEvents s) (callbacks s) (rng s).
Definition set_replicationStreams v (s : Store) : Store :=
  mkStore (opts s) (cores s) v (defaultCore s) (storeId s)
          (coreHeap s) (streamHeap s) (closeCalls s) (readyQueue s)
          (closeQueue s) (feedEvents s) (callbacks s) (rng s).
Definition set_defaultCore v (s : Store) : Store :=
  mkStore (opts s) (cores s) (replicationStreams s) v (storeId s)
          (coreHeap s) (streamHeap s) (closeCalls s) (readyQueue s)
          (closeQueue s) (feedEvents s) (callbacks s) (rng s).
Definition set_coreHeap v (s : Store) : Store :=
  mkStore (opts s) (cores s) (replicationStreams s) (defaultCore s) (storeId s)
          v (streamHeap s) (closeCalls s) (readyQueue s)
          (closeQueue s) (feedEvents s) (callbacks s) (rng s).
Definition set_streamHeap v (s : Store) : Store :=
  mkStore (opts s) (cores s) (replicationStreams s) (defaultCore s) (storeId s)
          (coreHeap s) v (closeCalls s) (readyQueue s)
          (closeQueue s) (feedEvents s) (callbacks s) (rng s).
Definition set_closeCalls v (s : Store) : Store :=
  mkStore (opts s) (cores s) (replicationStreams s) (defaultCore s) (storeId s)
          (coreHeap s) (streamHeap s) v (readyQueue s)
          (closeQueue s) (feedEvents s) (callbacks s) (rng s).
Definition set_readyQueue v (s : Store) : Store :=
  mkStore (opts s) (cores s) (replicationStreams s) (defaultCore s) (storeId s)
          (coreHeap s) (streamHeap s) (closeCalls s) v
          (closeQueue s) (feedEvents s) (callbacks s) (rng s).
Definition set_closeQueue v (s : Store) : Store :=
  mkStore (opts s) (cores s) (replicationStreams s) (defaultCore s) (storeId s)
          (coreHeap s) (streamHeap s) (closeCalls s) (readyQueue s)
          v (feedEvents s) (callbacks s) (rng s).
Definition set_feedEvents v (s : Store) : Store :=
  mkStore (opts s) (cores s) (replicationStreams s) (defaultCore s) (storeId s)
          (coreHeap s) (streamHeap s) (closeCalls s) (readyQueue s)
          (closeQueue s) v (callbacks s) (rng s).
Definition set_callbacks v (s : Store) : Store :=
  mkStore (opts s) (cores s) (replicationStreams s) (defaultCore s) (storeId s)
          (coreHeap s) (streamHeap s) (closeCalls s) (readyQueue s)
          (closeQueue s) (feedEvents s) v (rng s).
Definition set_rng v (s : Store) : Store :=
  mkStore (opts s) (cores s) (replicationStreams s) (defaultCore s) (storeId s)
          (coreHeap s) (streamHeap s) (closeCalls s) (readyQueue s)
          (closeQueue s) (feedEvents s) (callbacks s) v.

Definition updCore (c : nat) (f : Core -> Core) (s : Store) : Store :=
  set_coreHeap (alter f c (coreHeap s)) s.

Definition updStream (m : nat) (f : Stream -> Stream) (s : Store) : Store :=
  set_streamHeap (alter f m (streamHeap s)) s.

(** [get] and [default] take an options object or, as a shorthand for
    [{ key }], a Buffer; with no argument the options are [{}]. *)
Inductive Request :=
| ReqBuffer (b : Buffer)
| ReqOpts (o : CoreOpts).

Definition requestOpts (r : Request) : CoreOpts :=
  match r with
  | ReqBuffer b => mkCoreOpts false None (Some (KBuf b)) None None None
  | ReqOpts o => o
  end.

(** The first argument of [replicate]: nothing, a discovery key, or (when
    the caller left the key out) the options object. *)
Inductive ReplicateArg :=
| ArgNone
| ArgKey (k : KeyArg)
| ArgOpts (o : Opts).

Inductive Signal := SigFinish | SigEnd | SigClose.

(** What [getInfo] returns. *)
Record Info := mkInfo {
  info_id : Buffer;
  info_defaultKey : option Buffer;
  info_discoveryKey : option Buffer;
  info_replicationId : nat;     (* [core.id], private to the engine: the handle *)
  info_cores : JsMap
}.

(** [array.indexOf(x)], with [-1] for "absent", and [array.splice(start, 1)]
    with JavaScript's treatment of a negative start (counted from the
    end). *)
Fixpoint indexOf (m : nat) (l : list StreamState) : Z :=
  match l with
  | [] => (-1)%Z
  | ss :: l' =>
      if Nat.eqb (stream ss) m then 0%Z
      else let i := indexOf m l' in if (i <? 0)%Z then (-1)%Z else (1 + i)%Z
  end.

Definition splice1 {A} (start : Z) (l : list A) : list A :=
  let len := Z.of_nat (length l) in
  let from := if (start <? 0)%Z then Z.max (len + start) 0 else Z.min start len in
  delete (Z.to_nat from) l.

Section Methods.
Context `{Crypto} `{DatEncoding}.

(** [new Corestore(storage, opts)] *)
Definition init (o : Opts) : Store :=
  mkStore o [] [] None (crypto_randomBytes 0 5) [] [] [] [] [] [] [] 1.

(** *** Replicating a core over a stream *)

(** [core.replicate({ ...opts, stream: mainStream })] of the engine, on a
    core that is open: the stream gets a feed whose peer is the core.  On
    a stream that was destroyed the call does nothing. *)
Definition core_replicate (core mainStream : nat) (s : Store) : Store :=
  updStream mainStream
            (fun st => if destroyed st then st else set_feeds (feeds st ++ [core]) st) s.

(** [_replicateCore] only hands a callback to [core.ready]. *)
Definition _replicateCore (core mainStream : nat) (o : Opts) (s : Store) : Store :=
  set_readyQueue (readyQueue s ++ [mkTask core mainStream o]) s.

(** The callback of [_replicateCore], run with the engine's [err]. *)
Definition replicateCore_onready (t : ReadyTask) (err : bool) (s : Store) : Store :=
  if err then s
  else
    match streamHeap s !! t_stream t with
    | Some st =>
        if existsb (Nat.eqb (t_core t)) (feeds st) then s
        else core_replicate (t_core t) (t_stream t) s
    | None => s
    end.

Definition injectIntoReplicationStreams (core : nat) (s : Store) : Store :=
  fold_left (fun s ss => _replicateCore core (stream ss) (ss_opts ss) s)
            (replicationStreams s) s.

(** *** [isDefaultSet], [getInfo], [list] *)

Definition isDefaultSet (s : Store) : bool := truthy_obj (defaultCore s).

(** The key of a core that is open: what the ['ready'] handler and the
    callbacks of [core.ready] find in [core.key]. *)
Definition core_key (s : Store) (c : nat) : option Buffer :=
  match coreHeap s !! c with
  | Some co => match c_status co with Ready k => Some k | _ => None end
  | None => None
  end.

Definition core_discoveryKey (s : Store) (c : nat) : option Buffer :=
  crypto_discoveryKey <$> core_key s c.

(** The property [core.key] at any moment.  The engine sets it in the
    constructor when it is given a key, and keeps that value on a core that
    is pending or failed to open; on a core that is open it is the key of
    the log.  [core.discoveryKey] is derived from it whenever it is set. *)
Definition key_property (co : Core) : option Buffer :=
  match c_status co with
  | Ready k => Some k
  | _ =>
      match c_ctorKey co with
      | Some (KBuf b) => Some b
      | Some (KText t) => decode t
      | None => None
      end
  end.

Definition discoveryKey_property (co : Core) : option Buffer :=
  crypto_discoveryKey <$> key_property co.

(** The object literal is evaluated field by field; [this.defaultCore.id]
    is read without the guard the two fields before it have. *)
Definition getInfo (s : Store) : Result Info :=
  let id := storeId s in
  let defaultKey :=
    match defaultCore s with
    | Some c => coreHeap s !! c ≫= key_property
    | None => None
    end in
  let discoveryKey :=
    match defaultCore s with
    | Some c => coreHeap s !! c ≫= discoveryKey_property
    | None => None
    end in
  match defaultCore s with
  | None => Throw TypeError
  | Some c => Ok (mkInfo id defaultKey discoveryKey c (cores s))
  end.

(** [new Map([...this.cores])] *)
Definition list_ (s : Store) : JsMap := cores s.

(** *** [get] *)

Definition storageRootOf (idxStr : string) (coreOpts : CoreOpts) : string :=
  if negb (String.eqb idxStr "default") && negb (truthy_name (opt_name coreOpts))
  then String.substring 0 2 idxStr +:+ "/" +:+ String.substring 2 2 idxStr +:+ "/" +:+ idxStr
  else idxStr.

(** The call [hypercore(storage, key, { ..., createIfMissing, secretKey })]
    and the two [once] registrations that follow it. *)
Definition newCore (idxStr : string) (i : Index) (coreOpts : CoreOpts) : Core :=
  mkCore (storageRootOf idxStr coreOpts) (key i)
         (negb (truthy_key (opt_discoveryKey coreOpts)))
         (match opt_secretKey coreOpts with Some k => Some k | None => secretKey i end)
         coreOpts Pending false false true true.

Definition get (req : Request) (s : Store) : Result (nat * Store) :=
  let coreOpts := requestOpts req in
  match _optsToIndex coreOpts (rng s) with
  | Throw e => Throw e
  | Ok (i, rng') =>
      let s := set_rng rng' s in
      let idxStr := idxString (idx i) in
      match Map_get idxStr (cores s) with
      | Some existing => Ok (existing, injectIntoReplicationStreams existing s)
      | None =>
          let core := length (coreHeap s) in
          Ok (core, set_coreHeap (coreHeap s ++ [newCore idxStr i coreOpts]) s)
      end
  end.

(** [errorListener], the [once('error', ...)] handler of core [c]. *)
Definition errorListener (c : nat) (s : Store) : Store :=
  updCore c (fun co =>
    if truthy_key (opt_discoveryKey (c_coreOpts co))
    then set_errored true co else co) s.

(** The [once('ready', ...)] handler of core [c]. *)
Definition onready (c : nat) (s : Store) : Store :=
  match coreHeap s !! c with
  | Some co =>
      if c_errored co then s
      else
        match c_status co with
        | Ready k =>
            let s := set_feedEvents (feedEvents s ++ [(c, c_coreOpts co)]) s in
            let s := updCore c (set_errorListener false) s in
            let s := set_cores (Map_set (encode k) c (cores s)) s in
            let s := set_cores (Map_set (encode (crypto_discoveryKey k)) c (cores s)) s in
            injectIntoReplicationStreams c s
        | _ => s
        end
  | None => s
  end.

(** *** [default] *)

Definition store_default (req : Request) (s : Store) : Result (nat * Store) :=
  let coreOpts := requestOpts req in
  match defaultCore s with
  | Some c => Ok (c, s)
  | None =>
      let coreOpts :=
        if negb (truthy_obj (opt_keyPair coreOpts)) && negb (truthy_key (opt_key coreOpts))
        then mkCoreOpts true (opt_name coreOpts) (opt_key coreOpts)
                        (opt_discoveryKey coreOpts) (opt_secretKey coreOpts)
                        (opt_keyPair coreOpts)
        else coreOpts in
      match get (ReqOpts coreOpts) s with
      | Throw e => Throw e
      | Ok (c, s) => Ok (c, set_defaultCore (Some c) s)
      end
  end.

(** *** [replicate] *)

(** [onclose] of the stream [m] (the function declared inside
    [replicate]). *)
Definition replicate_onclose (m : nat) (s : Store) : Store :=
  match streamHeap s !! m with
  | Some st =>
      if onclose_closed st then s
      else
        let s := set_replicationStreams
                   (splice1 (indexOf m (replicationStreams s)) (replicationStreams s)) s in
        updStream m (set_onclose_closed true) s
  | None => s
  end.

(** [mainStream.destroy()] of the engine.  On a stream that is destroyed
    already the call does nothing.  Otherwise it marks the stream
    destroyed, drops its feeds and emits ['close'] before it returns, so
    that [onclose] runs inside the call. *)
Definition stream_destroy (m : nat) (s : Store) : Store :=
  match streamHeap s !! m with
  | Some st =>
      if destroyed st then s
      else replicate_onclose m
             (updStream m (fun st => set_feeds [] (set_destroyed true st)) s)
  | None => s
  end.

(** The feeds of a stream when [replicate] has made it:
    [defaultCore.replicate(opts)] on a core that is open puts that core on
    the stream before it returns, and on a core that is not open yet leaves
    that to the engine ([EngineAnchor] below); [protocol(opts)] makes a
    stream without feeds. *)
Definition anchored (s : Store) : list nat :=
  match defaultCore s with
  | Some c => match core_key s c with Some _ => [c] | None => [] end
  | None => []
  end.

(** [replicate] once its arguments are sorted out. *)
Definition replicate_opts (replicationOpts : option Opts) (s : Store)
  : Result (nat * Store) :=
  let guard : Result unit :=
    match defaultCore s with
    | Some _ => Ok tt
    | None =>
        match replicationOpts with
        | None => Throw TypeError
        | Some o => if truthy_flag (encrypt o) then Throw ConfigurationError else Ok tt
        end
    end in
  match guard with
  | Throw e => Throw e
  | Ok _ =>
      let finalOpts := spread_opt (opts s) replicationOpts in
      let mainStream := length (streamHeap s) in
      let s := set_streamHeap
                 (streamHeap s ++
                  [mkStream finalOpts (defaultCore s) (anchored s) false false]) s in
      let s := fold_left (fun s '(_, core) => _replicateCore core mainStream finalOpts s)
                         (cores s) s in
      let s := set_replicationStreams
                 (replicationStreams s ++ [mkStreamState mainStream finalOpts]) s in
      Ok (mainStream, s)
  end.

Definition replicate (discoveryKey : ReplicateArg) (replicationOpts : option Opts)
                     (s : Store) : Result (nat * Store) :=
  match discoveryKey with
  | ArgOpts o => replicate_opts (Some o) s
  | _ => replicate_opts replicationOpts s
  end.

(** *** [close] *)

(** [reset] of the call [call] of [close]. *)
Definition reset (call : nat) (err : option Error) (s : Store) : Store :=
  let s := set_cores [] s in
  let s := set_replicationStreams [] s in
  set_callbacks (callbacks s ++ [(call, err)]) s.

(** [onclose] of the call [call] of [close]. *)
Definition close_onclose (call : nat) (err : option Error) (s : Store) : Store :=
  match err with
  | Some e => reset call (Some e) s
  | None =>
      let s := set_closeCalls (alter (fun r => (r - 1)%Z) call (closeCalls s)) s in
      match closeCalls s !! call with
      | Some 0%Z => reset call None s
      | _ => s
      end
  end.

Definition core_isClosed (s : Store) (c : nat) : bool :=
  match coreHeap s !! c with Some co => c_closed co | None => false end.

(** [for (let { stream } of this.replicationStreams) stream.destroy()].
    The loop iterates the array itself, not a copy: [i] is the position of
    the iterator, and when the next entry is read [onclose], which
    [destroy] runs, may have spliced the array.  The array never grows
    during the loop, so an array of [n] entries is left after at most [n]
    rounds ([destroyLoop_fuel]). *)
Fixpoint destroyLoop (fuel i : nat) (s : Store) : Store :=
  match fuel with
  | 0 => s
  | S fuel' =>
      match replicationStreams s !! i with
      | Some ss => destroyLoop fuel' (S i) (stream_destroy (stream ss) s)
      | None => s
      end
  end.

(** [close(cb)]; the result is the number that identifies [cb] in
    [callbacks]. *)
Definition close (s : Store) : nat * Store :=
  let call := length (closeCalls s) in
  let s := set_closeCalls (closeCalls s ++ [Map_size (cores s)]) s in
  let s := destroyLoop (length (replicationStreams s)) 0 s in
  let s := fold_left (fun s '(_, core) =>
                        if core_isClosed s core then s
                        else set_closeQueue (closeQueue s ++ [mkCloseTask core call]) s)
                     (cores s) s in
  (call, s).
End Methods.

(** ** The event loop *)

(** Everything that can happen to a store: a caller runs a method, or an
    engine delivers a notification.  Cores and streams are named by their
    address on the heap, queued callbacks by their position in the queue.

    The engines are not part of the store.  The loop assumes of them what
    the store's external interface says and nothing more:
    - a core is pending until its log opened (['ready'], from then on
      [core.key] and [core.discoveryKey] are those of the log) or failed
      to open (['error']); both are final.  Before that, and on a core that
      failed, [core.key] is the key the constructor was given, if any;
    - a callback given to [core.ready] runs later, not inside the call,
      with an error exactly when the open failed;
    - [core.replicate({ stream })] on an open core adds one feed to the
      stream, unless the stream was destroyed, and the feed stays on the
      stream until the stream is destroyed (replication is live: the
      engine closes no feed on its own);
    - [core.replicate(opts)] without a stream makes one, and puts the core
      on it before it returns if the core is open, later if it is not;
    - [stream.destroy()] takes effect once: it drops the feeds of the
      stream and emits ['close'] before it returns; besides [close], the
      application that was handed the stream and the engine itself (on a
      protocol error or a timeout) may call it at any time;
    - [core.close(cb)] answers later, with or without an error, and the
      core is [closed] once it answered without;
    - a stream may signal ['finish'], ['end'], ['close'] and announce
      remote feeds at any time and in any order.
    A notification that does not apply in the current state (a second
    ['ready'], a callback that is not queued) changes nothing. *)
Inductive Label :=
| CallGet (r : Request)
| CallDefault (r : Request)
| CallReplicate (discoveryKey : ReplicateArg) (replicationOpts : option Opts)
| CallClose
| CoreOpened (c : nat) (k : Buffer)     (* the log of [c] opened, with key [k] *)
| CoreFailed (c : nat)                  (* the log of [c] could not be opened *)
| ReadyCallback (i : nat)               (* [core.ready] runs its [i]-th callback *)
| EngineAnchor (m : nat)                (* the engine replicates the core that made [m] *)
| RemoteFeed (m : nat) (dkey : Buffer)  (* ['feed'] on stream [m] *)
| StreamSignal (m : nat) (sig : Signal) (* ['finish'], ['end'] or ['close'] on [m] *)
| StreamDestroy (m : nat)               (* [destroy()] is called on [m] *)
| CloseCallback (i : nat) (err : option Error). (* the [i]-th [core.close] answers *)

Section EventLoop.
Context `{Crypto} `{DatEncoding}.

Definition after {A} (r : Result (A * Store)) (s : Store) : Store :=
  match r with Ok (_, s') => s' | Throw _ => s end.

(** The key a core opens with: the one its constructor was given, else
    the one found in (or written to) its storage. *)
Definition openedKey (co : Core) (k : Buffer) : Buffer :=
  match c_ctorKey co with
  | Some (KBuf b) => b
  | Some (KText t) => default k (decode t)
  | None => k
  end.

Definition coreOpened (c : nat) (k : Buffer) (s : Store) : Store :=
  match coreHeap s !! c with
  | Some co =>
      match c_status co with
      | Pending =>
          let s := updCore c (set_status (Ready (openedKey co k))) s in
          if c_readyListener co
          then onready c (updCore c (set_readyListener false) s)
          else s
      | _ => s
      end
  | None => s
  end.

Definition coreFailed (c : nat) (s : Store) : Store :=
  match coreHeap s !! c with
  | Some co =>
      match c_status co with
      | Pending =>
          let s := updCore c (set_status Errored) s in
          if c_errorListener co
          then errorListener c (updCore c (set_errorListener false) s)
          else s
      | _ => s
      end
  | None => s
  end.

Definition readyCallback (i : nat) (s : Store) : Store :=
  match readyQueue s !! i with
  | Some t =>
      match c_status <$> coreHeap s !! t_core t with
      | Some (Ready _) =>
          replicateCore_onready t false (set_readyQueue (delete i (readyQueue s)) s)
      | Some Errored =>
          replicateCore_onready t true (set_readyQueue (delete i (readyQueue s)) s)
      | _ => s
      end
  | None => s
  end.

(** A stream made by [defaultCore.replicate(opts)] carries that core.  When
    the core was not open yet at that moment, the engine adds it once the
    core is open, unless the stream has it or was destroyed. *)
Definition engineAnchor (m : nat) (s : Store) : Store :=
  match streamHeap s !! m with
  | Some st =>
      match s_anchor st with
      | Some c =>
          match core_key s c with
          | Some _ =>
              if existsb (Nat.eqb c) (feeds st) then s else core_replicate c m s
          | None => s
          end
      | None => s
      end
  | None => s
  end.

(** [mainStream.on('feed', dkey => this.get({ discoveryKey: dkey }))] *)
Definition remoteFeed (m : nat) (dkey : Buffer) (s : Store) : Store :=
  match streamHeap s !! m with
  | Some _ =>
      after (get (ReqOpts (mkCoreOpts false None None (Some (KBuf dkey)) None None)) s) s
  | None => s
  end.

Definition closeCallback (i : nat) (err : option Error) (s : Store) : Store :=
  match closeQueue s !! i with
  | Some ct =>
      let s := set_closeQueue (delete i (closeQueue s)) s in
      let s := match err with
               | None => updCore (ct_core ct) (set_closed true) s
               | Some _ => s
               end in
      close_onclose (ct_call ct) err s
  | None => s
  end.

Definition step (l : Label) (s : Store) : Store :=
  match l with
  | CallGet r => after (get r s) s
  | CallDefault r => after (store_default r s) s
  | CallReplicate a o => after (replicate a o s) s
  | CallClose => snd (close s)
  | CoreOpened c k => coreOpened c k s
  | CoreFailed c => coreFailed c s
  | ReadyCallback i => readyCallback i s
  | EngineAnchor m => engineAnchor m s
  | RemoteFeed m dkey => remoteFeed m dkey s
  | StreamSignal m _ => replicate_onclose m s
  | StreamDestroy m => stream_destroy m s
  | CloseCallback i err => closeCallback i err s
  end.

Definition run (ls : list Label) (s : Store) : Store :=
  fold_left (fun s l => step l s) ls s.

(** The states a store made with options [o] can be in. *)
Definition reachable (o : Opts) (s : Store) : Prop :=
  exists ls, s = run ls (init o).

(** How often core [c] is among the feeds of stream [m]. *)
Definition attachCount (c m : nat) (s : Store) : nat :=
  match streamHeap s !! m with
  | Some st => count_occ Nat.eq_dec (feeds st) c
  | None => 0
  end.

(** Stream [m] is in the session list. *)
Definition active (m : nat) (s : Store) : Prop :=
  m ∈ map stream (replicationStreams s).
End EventLoop.

(** ** Vocabulary of the statements *)

(** What a core on the heap says about itself. *)
Definition keyOf (co : Core) : option Buffer :=
  match c_status co with Ready k => Some k | _ => None end.

(** [evolves co co']: [co'] is a later state of the object [co]. *)
Record evolves (co co' : Core) : Prop := mkEvolves {
  ev_opts : c_coreOpts co' = c_coreOpts co;
  ev_createIfMissing : c_createIfMissing co' = c_createIfMissing co;
  ev_ready : forall k, c_status co = Ready k -> c_status co' = Ready k;
  ev_errored_status : c_status co = Errored -> c_status co' = Errored;
  ev_errored : c_errored co = true -> c_errored co' = true
}.

Definition heapEvolves (h h' : list Core) : Prop :=
  forall c co, h !! c = Some co -> exists co', h' !! c = Some co' /\ evolves co co'.

(** [onclose] and [destroy] write the session list and the streams, and
    nothing else. *)
Record streamsOnly (s s' : Store) : Prop := mkStreamsOnly {
  so_opts : opts s' = opts s;
  so_cores : cores s' = cores s;
  so_defaultCore : defaultCore s' = defaultCore s;
  so_storeId : storeId s' = storeId s;
  so_coreHeap : coreHeap s' = coreHeap s;
  so_closeCalls : closeCalls s' = closeCalls s;
  so_readyQueue : readyQueue s' = readyQueue s;
  so_closeQueue : closeQueue s' = closeQueue s;
  so_feedEvents : feedEvents s' = feedEvents s;
  so_callbacks : callbacks s' = callbacks s;
  so_rng : rng s' = rng s;
  so_length : length (streamHeap s') = length (streamHeap s);
  so_sessions : forall ss, ss ∈ replicationStreams s' -> ss ∈ replicationStreams s
}.

(** The part of the store that only [close] and its callbacks write. *)
Definition closeView (s : Store) : list Z * list CloseTask * list (nat * option Error) :=
  (closeCalls s, closeQueue s, callbacks s).

(** [silent n s]: the callback of the [n]-th call of [close] has not run
    and no [core.close] is left that could run it. *)
Definition silent (n : nat) (s : Store) : Prop :=
  n < length (closeCalls s) /\
  (forall ct, ct ∈ closeQueue s -> ct_call ct <> n) /\
  (forall e, (n, e) ∉ callbacks s).

(** Every [core.close] in flight and every callback that ran belongs to a
    call of [close] that was made. *)
Definition closeIds (s : Store) : Prop :=
  (forall ct, ct ∈ closeQueue s -> ct_call ct < length (closeCalls s)) /\
  (forall n e, (n, e) ∈ callbacks s -> n < length (closeCalls s)).

(** The options object [replicate] ends up with, whichever way it was
    called. *)
Definition givenOpts (discoveryKey : ReplicateArg) (replicationOpts : option Opts)
  : option Opts :=
  match discoveryKey with ArgOpts o => Some o | _ => replicationOpts end.

Definition handleOf (r : Result (nat * Store)) : option nat :=
  match r with Ok (c, _) => Some c | Throw _ => None end.

Section Statements.
Context `{Crypto} `{DatEncoding}.

(** Core [c] is on stream [m]. *)
Definition attached (c m : nat) (s : Store) : Prop :=
  exists st, streamHeap s !! m = Some st /\ c ∈ feeds st.

(** A callback of [_replicateCore] for core [c] and stream [m] waits. *)
Definition queued (c m : nat) (s : Store) : Prop :=
  exists t, t ∈ readyQueue s /\ t_core t = c /\ t_stream t = m.

Definition core_status (s : Store) (c : nat) : option Status :=
  c_status <$> coreHeap s !! c.

(** The invariant of the event loop:
    - a registry entry maps the text of the key, or of the discovery key,
      of an open core to that core;
    - no stream carries a core twice, and only open cores are carried;
    - sessions and queued callbacks name streams that exist;
    - a registered core is on every active session, or a callback that
      will put it there is queued;
    - a pending core still has both listeners, and [errored] is unset;
    - no stream is in the session list twice;
    - a stream whose [onclose] ran is not in the session list;
    - a stream that was destroyed has no feeds, and its [onclose] ran. *)
Record wf (s : Store) : Prop := mkWf {
  wf_registered : forall k c, (k, c) ∈ cores s ->
    exists pk, core_key s c = Some pk /\
               (k = encode pk \/ k = encode (crypto_discoveryKey pk));
  wf_feeds : forall m st, streamHeap s !! m = Some st ->
    NoDup (feeds st) /\ forall c, c ∈ feeds st -> is_Some (core_key s c);
  wf_active : forall ss, ss ∈ replicationStreams s ->
    stream ss < length (streamHeap s);
  wf_queue : forall t, t ∈ readyQueue s -> t_stream t < length (streamHeap s);
  wf_wired : forall k c ss, (k, c) ∈ cores s -> ss ∈ replicationStreams s ->
    attached c (stream ss) s \/ queued c (stream ss) s;
  wf_pending : forall c co, coreHeap s !! c = Some co -> c_status co = Pending ->
    c_readyListener co = true /\ c_errored co = false /\ c_errorListener co = true;
  wf_sessions : NoDup (map stream (replicationStreams s));
  wf_closed : forall m st, streamHeap s !! m = Some st ->
    onclose_closed st = true -> ~ active m s;
  wf_destroyed : forall m st, streamHeap s !! m = Some st ->
    destroyed st = true -> onclose_closed st = true /\ feeds st = []
}.

(** The index key [_optsToIndex] computes, or the error it throws. *)
Definition indexKey (coreOpts : CoreOpts) (rng : nat) : Result Idx :=
  match _optsToIndex coreOpts rng with
  | Ok (i, _) => Ok (idx i)
  | Throw e => Throw e
  end.

(** "No key and no secret key was supplied". *)
Definition keyless (coreOpts : CoreOpts) : Prop :=
  truthy_key (opt_key coreOpts) = false /\ opt_secretKey coreOpts = None.

(** The key pair of the "create a new log" path. *)
Definition keyPairFor (coreOpts : CoreOpts) (rng : nat) : KeyPair :=
  match opt_keyPair coreOpts with Some kp => kp | None => crypto_keyPair rng end.

(** [coreOpts.default = true] *)
Definition withDefaultFlag (o : CoreOpts) : CoreOpts :=
  mkCoreOpts true (opt_name o) (opt_key o) (opt_discoveryKey o) (opt_secretKey o)
             (opt_keyPair o).

(** [this.defaultCore = ...; return this.defaultCore] *)
Definition remembered (r : Result (nat * Store)) : Result (nat * Store) :=
  match r with
  | Ok (c, s) => Ok (c, set_defaultCore (Some c) s)
  | Throw e => Throw e
  end.

(** [{ discoveryKey: X }] *)
Definition discoveryOnly (X : KeyArg) : Request :=
  ReqOpts (mkCoreOpts false None None (Some X) None None).
End Statements.

(** ** Vocabulary of the further properties *)

(** [coreOpts.key || coreOpts.discoveryKey], the value [_optsToIndex]
    indexes by when neither the default rule nor the name rule applies. *)
Definition selectedKey (coreOpts : CoreOpts) : option KeyArg :=
  key_or (opt_key coreOpts) (opt_discoveryKey coreOpts).

(** The request falls through to the last branch of [_optsToIndex]. *)
Definition indexedByKey (coreOpts : CoreOpts) : Prop :=
  ~ (opt_default coreOpts = true /\ keyless coreOpts) /\
  ~ (truthy_name (opt_name coreOpts) = true /\ keyless coreOpts).

Section KeyVocabulary.
Context `{Crypto} `{DatEncoding}.

(** The keys a request brings are keys: every Buffer among [key],
    [discoveryKey] and [keyPair.publicKey] has 32 bytes, and a text among
    them that decodes, decodes to 32 bytes. *)
Definition wellFormedArg (k : KeyArg) : bool :=
  match k with
  | KBuf b => Nat.eqb (length b) 32
  | KText t => match decode t with Some b => Nat.eqb (length b) 32 | None => true end
  end.

Definition wellFormedRequest (o : CoreOpts) : bool :=
  from_option wellFormedArg true (opt_key o)
  && from_option wellFormedArg true (opt_discoveryKey o)
  && from_option (fun kp => Nat.eqb (length (publicKey kp)) 32) true (opt_keyPair o).


End KeyVocabulary.

(** The entries at the even positions (0, 2, 4, ...) and at the odd
    positions of an array. *)
Fixpoint evens {A} (l : list A) : list A :=
  match l with
  | [] => []
  | x :: l' => x :: match l' with [] => [] | _ :: l'' => evens l'' end
  end.

Definition odds {A} (l : list A) : list A := evens (tail l).

(** [streamEvolves st st']: [st'] is a later state of the stream [st].  The
    feeds only grow until the stream is destroyed. *)
Record streamEvolves (st st' : Stream) : Prop := mkStreamEvolves {
  sev_opts : s_opts st' = s_opts st;
  sev_anchor : s_anchor st' = s_anchor st;
  sev_feeds : destroyed st' = false -> feeds st `prefix_of` feeds st';
  sev_destroyed : destroyed st = true -> destroyed st' = true;
  sev_closed : onclose_closed st = true -> onclose_closed st' = true
}.

(** Every stream of [h] is still there in [h'], related by [R]. *)
Definition streamsRel (R : Stream -> Stream -> Prop) (h h' : list Stream) : Prop :=
  forall m st, h !! m = Some st -> exists st', h' !! m = Some st' /\ R st st'.

Definition streamsEvolve : list Stream -> list Stream -> Prop :=
  streamsRel streamEvolves.

(** The [core.close] calls in flight answer without error, one after the
    other; each number is a position in the queue at that moment. *)
Definition answersOk (order : list nat) : list Label :=
  map (fun i => CloseCallback i None) order.

(** [order] answers each of [k] calls in flight exactly once. *)
Fixpoint validOrder (order : list nat) (k : nat) : Prop :=
  match order with
  | [] => k = 0
  | i :: order' => i < k /\ validOrder order' (k - 1)
  end.

(** While the answers to the call [call] of [close] come in: [k] are still
    awaited, the callback has not run, and every core to be closed either
    still has a call in flight or is closed. *)
Record closing (call : nat) (cb0 : list (nat * option Error)) (targets : list nat)
               (k : nat) (s : Store) : Prop := mkClosing {
  cl_length : length (closeQueue s) = k;
  cl_call : forall ct, ct ∈ closeQueue s -> ct_call ct = call;
  cl_remaining : closeCalls s !! call = Some (Z.of_nat k);
  cl_callbacks : callbacks s = cb0;
  cl_valid : forall ct, ct ∈ closeQueue s -> ct_core ct < length (coreHeap s);
  cl_targets : forall c, c ∈ targets ->
    (exists ct, ct ∈ closeQueue s /\ ct_core ct = c) \/ core_isClosed s c = true
}.

(** A stream whose [onclose] ran is not in the session list. *)
Definition closedInactive (s : Store) : Prop :=
  forall m st, streamHeap s !! m = Some st -> onclose_closed st = true -> ~ active m s.

(** Every callback that waits in [core.ready] belongs to a core that is
    open. *)
Definition queueOpen (s : Store) : Prop :=
  forall t, t ∈ readyQueue s -> is_Some (core_key s (t_core t)).

(** The engine runs the callbacks that wait in [core.ready], oldest
    first. *)
Definition drainReady : nat -> list Label := repeat (ReadyCallback 0).

(** [{ key: X }], [{ name: n, key: X }] *)
Definition keyOnly (X : KeyArg) : Request :=
  ReqOpts (mkCoreOpts false None (Some X) None None None).

Definition nameAndKey (n : string) (X : KeyArg) : Request :=
  ReqOpts (mkCoreOpts false (Some n) (Some X) None None None).

(** The directory of a log that is stored by its index string:
    [[s.slice(0, 2), s.slice(2, 4), s].join('/')]. *)
Definition sharded (t : string) : string :=
  String.substring 0 2 t +:+ "/" +:+ String.substring 2 2 t +:+ "/" +:+ t.

(** The last handle on the heap, the one a [get] that found nothing has
    just made. *)
Definition madeBy (r : Result (nat * Store)) : option Core :=
  match r with
  | Ok (c, s) => coreHeap s !! c
  | Throw _ => None
  end.

(** Every core that is open in [s'] was open in [s], with the same
    options. *)
Definition openedBefore (s s' : Store) : Prop :=
  forall c co' pk, coreHeap s' !! c = Some co' -> c_status co' = Ready pk ->
    exists co, coreHeap s !! c = Some co /\ c_status co = Ready pk /\
               c_coreOpts co = c_coreOpts co'.

(** The ['feed'] events of the store match the cores that opened: one
    event for each, with the options the core was asked for. *)
Record feedLog (s : Store) : Prop := mkFeedLog {
  fl_once : NoDup (map fst (feedEvents s));
  fl_open : forall c o, (c, o) ∈ feedEvents s ->
    exists co pk, coreHeap s !! c = Some co /\ c_coreOpts co = o /\
                  c_status co = Ready pk;
  fl_all : forall c co pk, coreHeap s !! c = Some co -> c_status co = Ready pk ->
    (c, c_coreOpts co) ∈ feedEvents s
}.

(** The [core.close] calls in flight answer one after the other, each with
    or without an error; the number is the position in the queue at that
    moment. *)
Definition answers (order : list (nat * option Error)) : list Label :=
  map (fun a => CloseCallback (fst a) (snd a)) order.

Definition failed (order : list (nat * option Error)) : bool :=
  existsb (fun a => truthy_obj (snd a)) order.

(** What the callback of the call [call] is called with when the answers
    of [order] come in and at least one of them is an error. *)
Definition errorsOf (call : nat) (order : list (nat * option Error))
  : list (nat * option Error) :=
  omap (fun a => match snd a with Some e => Some (call, Some e) | None => None end) order.

(** ** An instance of the two libraries

    Keys are written in hexadecimal, as [dat-encoding] does.  The discovery
    key of this instance is a stand-in for the keyed hash of
    [hypercore-crypto]: the theorems never look inside it. *)

Definition hexDigit (n : N) : ascii :=
  match n with
  | 0 => "0" | 1 => "1" | 2 => "2" | 3 => "3" | 4 => "4" | 5 => "5" | 6 => "6"
  | 7 => "7" | 8 => "8" | 9 => "9" | 10 => "a" | 11 => "b" | 12 => "c"
  | 13 => "d" | 14 => "e" | _ => "f"
  end%N%char.

Definition hexValue (a : ascii) : option N :=
  let n := N_of_ascii a in
  if ((48 <=? n) && (n <=? 57))%N then Some (n - 48)%N
  else if ((97 <=? n) && (n <=? 102))%N then Some (n - 87)%N
  else None.

Fixpoint hexEncode (b : Buffer) : string :=
  match b with
  | [] => ""
  | x :: b' =>
      let n := Byte.to_N x in
      String (hexDigit (n / 16)) (String (hexDigit (n mod 16)) (hexEncode b'))
  end.

Fixpoint hexDecode (t : string) : option Buffer :=
  match t with
  | "" => Some []
  | String hi (String lo t') =>
      match hexValue hi, hexValue lo, hexDecode t' with
      | Some h, Some l, Some b =>
          match Byte.of_N (16 * h + l) with Some x => Some (x :: b) | None => None end
      | _, _, _ => None
      end
  | String _ "" => None
  end.

Definition sampleBytes (seed len : nat) : Buffer :=
  map (fun i => default Byte.x00 (Byte.of_nat ((seed * 16 + i) mod 256))) (seq 0 len).

#[export] Instance sampleCrypto : Crypto := {
  crypto_keyPair n := mkKeyPair (sampleBytes (2 * n + 1) 32) (sampleBytes (2 * n + 2) 64);
  crypto_discoveryKey b := rev b;
  crypto_randomBytes := sampleBytes
}.

#[export] Instance hexEncoding : DatEncoding := {
  encode := hexEncode;
  decode := hexDecode
}.

(** Values and traces used in the examples. *)

Definition K1 : Buffer := sampleBytes 1 32.

Definition K1text : string :=
  "101112131415161718191a1b1c1d1e1f202122232425262728292a2b2c2d2e2f".

Definition K1revtext : string :=
  "2f2e2d2c2b2a292827262524232221201f1e1d1c1b1a19181716151413121110".

Definition named (n : string) : Request :=
  ReqOpts (mkCoreOpts false (Some n) None None None None).

Definition newStore : Store := init emptyOpts.

Definition plainSession : Label := CallReplicate (ArgOpts emptyOpts) None.

Definition encrypted : Opts := mkOpts (Some true) [].

(** The core made by [get(K1)] on a new store. *)
Definition byKey1 : Core :=
  newCore (encode (crypto_discoveryKey K1))
          (mkIndex (IBuf (crypto_discoveryKey K1)) (Some (KBuf K1)) None)
          (requestOpts (ReqBuffer K1)).

(** One open core and two sessions whose callbacks have run, then
    [close]. *)
Definition twoSessionsClosed : list Label :=
  [CallGet (ReqOpts noOpts); CoreOpened 0 [];
   plainSession; ReadyCallback 0; ReadyCallback 0;
   plainSession; ReadyCallback 0; ReadyCallback 0;
   CallClose].

(** The same, then both [core.close] answer, so that [close] completes, and
    a third session is opened. *)
Definition staleTrace : list Label :=
  twoSessionsClosed ++ [CloseCallback 0 None; CloseCallback 0 None; plainSession].

(** Two calls of [get] with the same key before either core is open, then
    both open, then a session whose callbacks all run. *)
Definition twoHandlesTrace : list Label :=
  [CallGet (ReqBuffer K1); CallGet (ReqBuffer K1); CoreOpened 0 []; CoreOpened 1 [];
   plainSession; ReadyCallback 0; ReadyCallback 0].

(** The core of [get(K1)], open; the same with a session; the same with the
    callbacks of the session run. *)
Definition openTrace : list Label := [CallGet (ReqBuffer K1); CoreOpened 0 []].

Definition sessionTrace : list Label :=
  [CallGet (ReqBuffer K1); CoreOpened 0 []; plainSession].

Definition attachedTrace : list Label :=
  [CallGet (ReqBuffer K1); CoreOpened 0 []; plainSession; ReadyCallback 0; ReadyCallback 0].

(** The registry of [openTrace]: the core under its key and under its
    discovery key. *)
Definition openRegistry : JsMap := [(K1text, 0); (K1revtext, 0)].

(** * Proofs *)

(** ** The registry as a map *)

Lemma Map_get_set_eq k c m : Map_get k (Map_set k c m) = Some c.
Proof.
  induction m as [|[k' v'] m IH]; simpl.
  - by rewrite String.eqb_refl.
  - destruct (String.eqb k' k) eqn:E; simpl; rewrite E; auto.
Qed.

Lemma Map_get_set_ne k k' c m :
  k ≠ k' -> Map_get k' (Map_set k c m) = Map_get k' m.
Proof.
  intros Hne. induction m as [|[k0 v0] m IH]; simpl.
  - destruct (String.eqb k k') eqn:E; [|done].
    apply String.eqb_eq in E. contradiction.
  - destruct (String.eqb k0 k) eqn:E; simpl.
    + apply String.eqb_eq in E. subst k0.
      destruct (String.eqb k k') eqn:E'; [|done].
      apply String.eqb_eq in E'. contradiction.
    + by rewrite IH.
Qed.

Lemma Map_set_elem k c m k' c' :
  (k', c') ∈ Map_set k c m -> (k' = k /\ c' = c) \/ (k', c') ∈ m.
Proof.
  induction m as [|[k0 v0] m IH]; simpl.
  - intros Hin. apply list_elem_of_singleton in Hin. left. by inversion Hin.
  - destruct (String.eqb k0 k) eqn:E.
    + apply String.eqb_eq in E. subst k0. intros Hin.
      apply elem_of_cons in Hin as [Heq|Hin].
      * left. by inversion Heq.
      * right. by apply elem_of_cons; right.
    + intros Hin. apply elem_of_cons in Hin as [Heq|Hin].
      * right. apply elem_of_cons; by left.
      * destruct (IH Hin) as [?|?]; [by left|right].
        apply elem_of_cons; by right.
Qed.

Lemma Map_get_elem k c m : Map_get k m = Some c -> (k, c) ∈ m.
Proof.
  induction m as [|[k0 v0] m IH]; simpl; [done|].
  destruct (String.eqb k0 k) eqn:E.
  - apply String.eqb_eq in E. intros [= ->]. subst. apply elem_of_cons; by left.
  - intros Hg. apply elem_of_cons; right; auto.
Qed.

Lemma elem_of_delete_or {A} (l : list A) i x y :
  x ∈ l -> l !! i = Some y -> x = y \/ x ∈ delete i l.
Proof.
  revert i. induction l as [|a l IH]; intros i Hin Hl; [by destruct i|].
  destruct i as [|i]; simpl in *.
  - inversion Hl; subst. apply elem_of_cons in Hin as [?|?]; auto.
  - apply elem_of_cons in Hin as [->|Hin].
    + right. apply elem_of_cons; by left.
    + destruct (IH i Hin Hl) as [?|?]; [by left|right].
      apply elem_of_cons; by right.
Qed.

Lemma existsb_eqb_elem c (l : list nat) : existsb (Nat.eqb c) l = true <-> c ∈ l.
Proof.
  rewrite existsb_exists. split.
  - intros (x & Hin & Heq). apply Nat.eqb_eq in Heq. subst. by apply list_elem_of_In.
  - intros Hin. exists c. split; [by apply list_elem_of_In|apply Nat.eqb_refl].
Qed.

Lemma elem_of_splice1 {A} (l : list A) i x : x ∈ splice1 i l -> x ∈ l.
Proof. unfold splice1. apply list_elem_of_delete_inv. Qed.

Lemma indexOf_elem m (l : list StreamState) :
  m ∈ map stream l ->
  exists i, indexOf m l = Z.of_nat i /\ map stream l !! i = Some m.
Proof.
  induction l as [|ss l IH]; simpl; intros Hin; [by apply not_elem_of_nil in Hin|].
  destruct (Nat.eqb (stream ss) m) eqn:E.
  - apply Nat.eqb_eq in E. exists 0. by rewrite E.
  - apply Nat.eqb_neq in E. apply elem_of_cons in Hin as [Hin|Hin]; [congruence|].
    destruct (IH Hin) as (i & Hi & Hl). exists (S i). rewrite Hi. split; [|done].
    destruct (Z.of_nat i <? 0)%Z eqn:Hlt; lia.
Qed.

Lemma indexOf_absent m (l : list StreamState) :
  m ∉ map stream l -> indexOf m l = (-1)%Z.
Proof.
  induction l as [|ss l IH]; simpl; intros Hn; [done|].
  destruct (Nat.eqb (stream ss) m) eqn:E.
  - apply Nat.eqb_eq in E. destruct Hn. rewrite E. apply list_elem_of_here.
  - rewrite IH; [done|]. intros Hin. apply Hn. by apply list_elem_of_further.
Qed.

Lemma splice1_last {A} (l : list A) : splice1 (-1) l = removelast l.
Proof.
  unfold splice1. simpl.
  replace (Z.to_nat (Z.max (Z.of_nat (length l) + -1) 0)) with (length l - 1) by lia.
  induction l as [|a [|b l] IH]; [done|done|].
  change (removelast (a :: b :: l)) with (a :: removelast (b :: l)).
  rewrite <- IH. simpl. by rewrite Nat.sub_0_r.
Qed.

Lemma splice1_nat {A} (l : list A) i :
  i < length l -> splice1 (Z.of_nat i) l = delete i l.
Proof.
  intros Hi. unfold splice1. destruct (Z.of_nat i <? 0)%Z eqn:E; [lia|].
  f_equal. lia.
Qed.

(** [splice(indexOf(x), 1)] on an array without duplicates leaves no [x]. *)
Lemma splice_indexOf_gone m (l : list StreamState) :
  NoDup (map stream l) -> m ∉ map stream (splice1 (indexOf m l) l).
Proof.
  intros Hnd. destruct (decide (m ∈ map stream l)) as [Hin|Hn].
  - destruct (indexOf_elem _ _ Hin) as (i & Hi & Hl). rewrite Hi.
    assert (Hlen : i < length l).
    { apply lookup_lt_Some in Hl. by rewrite length_map in Hl. }
    rewrite splice1_nat by done.
    change (map stream (delete i l)) with (stream <$> delete i l).
    rewrite list_fmap_delete.
    apply (NoDup_Permutation_proper _ _ (delete_Permutation _ _ _ Hl)) in Hnd.
    by apply NoDup_cons_1_1 in Hnd.
  - intros Hin. apply Hn. apply list_elem_of_fmap in Hin as (ss & -> & Hin).
    apply elem_of_splice1 in Hin. apply list_elem_of_fmap. eauto.
Qed.

Lemma splice1_NoDup (l : list StreamState) i :
  NoDup (map stream l) -> NoDup (map stream (splice1 i l)).
Proof.
  intros Hnd. unfold splice1.
  change (map stream (delete ?j l)) with (stream <$> delete j l).
  rewrite list_fmap_delete. eapply sublist_NoDup; [done|apply sublist_delete].
Qed.

(** ** The loops of the store as list operations *)

Section Loops.
Context `{Crypto} `{DatEncoding}.

Lemma replicateCore_fold {A} (f : A -> ReadyTask) (l : list A) s :
  fold_left (fun s a => _replicateCore (t_core (f a)) (t_stream (f a)) (t_opts (f a)) s) l s
  = set_readyQueue (readyQueue s ++ map f l) s.
Proof.
  revert s. induction l as [|a l IH]; intros s; simpl.
  - rewrite app_nil_r. by destruct s.
  - rewrite IH. unfold _replicateCore. destruct (f a) as [c m o].
    destruct s; simpl. by rewrite <- app_assoc.
Qed.

Lemma inject_spec c s :
  injectIntoReplicationStreams c s
  = set_readyQueue
      (readyQueue s ++ map (fun ss => mkTask c (stream ss) (ss_opts ss))
                           (replicationStreams s)) s.
Proof.
  unfold injectIntoReplicationStreams.
  by rewrite <- (replicateCore_fold (fun ss => mkTask c (stream ss) (ss_opts ss))).
Qed.
End Loops.

(** ** The invariant holds initially and every step keeps it *)

Section Invariant.
Context `{Crypto} `{DatEncoding}.

Lemma wf_frame s s' :
  cores s' = cores s -> replicationStreams s' = replicationStreams s ->
  readyQueue s' = readyQueue s -> coreHeap s' = coreHeap s ->
  streamHeap s' = streamHeap s -> wf s -> wf s'.
Proof.
  destruct s, s'; simpl. intros -> -> -> -> -> [W1 W2 W3 W4 W5 W6 W7 W8 W9].
  by constructor.
Qed.

Lemma wf_init o : wf (init o).
Proof.
  constructor; simpl.
  - intros k c Hin. by apply not_elem_of_nil in Hin.
  - intros m st Hl. by rewrite lookup_nil in Hl.
  - intros ss Hin. by apply not_elem_of_nil in Hin.
  - intros t Hin. by apply not_elem_of_nil in Hin.
  - intros k c ss Hin. by apply not_elem_of_nil in Hin.
  - intros c co Hl. by rewrite lookup_nil in Hl.
  - apply NoDup_nil_2.
  - intros m st Hl. by rewrite lookup_nil in Hl.
  - intros m st Hl. by rewrite lookup_nil in Hl.
Qed.

Lemma wf_enqueue s extra :
  (forall t, t ∈ extra -> t_stream t < length (streamHeap s)) ->
  wf s -> wf (set_readyQueue (readyQueue s ++ extra) s).
Proof.
  intros Hex [W1 W2 W3 W4 W5 W6 W7 W8 W9]. constructor; simpl; auto.
  - intros t Hin. apply elem_of_app in Hin as [?|?]; auto.
  - intros k c ss Hc Hs. destruct (W5 k c ss Hc Hs) as [?|(t & Ht & ? & ?)]; [by left|].
    right. exists t. split; [|done]. simpl. apply elem_of_app; by left.
Qed.

Lemma wf_inject c s : wf s -> wf (injectIntoReplicationStreams c s).
Proof.
  intros W. rewrite inject_spec. apply wf_enqueue; [|done].
  intros t Hin. apply list_elem_of_fmap in Hin as (ss & -> & Hss). simpl.
  by apply (wf_active _ W).
Qed.

Lemma core_key_app s c co :
  is_Some (coreHeap s !! c) ->
  core_key (set_coreHeap (coreHeap s ++ [co]) s) c = core_key s c.
Proof.
  intros Hs. unfold core_key; simpl.
  rewrite lookup_app_l; [done|]. by apply lookup_lt_is_Some.
Qed.

Lemma core_key_Some s c k : core_key s c = Some k -> is_Some (coreHeap s !! c).
Proof. unfold core_key. destruct (coreHeap s !! c); [eauto|done]. Qed.

Lemma wf_newCore s co :
  c_status co = Pending -> c_readyListener co = true -> c_errored co = false ->
  c_errorListener co = true ->
  wf s -> wf (set_coreHeap (coreHeap s ++ [co]) s).
Proof.
  intros Hp Hr He Hl [W1 W2 W3 W4 W5 W6 W7 W8 W9]. constructor; simpl; auto.
  - intros k c Hin. destruct (W1 k c Hin) as (pk & Hk & Hor).
    exists pk. split; [|done]. rewrite core_key_app; eauto using core_key_Some.
  - intros m st Hm. destruct (W2 m st Hm) as [Hnd Hall]. split; [done|].
    intros c Hc. destruct (Hall c Hc) as [pk Hk].
    rewrite core_key_app; eauto using core_key_Some.
  - intros c co' Hl'. apply lookup_app_Some in Hl' as [Hl'|[_ Hl']]; eauto.
    apply list_lookup_singleton_Some in Hl' as [_ <-]. auto.
Qed.

Lemma wf_get req s c s' : wf s -> get req s = Ok (c, s') -> wf s'.
Proof.
  intros W. unfold get.
  destruct (_optsToIndex (requestOpts req) (rng s)) as [[i rng']|e]; [|done].
  simpl. destruct (Map_get _ (cores s)) as [ex|] eqn:E; intros [= <- <-].
  - apply wf_inject. by apply (wf_frame s).
  - apply (wf_newCore (set_rng rng' s)); try done. by apply (wf_frame s).
Qed.
End Invariant.

Section HeapUpdates.
Context `{Crypto} `{DatEncoding}.

Lemma core_key_keyOf s c : core_key s c = coreHeap s !! c ≫= keyOf.
Proof. unfold core_key, keyOf. by destruct (coreHeap s !! c). Qed.

Lemma core_key_updCore_mono s c f c' pk :
  (forall co k, coreHeap s !! c = Some co -> keyOf co = Some k -> keyOf (f co) = Some k) ->
  core_key s c' = Some pk -> core_key (updCore c f s) c' = Some pk.
Proof.
  intros Hf. rewrite !core_key_keyOf. unfold updCore; simpl.
  destruct (decide (c = c')) as [->|Hne].
  - rewrite list_lookup_alter_eq. destruct (coreHeap s !! c') as [co|] eqn:E; [|done].
    simpl. eauto.
  - by rewrite list_lookup_alter_ne.
Qed.

Lemma wf_updCore s c f :
  (forall co k, coreHeap s !! c = Some co -> keyOf co = Some k -> keyOf (f co) = Some k) ->
  (forall co, coreHeap s !! c = Some co -> c_status (f co) = Pending ->
     c_readyListener (f co) = true /\ c_errored (f co) = false /\
     c_errorListener (f co) = true) ->
  wf s -> wf (updCore c f s).
Proof.
  intros Hk Hp [W1 W2 W3 W4 W5 W6 W7 W8 W9]. constructor; auto.
  - intros k c' Hin. destruct (W1 k c' Hin) as (pk & Hpk & Hor).
    exists pk. split; [|done]. by apply core_key_updCore_mono.
  - intros m st Hm. destruct (W2 m st Hm) as [Hnd Hall]. split; [done|].
    intros c' Hc. destruct (Hall c' Hc) as [pk Hpk].
    exists pk. by apply core_key_updCore_mono.
  - intros c' co'. unfold updCore; simpl.
    destruct (decide (c = c')) as [->|Hne].
    + rewrite list_lookup_alter_eq. destruct (coreHeap s !! c') as [co|] eqn:E; [|done].
      simpl. intros [= <-]. by apply Hp.
    + rewrite list_lookup_alter_ne; [|done]. apply W6.
Qed.

Lemma attached_updStream s m f c m' :
  (forall st, feeds (f st) = feeds st) ->
  attached c m' (updStream m f s) <-> attached c m' s.
Proof.
  intros Hf. unfold attached, updStream; simpl.
  destruct (decide (m = m')) as [->|Hne].
  - rewrite list_lookup_alter_eq. destruct (streamHeap s !! m') as [st|]; simpl.
    + split; intros (st' & [= <-] & Hin).
      * exists st. by rewrite Hf in Hin.
      * exists (f st). by rewrite Hf.
    + split; intros (? & ? & ?); done.
  - by rewrite list_lookup_alter_ne.
Qed.

Lemma active_updStream s m f m' : active m' (updStream m f s) <-> active m' s.
Proof. done. Qed.

(** A stream update that keeps the feeds and does not set a flag. *)
Lemma wf_updStream s m f :
  (forall st, feeds (f st) = feeds st) ->
  (forall st, destroyed (f st) = destroyed st) ->
  (forall st, onclose_closed (f st) = onclose_closed st) ->
  wf s -> wf (updStream m f s).
Proof.
  intros Hf Hd Hc [W1 W2 W3 W4 W5 W6 W7 W8 W9]. constructor; auto.
  - intros m' st'. unfold updStream; simpl.
    destruct (decide (m = m')) as [->|Hne].
    + rewrite list_lookup_alter_eq. destruct (streamHeap s !! m') as [st|] eqn:E; [|done].
      simpl. intros [= <-]. rewrite Hf. by apply (W2 m').
    + rewrite list_lookup_alter_ne; [|done]. apply W2.
  - intros ss Hin. unfold updStream; simpl. rewrite length_alter. auto.
  - intros t Hin. unfold updStream; simpl. rewrite length_alter. auto.
  - intros k c ss Hc' Hs. destruct (W5 k c ss Hc' Hs) as [Ha|Hq]; [left|by right].
    by apply attached_updStream.
  - intros m' st'. unfold updStream; simpl.
    destruct (decide (m = m')) as [->|Hne].
    + rewrite list_lookup_alter_eq. destruct (streamHeap s !! m') as [st|] eqn:E; [|done].
      simpl. intros [= <-]. rewrite Hc. by apply (W8 m').
    + rewrite list_lookup_alter_ne; [|done]. apply W8.
  - intros m' st'. unfold updStream; simpl.
    destruct (decide (m = m')) as [->|Hne].
    + rewrite list_lookup_alter_eq. destruct (streamHeap s !! m') as [st|] eqn:E; [|done].
      simpl. intros [= <-]. rewrite Hd, Hc, Hf. by apply (W9 m').
    + rewrite list_lookup_alter_ne; [|done]. apply W9.
Qed.

(** What [core.replicate] leaves in the stream. *)
Lemma core_replicate_lookup s c m m' :
  streamHeap (core_replicate c m s) !! m' =
  if decide (m = m')
  then (fun st => if destroyed st then st else set_feeds (feeds st ++ [c]) st)
         <$> streamHeap s !! m'
  else streamHeap s !! m'.
Proof.
  unfold core_replicate, updStream; simpl. destruct (decide (m = m')) as [->|Hne].
  - apply list_lookup_alter_eq.
  - by apply list_lookup_alter_ne.
Qed.

Lemma attached_core_replicate_mono s c m c' m' :
  attached c' m' s -> attached c' m' (core_replicate c m s).
Proof.
  intros (st & Hst & Hin). unfold attached. rewrite core_replicate_lookup.
  destruct (decide (m = m')) as [->|Hne]; [|eauto].
  rewrite Hst. simpl. eexists; split; [done|].
  destruct (destroyed st); [done|]. simpl. apply elem_of_app; by left.
Qed.

Lemma attached_core_replicate s c m st :
  streamHeap s !! m = Some st -> destroyed st = false ->
  attached c m (core_replicate c m s).
Proof.
  intros Hst Hd. unfold attached. rewrite core_replicate_lookup, decide_True by done.
  rewrite Hst. simpl. eexists; split; [done|]. rewrite Hd.
  simpl. apply elem_of_app; right. by apply list_elem_of_singleton.
Qed.

Lemma wf_attach s c m st :
  is_Some (core_key s c) -> streamHeap s !! m = Some st -> c ∉ feeds st ->
  wf s -> wf (core_replicate c m s).
Proof.
  intros Hk Hst Hnin [W1 W2 W3 W4 W5 W6 W7 W8 W9]. constructor; auto.
  - intros m' st'. rewrite core_replicate_lookup.
    destruct (decide (m = m')) as [->|Hne]; [|apply W2].
    rewrite Hst. simpl. intros [= <-].
    destruct (W2 m' st Hst) as [Hnd Hall]. destruct (destroyed st); [done|]. simpl. split.
    + apply NoDup_app. split; [done|]. split; [|apply NoDup_singleton].
      intros x Hx Hx'. apply list_elem_of_singleton in Hx'. by subst.
    + intros c' Hc'. apply elem_of_app in Hc' as [?|Hc']; [by apply Hall|].
      apply list_elem_of_singleton in Hc'. by subst.
  - intros ss Hin. unfold core_replicate, updStream; simpl. rewrite length_alter. auto.
  - intros t Hin. unfold core_replicate, updStream; simpl. rewrite length_alter. auto.
  - intros k c' ss Hc Hs. destruct (W5 k c' ss Hc Hs) as [Ha|Hq]; [left|by right].
    by apply attached_core_replicate_mono.
  - intros m' st'. rewrite core_replicate_lookup.
    destruct (decide (m = m')) as [->|Hne]; [|apply W8].
    rewrite Hst. simpl. intros [= <-] Hc. apply (W8 m' st Hst).
    by destruct (destroyed st).
  - intros m' st'. rewrite core_replicate_lookup.
    destruct (decide (m = m')) as [->|Hne]; [|apply W9].
    rewrite Hst. simpl. intros [= <-].
    destruct (destroyed st) eqn:Hd; simpl;
      [intros _; by apply (W9 m' st Hst)|by rewrite Hd].
Qed.

(** Taking a callback off the queue is safe once its pair is attached, or
    when its stream is not in the session list. *)
Lemma wf_dequeue s i t :
  readyQueue s !! i = Some t ->
  (forall k, (k, t_core t) ∈ cores s -> active (t_stream t) s ->
     attached (t_core t) (t_stream t) s) ->
  wf s -> wf (set_readyQueue (delete i (readyQueue s)) s).
Proof.
  intros Hi Hat [W1 W2 W3 W4 W5 W6 W7 W8 W9]. constructor; simpl; auto.
  - intros t' Hin. apply W4. by eapply list_elem_of_delete_inv.
  - intros k c ss Hc Hs. destruct (W5 k c ss Hc Hs) as [Ha|(t' & Hin & Hc' & Hm')];
      [by left|].
    destruct (elem_of_delete_or _ _ _ _ Hin Hi) as [->|Hin'].
    + left. subst c. rewrite <- Hm'. apply (Hat k); [done|].
      rewrite Hm'. unfold active. apply list_elem_of_fmap. by exists ss.
    + right. by exists t'.
Qed.
End HeapUpdates.

Section Handlers.
Context `{Crypto} `{DatEncoding}.

Lemma coreHeap_updCore s c f c' :
  coreHeap (updCore c f s) !! c' =
  if decide (c = c') then f <$> coreHeap s !! c' else coreHeap s !! c'.
Proof.
  unfold updCore; simpl. destruct (decide (c = c')) as [->|Hne].
  - apply list_lookup_alter_eq.
  - by apply list_lookup_alter_ne.
Qed.

Lemma wf_settle s c co v :
  coreHeap s !! c = Some co -> c_status co = Pending -> v <> Pending ->
  wf s -> wf (updCore c (set_status v) s).
Proof.
  intros Hc Hp Hv. apply wf_updCore.
  - intros co' k Hc'. rewrite Hc in Hc'. inversion Hc'; subst.
    unfold keyOf. by rewrite Hp.
  - intros co' _. simpl. done.
Qed.

Lemma wf_updCore_settled s c f :
  (forall co, c_status (f co) = c_status co) ->
  (forall co, coreHeap s !! c = Some co -> c_status co <> Pending) ->
  wf s -> wf (updCore c f s).
Proof.
  intros Hf Hs. apply wf_updCore.
  - intros co k _. unfold keyOf. by rewrite Hf.
  - intros co Hc Hp. rewrite Hf in Hp. by destruct (Hs co Hc).
Qed.

Lemma wf_set_closed s c v : wf s -> wf (updCore c (set_closed v) s).
Proof.
  intros W. apply wf_updCore; [done| |done].
  intros co Hc Hp. simpl in *. by apply (wf_pending _ W c).
Qed.

Lemma wf_register s c pk :
  core_key s c = Some pk -> wf s ->
  wf (let s := set_cores (Map_set (encode pk) c (cores s)) s in
      let s := set_cores (Map_set (encode (crypto_discoveryKey pk)) c (cores s)) s in
      injectIntoReplicationStreams c s).
Proof.
  intros Hk [W1 W2 W3 W4 W5 W6 W7 W8 W9]. cbv zeta. rewrite inject_spec.
  constructor; simpl; auto.
  - intros k c' Hin. apply Map_set_elem in Hin as [[-> ->]|Hin]; [by eauto|].
    apply Map_set_elem in Hin as [[-> ->]|Hin]; [by eauto|]. by apply W1.
  - intros t Hin. apply elem_of_app in Hin as [?|Hin]; [by auto|].
    apply list_elem_of_fmap in Hin as (ss & -> & Hss). by apply W3.
  - intros k c' ss Hin Hss.
    assert (Hnew : forall s', readyQueue s' = (readyQueue s ++
                 map (fun ss => mkTask c (stream ss) (ss_opts ss)) (replicationStreams s))%list ->
              queued c (stream ss) s').
    { intros s' Hq. exists (mkTask c (stream ss) (ss_opts ss)). split; [|done].
      rewrite Hq. apply elem_of_app; right. apply list_elem_of_fmap. by exists ss. }
    apply Map_set_elem in Hin as [[-> ->]|Hin]; [right; by apply Hnew|].
    apply Map_set_elem in Hin as [[-> ->]|Hin]; [right; by apply Hnew|].
    destruct (W5 k c' ss Hin Hss) as [?|(t & Ht & ? & ?)]; [by left|].
    right. exists t. split; [|done]. simpl. apply elem_of_app; by left.
Qed.

Lemma wf_onready s c : wf s -> wf (onready c s).
Proof.
  intros W. unfold onready.
  destruct (coreHeap s !! c) as [co|] eqn:Hc; [|done].
  destruct (c_errored co); [done|].
  destruct (c_status co) as [|k|] eqn:Hst; try done.
  apply (wf_register _ c k).
  - rewrite core_key_keyOf, coreHeap_updCore. simpl.
    rewrite decide_True by done. rewrite Hc. simpl.
    unfold keyOf. simpl. by rewrite Hst.
  - apply wf_updCore_settled.
    + done.
    + simpl. intros co' Hc'. rewrite Hc in Hc'. inversion Hc'; subst. by rewrite Hst.
    + by apply (wf_frame s).
Qed.

Lemma wf_coreOpened s c k : wf s -> wf (coreOpened c k s).
Proof.
  intros W. unfold coreOpened.
  destruct (coreHeap s !! c) as [co|] eqn:Hc; [|done].
  destruct (c_status co) eqn:Hst; try done.
  assert (W1 : wf (updCore c (set_status (Ready (openedKey co k))) s))
    by (by eapply wf_settle).
  destruct (c_readyListener co); [|done].
  apply wf_onready. apply wf_updCore_settled; [done| |done].
  intros co'. rewrite coreHeap_updCore, decide_True by done. rewrite Hc. simpl.
  by intros [= <-].
Qed.

Lemma wf_coreFailed s c : wf s -> wf (coreFailed c s).
Proof.
  intros W. unfold coreFailed.
  destruct (coreHeap s !! c) as [co|] eqn:Hc; [|done].
  destruct (c_status co) eqn:Hst; try done.
  assert (W1 : wf (updCore c (set_status Errored) s)) by (by eapply wf_settle).
  assert (Hset : forall co', coreHeap (updCore c (set_status Errored) s) !! c = Some co' ->
                             c_status co' <> Pending).
  { intros co'. rewrite coreHeap_updCore, decide_True by done. rewrite Hc. simpl.
    by intros [= <-]. }
  destruct (c_errorListener co); [|done].
  unfold errorListener. apply wf_updCore_settled.
  - intros co'. by destruct (truthy_key _).
  - intros co'. rewrite coreHeap_updCore, decide_True by done.
    destruct (coreHeap (updCore c (set_status Errored) s) !! c) as [co''|] eqn:E; [|done].
    simpl. intros [= <-]. simpl. by apply Hset.
  - by apply wf_updCore_settled.
Qed.

Lemma wf_readyCallback s i : wf s -> wf (readyCallback i s).
Proof.
  intros W. unfold readyCallback.
  destruct (readyQueue s !! i) as [t|] eqn:Hi; [|done].
  destruct (coreHeap s !! t_core t) as [co|] eqn:Hc; simpl; [|done].
  destruct (c_status co) as [|k|] eqn:Hst; [done| |].
  - (* the core is open *)
    assert (Hk : core_key s (t_core t) = Some k).
    { rewrite core_key_keyOf, Hc. simpl. unfold keyOf. by rewrite Hst. }
    unfold replicateCore_onready. simpl.
    destruct (streamHeap s !! t_stream t) as [st|] eqn:Hm.
    + destruct (existsb (Nat.eqb (t_core t)) (feeds st)) eqn:Hex.
      * apply (wf_dequeue s i t); [done| |done].
        intros _ _ _. exists st. split; [done|]. by apply existsb_eqb_elem.
      * change (wf (set_readyQueue (delete i (readyQueue (core_replicate (t_core t) (t_stream t) s)))
                      (core_replicate (t_core t) (t_stream t) s))).
        apply (wf_dequeue _ i t); [done| |].
        -- intros _ _ Ha. apply (attached_core_replicate _ _ _ st); [done|].
           destruct (destroyed st) eqn:Hd; [|done].
           destruct (wf_destroyed _ W _ _ Hm Hd) as [Hcl _].
           by destruct (wf_closed _ W _ _ Hm Hcl).
        -- apply (wf_attach s _ _ st); eauto.
           intros Hin. apply existsb_eqb_elem in Hin. congruence.
    + apply (wf_dequeue s i t); [done| |done].
      intros _ _ Ha. unfold active in Ha. apply list_elem_of_fmap in Ha as (ss & E & Hin).
      apply (wf_active _ W) in Hin. rewrite <- E in Hin.
      apply lookup_lt_is_Some in Hin as [? ?]. congruence.
  - (* the core failed to open: it is registered nowhere *)
    simpl. apply (wf_dequeue s i t); [done| |done].
    intros k Hin _. destruct (wf_registered _ W k _ Hin) as (pk & Hpk & _).
    rewrite core_key_keyOf, Hc in Hpk. simpl in Hpk. unfold keyOf in Hpk.
    by rewrite Hst in Hpk.
Qed.

Lemma wf_engineAnchor s m : wf s -> wf (engineAnchor m s).
Proof.
  intros W. unfold engineAnchor.
  destruct (streamHeap s !! m) as [st|] eqn:Hm; [|done].
  destruct (s_anchor st) as [c|]; [|done].
  destruct (core_key s c) as [k|] eqn:Hk; [|done].
  destruct (existsb (Nat.eqb c) (feeds st)) eqn:Hex; [done|].
  apply (wf_attach s c m st); [by rewrite Hk|done| |done].
  intros Hin. apply existsb_eqb_elem in Hin. congruence.
Qed.

Lemma wf_after_get s r : wf s -> wf (after (get r s) s).
Proof.
  intros W. destruct (get r s) as [[c s']|e] eqn:E; simpl; [|done].
  by eapply wf_get.
Qed.

Lemma wf_remoteFeed s m dkey : wf s -> wf (remoteFeed m dkey s).
Proof.
  intros W. unfold remoteFeed. destruct (streamHeap s !! m); [|done].
  by apply wf_after_get.
Qed.

Lemma wf_default s r c s' : wf s -> store_default r s = Ok (c, s') -> wf s'.
Proof.
  intros W. unfold store_default. destruct (defaultCore s).
  - by intros [= <- <-].
  - match goal with |- context [get ?r s] => destruct (get r s) as [[c' s'']|e] eqn:E end;
      [|done].
    intros [= <- <-]. apply (wf_frame s''); try done. by eapply wf_get.
Qed.

(** A stream leaves the session list, or is outside it, and its object is
    updated: the feeds stay or are dropped, and [destroyed] is set only
    together with [closed]. *)
Lemma wf_end_stream s m f l' :
  (forall ss, ss ∈ l' -> ss ∈ replicationStreams s) ->
  NoDup (map stream l') -> m ∉ map stream l' ->
  (forall st, streamHeap s !! m = Some st ->
     (feeds (f st) = feeds st \/ feeds (f st) = []) /\
     (destroyed (f st) = true -> onclose_closed (f st) = true /\ feeds (f st) = [])) ->
  wf s -> wf (updStream m f (set_replicationStreams l' s)).
Proof.
  intros Hsub Hnd Hm Hf [W1 W2 W3 W4 W5 W6 W7 W8 W9].
  assert (L : forall m', streamHeap (updStream m f (set_replicationStreams l' s)) !! m' =
                if decide (m = m') then f <$> streamHeap s !! m' else streamHeap s !! m').
  { intros m'. unfold updStream; simpl. destruct (decide (m = m')) as [->|Hne].
    - apply list_lookup_alter_eq.
    - by apply list_lookup_alter_ne. }
  constructor.
  - exact W1.
  - intros m' st'. rewrite L. destruct (decide (m = m')) as [<-|Hne]; [|apply W2].
    destruct (streamHeap s !! m) as [st|] eqn:E; [|done]. simpl. intros [= <-].
    destruct (W2 m st E) as [Hn Hall].
    destruct (proj1 (Hf st eq_refl)) as [-> | ->]; [done|].
    split; [apply NoDup_nil_2|]. intros c Hc. by apply not_elem_of_nil in Hc.
  - intros ss Hin. unfold updStream; simpl. rewrite length_alter. auto.
  - intros t Hin. unfold updStream; simpl. rewrite length_alter. by apply W4.
  - intros k c ss Hc Hin.
    assert (Hne : m <> stream ss).
    { intros ->. apply Hm. apply list_elem_of_fmap. by exists ss. }
    destruct (W5 k c ss Hc (Hsub _ Hin)) as [(st & Hst & Hfe)|Hq]; [left|by right].
    exists st. by rewrite L, decide_False.
  - exact W6.
  - exact Hnd.
  - intros m' st'. rewrite L. unfold active. simpl.
    destruct (decide (m = m')) as [<-|Hne]; [done|].
    intros Hst Hc Hin. apply (W8 m' st' Hst Hc).
    apply list_elem_of_fmap in Hin as (ss & -> & Hin).
    apply list_elem_of_fmap. exists ss. split; [done|]. by apply Hsub.
  - intros m' st'. rewrite L. destruct (decide (m = m')) as [<-|Hne]; [|apply W9].
    destruct (streamHeap s !! m) as [st|] eqn:E; [|done]. simpl. intros [= <-].
    apply (proj2 (Hf st eq_refl)).
Qed.

Lemma wf_replicate_onclose s m : wf s -> wf (replicate_onclose m s).
Proof.
  intros W. unfold replicate_onclose.
  destruct (streamHeap s !! m) as [st|] eqn:Hm; [|done].
  destruct (onclose_closed st) eqn:Hc; [done|].
  apply wf_end_stream; [| | | |done].
  - intros ss. apply elem_of_splice1.
  - apply splice1_NoDup, (wf_sessions _ W).
  - apply splice_indexOf_gone, (wf_sessions _ W).
  - intros st' Hst'. rewrite Hm in Hst'. injection Hst' as <-. simpl.
    split; [by left|]. intros Hd. split; [done|].
    by apply (wf_destroyed _ W m st Hm).
Qed.

(** [destroy] as one update: the stream object, and the session list as
    [onclose] leaves it. *)
Lemma stream_destroy_spec s m st :
  streamHeap s !! m = Some st -> destroyed st = false ->
  stream_destroy m s =
  updStream m (fun st => set_onclose_closed true (set_feeds [] (set_destroyed true st)))
    (set_replicationStreams
       (if onclose_closed st then replicationStreams s
        else splice1 (indexOf m (replicationStreams s)) (replicationStreams s)) s).
Proof.
  intros Hm Hd. unfold stream_destroy, replicate_onclose. rewrite Hm, Hd.
  unfold updStream at 2 3; simpl. rewrite list_lookup_alter_eq, Hm. simpl.
  destruct (onclose_closed st) eqn:Hc.
  - destruct s; unfold updStream, set_streamHeap, set_replicationStreams; simpl. f_equal.
    apply list_alter_ext; [|done]. intros st' Hst'. simpl in *.
    rewrite Hm in Hst'. injection Hst' as <-.
    unfold set_onclose_closed, set_feeds, set_destroyed; simpl. by rewrite ?Hc.
  - destruct s; unfold updStream, set_streamHeap, set_replicationStreams; simpl.
    by rewrite list_alter_alter_eq.
Qed.

Lemma wf_stream_destroy s m : wf s -> wf (stream_destroy m s).
Proof.
  intros W. destruct (streamHeap s !! m) as [st|] eqn:Hm.
  2:{ unfold stream_destroy. by rewrite Hm. }
  destruct (destroyed st) eqn:Hd.
  { unfold stream_destroy. by rewrite Hm, Hd. }
  rewrite (stream_destroy_spec s m st Hm Hd).
  apply wf_end_stream; [| | | |done].
  - intros ss. destruct (onclose_closed st); [done|apply elem_of_splice1].
  - destruct (onclose_closed st); [apply (wf_sessions _ W)|].
    apply splice1_NoDup, (wf_sessions _ W).
  - destruct (onclose_closed st) eqn:Hc.
    + apply (wf_closed _ W m st Hm Hc).
    + apply splice_indexOf_gone, (wf_sessions _ W).
  - intros st' _. simpl. split; [by right|done].
Qed.

Lemma wf_reset s call err : wf s -> wf (reset call err s).
Proof.
  intros [W1 W2 W3 W4 W5 W6 W7 W8 W9]. unfold reset. constructor; simpl; auto.
  - intros k c Hin. by apply not_elem_of_nil in Hin.
  - intros ss Hin. by apply not_elem_of_nil in Hin.
  - intros k c ss Hin. by apply not_elem_of_nil in Hin.
  - apply NoDup_nil_2.
  - intros m st _ _ Hin. unfold active in Hin. simpl in Hin.
    by apply not_elem_of_nil in Hin.
Qed.

Lemma wf_close_onclose s call err : wf s -> wf (close_onclose call err s).
Proof.
  intros W. unfold close_onclose. destruct err; [by apply wf_reset|].
  simpl. set (s1 := set_closeCalls _ s).
  assert (W1 : wf s1) by (by apply (wf_frame s)).
  destruct (_ !! call) as [[| |]|]; try done. by apply wf_reset.
Qed.

Lemma wf_closeCallback s i err : wf s -> wf (closeCallback i err s).
Proof.
  intros W. unfold closeCallback. destruct (closeQueue s !! i) as [ct|]; [|done].
  apply wf_close_onclose. destruct err.
  - by apply (wf_frame s).
  - apply wf_set_closed. by apply (wf_frame s).
Qed.
End Handlers.

Section Calls.
Context `{Crypto} `{DatEncoding}.

Lemma replicate_fold m o (l : JsMap) s :
  fold_left (fun s '(_, core) => _replicateCore core m o s) l s
  = set_readyQueue (readyQueue s ++ map (fun e => mkTask (snd e) m o) l) s.
Proof.
  revert s. induction l as [|[k c] l IH]; intros s; simpl.
  - rewrite app_nil_r. by destruct s.
  - rewrite IH. unfold _replicateCore. destruct s; simpl. by rewrite <- app_assoc.
Qed.

(** What a successful [replicate] leaves behind. *)
Lemma replicate_opts_Ok ro s m s' :
  replicate_opts ro s = Ok (m, s') ->
  m = length (streamHeap s) /\
  s' = let fo := spread_opt (opts s) ro in
       let s0 := s in
       let s := set_streamHeap
                  (streamHeap s ++ [mkStream fo (defaultCore s) (anchored s0) false false])
                  s in
       let s := set_readyQueue (readyQueue s ++ map (fun e => mkTask (snd e) m fo) (cores s)) s in
       set_replicationStreams (replicationStreams s ++ [mkStreamState m fo]) s.
Proof.
  unfold replicate_opts.
  match goal with |- context [match ?g with Ok _ => _ | Throw e => Throw e end] =>
    destruct g; [|done] end.
  rewrite replicate_fold. simpl. by intros [= <- <-].
Qed.

Lemma anchored_open s c : c ∈ anchored s -> is_Some (core_key s c).
Proof.
  unfold anchored. destruct (defaultCore s) as [d|]; [|by intros ?%not_elem_of_nil].
  destruct (core_key s d) eqn:E; [|by intros ?%not_elem_of_nil].
  intros ->%list_elem_of_singleton. by rewrite E.
Qed.

Lemma anchored_NoDup s : NoDup (anchored s).
Proof.
  unfold anchored. destruct (defaultCore s) as [d|]; [|apply NoDup_nil_2].
  destruct (core_key s d); [apply NoDup_singleton|apply NoDup_nil_2].
Qed.

Lemma wf_replicate_opts ro s m s' :
  wf s -> replicate_opts ro s = Ok (m, s') -> wf s'.
Proof.
  intros [W1 W2 W3 W4 W5 W6 W7 W8 W9] Hr.
  destruct (replicate_opts_Ok _ _ _ _ Hr) as [-> ->]. clear Hr.
  constructor; simpl.
  - done.
  - intros m st Hm. apply lookup_app_Some in Hm as [Hm|[_ Hm]]; [by apply (W2 m)|].
    apply list_lookup_singleton_Some in Hm as [_ <-]. simpl.
    split; [apply anchored_NoDup|]. apply anchored_open.
  - intros ss Hin. rewrite length_app. simpl.
    apply elem_of_app in Hin as [Hin|Hin].
    + apply W3 in Hin. lia.
    + apply list_elem_of_singleton in Hin. subst. simpl. lia.
  - intros t Hin. rewrite length_app. simpl.
    apply elem_of_app in Hin as [Hin|Hin].
    + apply W4 in Hin. lia.
    + apply list_elem_of_fmap in Hin as (e & -> & _). simpl. lia.
  - intros k c ss Hc Hin. apply elem_of_app in Hin as [Hin|Hin].
    + destruct (W5 k c ss Hc Hin) as [(st & Hst & Hf)|(t & Ht & ? & ?)].
      * left. exists st. split; [|done]. simpl. apply lookup_app_l_Some. done.
      * right. exists t. split; [|done]. simpl. apply elem_of_app; by left.
    + apply list_elem_of_singleton in Hin. subst ss. simpl. right.
      eexists (mkTask c _ _). split; [|done]. simpl.
      apply elem_of_app; right. apply list_elem_of_fmap. by exists (k, c).
  - done.
  - rewrite map_app. apply NoDup_app. split; [done|]. split; [|apply NoDup_singleton].
    intros x Hx Hx'. apply list_elem_of_singleton in Hx'. simpl in Hx'. subst x.
    apply list_elem_of_fmap in Hx as (ss & Hss & Hin). apply W3 in Hin. lia.
  - intros m st Hm Hc. unfold active. simpl. rewrite map_app. simpl.
    apply lookup_app_Some in Hm as [Hm|[_ Hm]].
    + intros Hin. apply elem_of_app in Hin as [Hin|Hin]; [by apply (W8 m st)|].
      apply list_elem_of_singleton in Hin. apply lookup_lt_Some in Hm. lia.
    + apply list_lookup_singleton_Some in Hm as [_ <-]. done.
  - intros m st Hm. apply lookup_app_Some in Hm as [Hm|[_ Hm]]; [by apply (W9 m)|].
    apply list_lookup_singleton_Some in Hm as [_ <-]. done.
Qed.

Lemma wf_replicate a ro s m s' : wf s -> replicate a ro s = Ok (m, s') -> wf s'.
Proof. intros W. unfold replicate. destruct a; by apply wf_replicate_opts. Qed.

Lemma wf_destroyLoop fuel i s : wf s -> wf (destroyLoop fuel i s).
Proof.
  revert i s. induction fuel as [|fuel IH]; intros i s W; simpl; [done|].
  destruct (replicationStreams s !! i) as [ss|]; [|done].
  apply IH. by apply wf_stream_destroy.
Qed.

Lemma wf_closeQueue_fold call (l : JsMap) s :
  wf s ->
  wf (fold_left (fun s '(_, core) =>
                   if core_isClosed s core then s
                   else set_closeQueue (closeQueue s ++ [mkCloseTask core call]) s) l s).
Proof.
  revert s. induction l as [|[k c] l IH]; intros s W; simpl; [done|].
  apply IH. destruct (core_isClosed s c); [done|]. by apply (wf_frame s).
Qed.

Lemma wf_close s : wf s -> wf (snd (close s)).
Proof.
  intros W. unfold close. cbn [snd].
  apply wf_closeQueue_fold, wf_destroyLoop. by apply (wf_frame s).
Qed.

Theorem wf_step l s : wf s -> wf (step l s).
Proof.
  intros W. destruct l; simpl.
  - by apply wf_after_get.
  - destruct (store_default r s) as [[c s']|e] eqn:E; simpl; [|done].
    by eapply wf_default.
  - destruct (replicate _ _ s) as [[m s']|e] eqn:E; simpl; [|done].
    by eapply wf_replicate.
  - by apply wf_close.
  - by apply wf_coreOpened.
  - by apply wf_coreFailed.
  - by apply wf_readyCallback.
  - by apply wf_engineAnchor.
  - by apply wf_remoteFeed.
  - by apply wf_replicate_onclose.
  - by apply wf_stream_destroy.
  - by apply wf_closeCallback.
Qed.

Lemma wf_run ls s : wf s -> wf (run ls s).
Proof.
  revert s. induction ls as [|l ls IH]; intros s W; simpl; [done|].
  apply IH. by apply wf_step.
Qed.

Lemma wf_reachable o s : reachable o s -> wf s.
Proof. intros [ls ->]. apply wf_run, wf_init. Qed.
End Calls.

Lemma evolves_refl co : evolves co co.
Proof. by constructor. Qed.

Lemma evolves_trans a b c : evolves a b -> evolves b c -> evolves a c.
Proof.
  intros [A1 A2 A3 A4 A5] [B1 B2 B3 B4 B5]. constructor; auto; congruence.
Qed.

Lemma heapEvolves_refl h : heapEvolves h h.
Proof. intros c co Hc. eauto using evolves_refl. Qed.

Lemma heapEvolves_trans a b c : heapEvolves a b -> heapEvolves b c -> heapEvolves a c.
Proof.
  intros Hab Hbc i co Hi. destruct (Hab i co Hi) as (co' & Hi' & E1).
  destruct (Hbc i co' Hi') as (co'' & Hi'' & E2). eauto using evolves_trans.
Qed.

Lemma heapEvolves_app h co : heapEvolves h (h ++ [co]).
Proof.
  intros c co' Hc. exists co'. split; [|apply evolves_refl]. by apply lookup_app_l_Some.
Qed.

Lemma heapEvolves_alter h c f :
  (forall co, h !! c = Some co -> evolves co (f co)) -> heapEvolves h (alter f c h).
Proof.
  intros Hf c' co Hc. destruct (decide (c = c')) as [->|Hne].
  - exists (f co). rewrite list_lookup_alter_eq, Hc. split; [done|]. by apply Hf.
  - exists co. rewrite list_lookup_alter_ne by done. split; [done|apply evolves_refl].
Qed.

Lemma evolves_settle co v : c_status co = Pending -> evolves co (set_status v co).
Proof. intros Hp. constructor; simpl; try done; intros; congruence. Qed.

(** ** Cores only move forward; what [close] touches *)

Section CloseFrame.
Context `{Crypto} `{DatEncoding}.

Lemma get_coreHeap r s c s' :
  get r s = Ok (c, s') -> heapEvolves (coreHeap s) (coreHeap s').
Proof.
  unfold get. destruct (_optsToIndex _ _) as [[i rng']|e]; [|done]. simpl.
  destruct (Map_get _ _); intros [= <- <-].
  - rewrite inject_spec. apply heapEvolves_refl.
  - apply heapEvolves_app.
Qed.

Lemma streamsOnly_refl s : streamsOnly s s.
Proof. by constructor. Qed.

Lemma streamsOnly_trans a b c : streamsOnly a b -> streamsOnly b c -> streamsOnly a c.
Proof.
  intros [] []. constructor; try congruence. auto.
Qed.

Lemma replicate_onclose_streamsOnly m s : streamsOnly s (replicate_onclose m s).
Proof.
  unfold replicate_onclose. destruct (streamHeap s !! m) as [st|]; [|apply streamsOnly_refl].
  destruct (onclose_closed st); [apply streamsOnly_refl|].
  constructor; simpl; try done.
  - by rewrite length_alter.
  - intros ss. apply elem_of_splice1.
Qed.

Lemma stream_destroy_streamsOnly m s : streamsOnly s (stream_destroy m s).
Proof.
  unfold stream_destroy. destruct (streamHeap s !! m) as [st|]; [|apply streamsOnly_refl].
  destruct (destroyed st); [apply streamsOnly_refl|].
  eapply streamsOnly_trans; [|apply replicate_onclose_streamsOnly].
  constructor; simpl; try done. by rewrite length_alter.
Qed.

Lemma destroyLoop_streamsOnly fuel i s : streamsOnly s (destroyLoop fuel i s).
Proof.
  revert i s. induction fuel as [|fuel IH]; intros i s; simpl; [apply streamsOnly_refl|].
  destruct (replicationStreams s !! i) as [ss|]; [|apply streamsOnly_refl].
  eapply streamsOnly_trans; [apply stream_destroy_streamsOnly|apply IH].
Qed.

Lemma closeQueue_fold_frame call (l : JsMap) s :
  let s' := fold_left (fun s '(_, core) =>
               if core_isClosed s core then s
               else set_closeQueue (closeQueue s ++ [mkCloseTask core call]) s) l s in
  coreHeap s' = coreHeap s /\ defaultCore s' = defaultCore s /\ cores s' = cores s /\
  closeCalls s' = closeCalls s /\ callbacks s' = callbacks s /\
  streamHeap s' = streamHeap s /\ replicationStreams s' = replicationStreams s /\
  readyQueue s' = readyQueue s /\
  closeQueue s' = closeQueue s ++
    map (fun e => mkCloseTask (snd e) call)
        (List.filter (fun e => negb (core_isClosed s (snd e))) l).
Proof.
  revert s. induction l as [|[k c] l IH]; intros s; simpl.
  - by rewrite app_nil_r.
  - destruct (core_isClosed s c) eqn:E; simpl.
    + apply IH.
    + specialize (IH (set_closeQueue (closeQueue s ++ [mkCloseTask c call]) s)).
      simpl in IH. destruct IH as (?&?&?&?&?&?&?&?&IH). repeat split; try done.
      rewrite IH. simpl. rewrite <- app_assoc. done.
Qed.

(** What [close] does, field by field. *)
Lemma close_frame s :
  let s' := snd (close s) in
  fst (close s) = length (closeCalls s) /\
  coreHeap s' = coreHeap s /\ defaultCore s' = defaultCore s /\ cores s' = cores s /\
  (forall ss, ss ∈ replicationStreams s' -> ss ∈ replicationStreams s) /\
  readyQueue s' = readyQueue s /\
  callbacks s' = callbacks s /\
  closeCalls s' = closeCalls s ++ [Map_size (cores s)] /\
  closeQueue s' = closeQueue s ++
    map (fun e => mkCloseTask (snd e) (length (closeCalls s)))
        (List.filter (fun e => negb (core_isClosed s (snd e))) (cores s)).
Proof.
  unfold close. cbn [fst snd].
  set (s1 := set_closeCalls _ s).
  set (s2 := destroyLoop _ 0 s1).
  pose proof (destroyLoop_streamsOnly (length (replicationStreams s1)) 0 s1) as D.
  fold s2 in D. destruct D as [D0 D1 D2 D3 D4 D5 D6 D7 D8 D9 D10 D11 D12].
  pose proof (closeQueue_fold_frame (length (closeCalls s)) (cores s2) s2) as Q.
  cbv zeta in Q. destruct Q as (Q1&Q2&Q3&Q4&Q5&Q6&Q7&Q8&Q9).
  split; [done|]. split; [by rewrite Q1, D4|]. split; [by rewrite Q2, D2|].
  split; [by rewrite Q3, D1|]. split; [intros ss; rewrite Q7; apply D12|].
  split; [by rewrite Q8, D6|]. split; [by rewrite Q5, D9|].
  split; [by rewrite Q4, D5|].
  rewrite Q9, D7, D1. simpl. f_equal. f_equal.
  apply List.filter_ext. intros e. unfold core_isClosed. by rewrite D4.
Qed.

(** The store after [close], apart from what the loop over the cores
    queued. *)
Lemma close_loop s :
  streamHeap (snd (close s))
    = streamHeap (destroyLoop (length (replicationStreams s)) 0 s) /\
  replicationStreams (snd (close s))
    = replicationStreams (destroyLoop (length (replicationStreams s)) 0 s).
Proof.
  unfold close. cbn [snd].
  set (s1 := set_closeCalls _ s).
  set (s2 := destroyLoop _ 0 s1).
  pose proof (closeQueue_fold_frame (length (closeCalls s)) (cores s2) s2) as Q.
  cbv zeta in Q. destruct Q as (_&_&_&_&_&Q6&Q7&_). rewrite Q6, Q7. unfold s2.
  assert (G : forall fuel i s0 v,
            destroyLoop fuel i (set_closeCalls v s0) = set_closeCalls v (destroyLoop fuel i s0)).
  { induction fuel as [|fuel IH]; intros i s0 v; simpl; [done|].
    destruct (replicationStreams s0 !! i) as [ss|]; [|done]. rewrite <- IH. f_equal.
    unfold stream_destroy, replicate_onclose, updStream. simpl.
    destruct (streamHeap s0 !! stream ss) as [st|]; [|done].
    destruct (destroyed st); [done|]. simpl. rewrite list_lookup_alter_eq.
    destruct (streamHeap s0 !! stream ss) as [st'|]; simpl; [|done].
    by destruct (onclose_closed st'). }
  unfold s1. simpl. by rewrite G.
Qed.
End CloseFrame.

Ltac frame :=
  repeat (rewrite ?inject_spec, ?replicate_fold; simpl; try done; case_match).

Section StepFrames.
Context `{Crypto} `{DatEncoding}.

Lemma get_view r s c s' :
  get r s = Ok (c, s') -> defaultCore s' = defaultCore s /\ closeView s' = closeView s.
Proof.
  unfold get. destruct (_optsToIndex _ _) as [[i rng']|e]; [|done]. simpl.
  destruct (Map_get _ _); intros [= <- <-]; by rewrite ?inject_spec.
Qed.

Lemma after_get_view r s :
  defaultCore (after (get r s) s) = defaultCore s /\
  closeView (after (get r s) s) = closeView s.
Proof.
  destruct (get r s) as [[c s']|e] eqn:E; simpl; [|done]. by eapply get_view.
Qed.

Lemma default_view r s c s' :
  store_default r s = Ok (c, s') ->
  defaultCore s' = Some c /\ closeView s' = closeView s /\
  (forall d, defaultCore s = Some d -> d = c /\ s' = s).
Proof.
  unfold store_default. destruct (defaultCore s) as [d|] eqn:D.
  - intros [= <- <-]. split; [done|]. split; [done|]. by intros ? [= ->].
  - match goal with |- context [get ?r s] => destruct (get r s) as [[c' s'']|e] eqn:E end;
      [|done].
    intros [= <- <-]. simpl. apply get_view in E as [_ E].
    split; [done|]. split; [done|]. by intros ?.
Qed.

Lemma replicate_view a ro s m s' :
  replicate a ro s = Ok (m, s') ->
  defaultCore s' = defaultCore s /\ closeView s' = closeView s.
Proof.
  assert (Hx : forall ro, replicate_opts ro s = Ok (m, s') ->
                 defaultCore s' = defaultCore s /\ closeView s' = closeView s).
  { intros ro' Hr. by destruct (replicate_opts_Ok _ _ _ _ Hr) as [-> ->]. }
  unfold replicate. destruct a; apply Hx.
Qed.

Lemma onready_view c s :
  defaultCore (onready c s) = defaultCore s /\ closeView (onready c s) = closeView s.
Proof. unfold onready. frame. Qed.

Lemma coreOpened_view c k s :
  defaultCore (coreOpened c k s) = defaultCore s /\
  closeView (coreOpened c k s) = closeView s.
Proof.
  unfold coreOpened. repeat case_match; try done.
  by rewrite (proj1 (onready_view _ _)), (proj2 (onready_view _ _)).
Qed.

Lemma coreFailed_view c s :
  defaultCore (coreFailed c s) = defaultCore s /\
  closeView (coreFailed c s) = closeView s.
Proof. unfold coreFailed. by repeat case_match. Qed.

Lemma readyCallback_view i s :
  defaultCore (readyCallback i s) = defaultCore s /\
  closeView (readyCallback i s) = closeView s.
Proof. unfold readyCallback, replicateCore_onready. simpl. by repeat case_match. Qed.

Lemma engineAnchor_view m s :
  defaultCore (engineAnchor m s) = defaultCore s /\
  closeView (engineAnchor m s) = closeView s.
Proof. unfold engineAnchor. by repeat case_match. Qed.

Lemma remoteFeed_view m d s :
  defaultCore (remoteFeed m d s) = defaultCore s /\
  closeView (remoteFeed m d s) = closeView s.
Proof. unfold remoteFeed. case_match; [apply after_get_view|done]. Qed.

Lemma replicate_onclose_view m s :
  defaultCore (replicate_onclose m s) = defaultCore s /\
  closeView (replicate_onclose m s) = closeView s.
Proof. unfold replicate_onclose. by repeat case_match. Qed.

Lemma stream_destroy_view m s :
  defaultCore (stream_destroy m s) = defaultCore s /\
  closeView (stream_destroy m s) = closeView s.
Proof.
  destruct (stream_destroy_streamsOnly m s). unfold closeView. split; congruence.
Qed.

Lemma closeCallback_defaultCore i err s :
  defaultCore (closeCallback i err s) = defaultCore s.
Proof.
  unfold closeCallback, close_onclose, reset. simpl. by repeat case_match.
Qed.

(** Nothing but [default] writes the default slot, and [default] writes
    it only while it is empty. *)
Lemma step_defaultCore l s c :
  defaultCore s = Some c -> defaultCore (step l s) = Some c.
Proof.
  intros D. destruct l; cbn [step].
  - by rewrite (proj1 (after_get_view _ _)).
  - destruct (store_default r s) as [[d s']|e] eqn:E; simpl; [|done].
    apply default_view in E as (_ & _ & E). by destruct (E c D) as [_ ->].
  - destruct (replicate _ _ s) as [[m s']|e] eqn:E; simpl; [|done].
    apply replicate_view in E as [-> _]. done.
  - destruct (close_frame s) as (_&_&->&_). done.
  - by rewrite (proj1 (coreOpened_view _ _ _)).
  - by rewrite (proj1 (coreFailed_view _ _)).
  - by rewrite (proj1 (readyCallback_view _ _)).
  - by rewrite (proj1 (engineAnchor_view _ _)).
  - by rewrite (proj1 (remoteFeed_view _ _ _)).
  - by rewrite (proj1 (replicate_onclose_view _ _)).
  - by rewrite (proj1 (stream_destroy_view _ _)).
  - by rewrite closeCallback_defaultCore.
Qed.

Lemma run_defaultCore ls s c :
  defaultCore s = Some c -> defaultCore (run ls s) = Some c.
Proof.
  revert s. induction ls as [|l ls IH]; intros s D; simpl; [done|].
  apply IH. by apply step_defaultCore.
Qed.

(** *** Cores only move forward *)

Ltac ev := constructor; simpl; auto.

Lemma onready_coreHeap c s : heapEvolves (coreHeap s) (coreHeap (onready c s)).
Proof.
  unfold onready. repeat case_match; try apply heapEvolves_refl.
  rewrite inject_spec. simpl. apply heapEvolves_alter. intros; ev.
Qed.

Lemma updCore_coreHeap c f s :
  (forall co, coreHeap s !! c = Some co -> evolves co (f co)) ->
  heapEvolves (coreHeap s) (coreHeap (updCore c f s)).
Proof. intros Hf. unfold updCore; simpl. by apply heapEvolves_alter. Qed.

Lemma coreOpened_coreHeap c k s :
  heapEvolves (coreHeap s) (coreHeap (coreOpened c k s)).
Proof.
  unfold coreOpened.
  destruct (coreHeap s !! c) as [co|] eqn:Hc; [|apply heapEvolves_refl].
  destruct (c_status co) eqn:Hst; try apply heapEvolves_refl.
  assert (E1 : heapEvolves (coreHeap s)
                 (coreHeap (updCore c (set_status (Ready (openedKey co k))) s))).
  { apply updCore_coreHeap. intros co' Hc'. rewrite Hc in Hc'. inversion Hc'; subst.
    by apply evolves_settle. }
  destruct (c_readyListener co); [|done].
  eapply heapEvolves_trans; [exact E1|].
  eapply heapEvolves_trans; [|apply onready_coreHeap].
  apply updCore_coreHeap. intros; ev.
Qed.

Lemma coreFailed_coreHeap c s :
  heapEvolves (coreHeap s) (coreHeap (coreFailed c s)).
Proof.
  unfold coreFailed.
  destruct (coreHeap s !! c) as [co|] eqn:Hc; [|apply heapEvolves_refl].
  destruct (c_status co) eqn:Hst; try apply heapEvolves_refl.
  assert (E1 : heapEvolves (coreHeap s) (coreHeap (updCore c (set_status Errored) s))).
  { apply updCore_coreHeap. intros co' Hc'. rewrite Hc in Hc'. inversion Hc'; subst.
    by apply evolves_settle. }
  destruct (c_errorListener co); [|done].
  eapply heapEvolves_trans; [exact E1|]. unfold errorListener.
  eapply heapEvolves_trans; apply updCore_coreHeap; intros co' _.
  - ev.
  - destruct (truthy_key _); [ev|apply evolves_refl].
Qed.

Lemma closeCallback_coreHeap i err s :
  heapEvolves (coreHeap s) (coreHeap (closeCallback i err s)).
Proof.
  unfold closeCallback. destruct (closeQueue s !! i) as [ct|]; [|apply heapEvolves_refl].
  assert (Hx : forall s', coreHeap (close_onclose (ct_call ct) err s') = coreHeap s').
  { intros s'. unfold close_onclose, reset. simpl. by repeat case_match. }
  rewrite Hx. destruct err; simpl; [apply heapEvolves_refl|].
  apply heapEvolves_alter. intros; ev.
Qed.

Lemma after_get_coreHeap r s :
  heapEvolves (coreHeap s) (coreHeap (after (get r s) s)).
Proof.
  destruct (get r s) as [[c s']|e] eqn:E; simpl; [|apply heapEvolves_refl].
  by eapply get_coreHeap.
Qed.

Lemma step_coreHeap l s : heapEvolves (coreHeap s) (coreHeap (step l s)).
Proof.
  destruct l; cbn [step].
  - apply after_get_coreHeap.
  - unfold store_default. destruct (defaultCore s); simpl; [apply heapEvolves_refl|].
    match goal with |- context [get ?r s] => destruct (get r s) as [[c' s'']|e] eqn:E end;
      simpl; [|apply heapEvolves_refl].
    by eapply get_coreHeap.
  - destruct (replicate _ _ s) as [[m s']|e] eqn:E; simpl; [|apply heapEvolves_refl].
    assert (coreHeap s' = coreHeap s) as ->; [|apply heapEvolves_refl].
    unfold replicate in E.
    destruct discoveryKey; by destruct (replicate_opts_Ok _ _ _ _ E) as [-> ->].
  - destruct (close_frame s) as (_&->&_). apply heapEvolves_refl.
  - apply coreOpened_coreHeap.
  - apply coreFailed_coreHeap.
  - unfold readyCallback, replicateCore_onready. simpl.
    repeat case_match; apply heapEvolves_refl.
  - unfold engineAnchor. repeat case_match; apply heapEvolves_refl.
  - unfold remoteFeed. case_match; [apply after_get_coreHeap|apply heapEvolves_refl].
  - unfold replicate_onclose. repeat case_match; apply heapEvolves_refl.
  - rewrite (so_coreHeap _ _ (stream_destroy_streamsOnly m s)). apply heapEvolves_refl.
  - apply closeCallback_coreHeap.
Qed.

Lemma run_coreHeap ls s : heapEvolves (coreHeap s) (coreHeap (run ls s)).
Proof.
  revert s. induction ls as [|l ls IH]; intros s; simpl; [apply heapEvolves_refl|].
  eapply heapEvolves_trans; [apply step_coreHeap|apply IH].
Qed.
End StepFrames.

(** ** The key indexer *)

Section IndexerRules.
Context `{Crypto} `{DatEncoding}.

Lemma keyless_true o :
  keyless o ->
  negb (truthy_key (opt_key o)) && negb (truthy_obj (opt_secretKey o)) = true.
Proof. intros [-> ->]. done. Qed.

Lemma keyless_false o :
  ~ keyless o ->
  negb (truthy_key (opt_key o)) && negb (truthy_obj (opt_secretKey o)) = false.
Proof.
  unfold keyless. intros Hn. destruct (truthy_key (opt_key o)); [done|].
  destruct (opt_secretKey o); [done|]. by destruct Hn.
Qed.

Lemma optsToIndex_default o rng :
  opt_default o = true -> keyless o ->
  _optsToIndex o rng = Ok (mkIndex (IStr "default") None None, rng).
Proof.
  intros Hd Hk. unfold _optsToIndex. cbv zeta. rewrite Hd, (keyless_true _ Hk).
  simpl. destruct Hk as [Hk _]. unfold key_or. by rewrite Hk.
Qed.

Lemma optsToIndex_name o rng n :
  ~ (opt_default o = true /\ keyless o) -> opt_name o = Some n ->
  truthy_string n = true -> keyless o ->
  _optsToIndex o rng = Ok (mkIndex (IStr n) None None, rng).
Proof.
  intros Hn1 Hn Ht Hk. unfold _optsToIndex. cbv zeta.
  rewrite (keyless_true _ Hk), Hn, Ht.
  destruct (opt_default o); [by destruct Hn1|]. simpl.
  destruct Hk as [Hk _]. unfold key_or. by rewrite Hk.
Qed.

Lemma optsToIndex_keyed o rng :
  ~ (opt_default o = true /\ keyless o) ->
  ~ (truthy_name (opt_name o) = true /\ keyless o) ->
  _optsToIndex o rng = keyedIndex o rng.
Proof.
  intros Hn1 Hn2. unfold _optsToIndex. cbv zeta.
  destruct (negb (truthy_key (opt_key o)) && negb (truthy_obj (opt_secretKey o))) eqn:E.
  - assert (Hk : keyless o).
    { unfold keyless. destruct (truthy_key (opt_key o)); [done|].
      by destruct (opt_secretKey o). }
    destruct (opt_default o); [by destruct Hn1|]. simpl.
    destruct (opt_name o) as [n|]; [|done]. simpl in Hn2.
    destruct (truthy_string n); [by destruct Hn2|done].
  - rewrite andb_false_r. destruct (opt_name o) as [n|]; [|done].
    by rewrite andb_false_r.
Qed.

(** Claim C6.  The key indexer resolves a request by the first rule that
    matches: (1) the default flag without key and secret key gives the
    reserved marker ["default"]; (2) otherwise a name without key and
    secret key gives the name itself; (3) a supplied key is decoded if it
    is text and the index is the discovery key derived from it, never the
    key; (4) otherwise a supplied discovery key is decoded and used as it
    is; (5) otherwise the index is the discovery key of the public key of
    the caller's key pair, or of a new one.  Decoding malformed text
    throws. *)
Theorem optsToIndex_first_match (coreOpts : CoreOpts) (rng : nat) :
  let rule1 := opt_default coreOpts = true /\ keyless coreOpts in
  let rule2 := truthy_name (opt_name coreOpts) = true /\ keyless coreOpts in
  (rule1 -> indexKey coreOpts rng = Ok (IStr "default")) /\
  (forall n, ~ rule1 -> opt_name coreOpts = Some n -> rule2 ->
     indexKey coreOpts rng = Ok (IStr n)) /\
  (forall k, opt_key coreOpts = Some k -> truthy_arg k = true ->
     indexKey coreOpts rng =
     match toBuffer k with
     | Ok b => Ok (IBuf (crypto_discoveryKey b))
     | Throw e => Throw e
     end) /\
  (forall d, ~ rule1 -> ~ rule2 -> truthy_key (opt_key coreOpts) = false ->
     opt_discoveryKey coreOpts = Some d -> truthy_arg d = true ->
     indexKey coreOpts rng =
     match toBuffer d with Ok b => Ok (IBuf b) | Throw e => Throw e end) /\
  (~ rule1 -> ~ rule2 -> truthy_key (opt_key coreOpts) = false ->
     truthy_key (opt_discoveryKey coreOpts) = false ->
     indexKey coreOpts rng =
     Ok (IBuf (crypto_discoveryKey (publicKey (keyPairFor coreOpts rng))))).
Proof.
  cbv zeta. split; [|split; [|split; [|split]]].
  - intros [Hd Hk]. unfold indexKey. by rewrite (optsToIndex_default _ _ Hd Hk).
  - intros n Hn1 Hn [Ht Hk]. unfold indexKey. rewrite Hn in Ht. simpl in Ht.
    by rewrite (optsToIndex_name _ _ n Hn1 Hn Ht Hk).
  - intros k Hk Ht. unfold indexKey. rewrite optsToIndex_keyed.
    + unfold keyedIndex, key_or. rewrite Hk. simpl. rewrite Ht. simpl. rewrite Ht.
      by destruct (toBuffer k).
    + intros [_ [Hk' _]]. rewrite Hk in Hk'. simpl in Hk'. congruence.
    + intros [_ [Hk' _]]. rewrite Hk in Hk'. simpl in Hk'. congruence.
  - intros d Hn1 Hn2 Hk Hd Ht. unfold indexKey. rewrite optsToIndex_keyed by done.
    unfold keyedIndex, key_or. rewrite Hk, Hd, Ht. simpl. by destruct (toBuffer d).
  - intros Hn1 Hn2 Hk Hd. unfold indexKey. rewrite optsToIndex_keyed by done.
    assert (keyedIndex coreOpts rng = freshIndex coreOpts rng) as ->.
    { unfold keyedIndex, key_or. rewrite Hk.
      destruct (opt_discoveryKey coreOpts) as [d|]; [|done]. simpl in Hd. by rewrite Hd. }
    unfold freshIndex, keyPairFor. by destruct (opt_keyPair coreOpts).
Qed.
End IndexerRules.

(** ** The default slot, [replicate] and [getInfo] *)

Section DefaultSlot.
Context `{Crypto} `{DatEncoding}.

Lemma store_default_set r s c : defaultCore s = Some c -> store_default r s = Ok (c, s).
Proof. intros D. unfold store_default. by rewrite D. Qed.

(** Claim C7.  [default] is idempotent.  With a default core set it
    returns that core and changes nothing, whatever the request.  With
    none set it hands the request to [get], with the default flag added
    exactly when the request has neither a key pair nor a key, and stores
    the handle [get] returned; from then on every call returns that
    handle. *)
Theorem default_idempotent (r : Request) (s : Store) :
  (forall c, defaultCore s = Some c -> store_default r s = Ok (c, s)) /\
  (defaultCore s = None -> opt_keyPair (requestOpts r) = None ->
   truthy_key (opt_key (requestOpts r)) = false ->
   store_default r s = remembered (get (ReqOpts (withDefaultFlag (requestOpts r))) s)) /\
  (defaultCore s = None ->
   is_Some (opt_keyPair (requestOpts r)) \/ truthy_key (opt_key (requestOpts r)) = true ->
   store_default r s = remembered (get r s)) /\
  (forall c s', store_default r s = Ok (c, s') ->
     defaultCore s' = Some c /\ forall r', store_default r' s' = Ok (c, s')).
Proof.
  split; [|split; [|split]].
  - intros c. apply store_default_set.
  - intros D Hp Hk. unfold store_default. rewrite D, Hp, Hk. simpl.
    unfold withDefaultFlag. rewrite Hp. by destruct (get _ s) as [[? ?]|].
  - intros D Hor. unfold store_default. rewrite D.
    assert (negb (truthy_obj (opt_keyPair (requestOpts r)))
            && negb (truthy_key (opt_key (requestOpts r))) = false) as ->.
    { destruct Hor as [[kp ->]| ->]; [done|]. by rewrite andb_false_r. }
    change (get (ReqOpts (requestOpts r)) s) with (get r s).
    by destruct (get r s) as [[? ?]|].
  - intros c s' Hd. apply default_view in Hd as (D & _ & _). split; [done|].
    intros r'. by apply store_default_set.
Qed.

(** Claim C10.  [close] leaves the default slot alone: once a default
    core is set, after [close] and whatever follows it (the answers of
    the cores, [reset], later calls) [isDefaultSet] is true and [default]
    returns the old handle without creating a core. *)
Theorem close_keeps_default (s : Store) (c : nat) (ls : list Label) (r : Request) :
  defaultCore s = Some c ->
  let s' := run ls (step CallClose s) in
  (forall call err, defaultCore (reset call err s) = Some c) /\
  isDefaultSet s' = true /\
  store_default r s' = Ok (c, s').
Proof.
  intros D s'.
  assert (D' : defaultCore s' = Some c) by (by apply run_defaultCore, step_defaultCore).
  split; [done|]. split.
  - unfold isDefaultSet. by rewrite D'.
  - by apply store_default_set.
Qed.

(** Claim C4.  [replicate] with [encrypt] set throws the configuration
    error while no default core exists.  Once [default] has returned, the
    same call succeeds in every later state: it returns a new stream,
    made by the default core's [replicate] with [encrypt] set, neither
    destroyed nor closed, and appends it to the session list. *)
Theorem encrypt_needs_default (s : Store) (a : ReplicateArg) (ro : option Opts) (o : Opts) :
  givenOpts a ro = Some o -> truthy_flag (encrypt o) = true ->
  (defaultCore s = None -> replicate a ro s = Throw ConfigurationError) /\
  (forall r c s1 ls, store_default r s = Ok (c, s1) ->
     let s' := run ls s1 in
     exists s2 st,
       replicate a ro s' = Ok (length (streamHeap s'), s2) /\
       streamHeap s2 = streamHeap s' ++ [st] /\
       s_anchor st = Some c /\ truthy_flag (encrypt (s_opts st)) = true /\
       destroyed st = false /\ onclose_closed st = false /\
       map stream (replicationStreams s2)
         = map stream (replicationStreams s') ++ [length (streamHeap s')]).
Proof.
  intros Hg He.
  assert (Hr : forall s', replicate a ro s' = replicate_opts (Some o) s').
  { intros s'. unfold replicate. destruct a; simpl in Hg; by rewrite ?Hg; simplify_eq. }
  split.
  - intros D. rewrite Hr. unfold replicate_opts. by rewrite D, He.
  - intros r c s1 ls Hd. cbv zeta. apply default_view in Hd as (D & _ & _).
    apply (run_defaultCore ls) in D.
    rewrite Hr. unfold replicate_opts. rewrite D. rewrite replicate_fold.
    eexists _, _. split; [done|]. simpl. split; [done|]. simpl.
    split; [done|]. split.
    { destruct (encrypt o) as [[|]|]; done. }
    split; [done|]. split; [done|]. by rewrite map_app.
Qed.

Lemma getInfo_no_default s : defaultCore s = None -> getInfo s = Throw TypeError.
Proof. intros D. unfold getInfo. by rewrite D. Qed.

(** Claim C9 fails on the code: on a store without a default core
    [getInfo] reads [this.defaultCore.id] of [null] and throws, although
    the two fields before it are guarded. *)
Theorem getInfo_throws_on_new_store (o : Opts) : getInfo (init o) = Throw TypeError.
Proof. by apply getInfo_no_default. Qed.
End DefaultSlot.

(** ** Discovery-only lookups of logs that are absent *)

Section AbsentLogs.
Context `{Crypto} `{DatEncoding}.

Lemma core_key_status s c k :
  core_key s c = Some k <-> core_status s c = Some (Ready k).
Proof.
  unfold core_key, core_status. destruct (coreHeap s !! c) as [co|]; simpl; [|done].
  destruct (c_status co); split; intros; simplify_eq; done.
Qed.

Lemma attachCount_zero s c m :
  (forall st, streamHeap s !! m = Some st -> c ∉ feeds st) -> attachCount c m s = 0.
Proof.
  intros Hn. unfold attachCount. destruct (streamHeap s !! m) as [st|]; [|done].
  apply count_occ_not_In. rewrite <- list_elem_of_In. by apply Hn.
Qed.

(** A core that failed to open is in no registry entry and on no stream. *)
Lemma errored_isolated s c :
  wf s -> core_status s c = Some Errored ->
  (forall k, (k, c) ∉ cores s) /\ (forall m, attachCount c m s = 0).
Proof.
  intros W He. split.
  - intros k Hin. destruct (wf_registered _ W k c Hin) as (pk & Hpk & _).
    apply core_key_status in Hpk. congruence.
  - intros m. apply attachCount_zero. intros st Hst Hin.
    destruct (wf_feeds _ W m st Hst) as [_ Hall].
    destruct (Hall c Hin) as [pk Hpk]. apply core_key_status in Hpk. congruence.
Qed.

Lemma coreFailed_pending s c co :
  coreHeap s !! c = Some co -> c_status co = Pending -> c_errorListener co = true ->
  exists co', coreHeap (coreFailed c s) !! c = Some co' /\
              c_status co' = Errored /\
              c_errored co' = (truthy_key (opt_discoveryKey (c_coreOpts co)) || c_errored co).
Proof.
  intros Hc Hp Hl. unfold coreFailed. rewrite Hc, Hp, Hl. unfold errorListener.
  rewrite !coreHeap_updCore, !decide_True by done. rewrite Hc. simpl.
  eexists; split; [done|]. by destruct (truthy_key _).
Qed.

Lemma optsToIndex_discoveryOnly X b rng :
  truthy_arg X = true -> toBuffer X = Ok b ->
  _optsToIndex (requestOpts (discoveryOnly X)) rng = Ok (mkIndex (IBuf b) None None, rng).
Proof.
  intros Ht Hb. unfold _optsToIndex, keyedIndex, key_or. simpl. by rewrite Ht, Hb.
Qed.

(** Claim C5.  [get({ discoveryKey: X })] with a well-formed [X] (a Buffer
    of 32 bytes, or non-empty text that decodes to one) does not throw.
    When nothing is registered under [X] the handle is new,
    pending, and opened with [createIfMissing: false].  If the engine
    then reports that the log cannot be opened, the handle is errored
    from then on, is in no registry entry (so not in [list()]) and is on
    no stream, whatever happens later. *)
Theorem discovery_only_absent (o : Opts) (s : Store) (X : KeyArg) (b : Buffer) :
  reachable o s -> truthy_arg X = true -> toBuffer X = Ok b -> wellFormedKey b ->
  exists c s1,
    get (discoveryOnly X) s = Ok (c, s1) /\
    (Map_get (encode b) (cores s) = None ->
       core_status s1 c = Some Pending /\
       c_createIfMissing <$> coreHeap s1 !! c = Some false) /\
    forall ls1 ls2,
      core_status (run ls1 s1) c = Some Pending ->
      let s2 := run ls2 (step (CoreFailed c) (run ls1 s1)) in
      core_status s2 c = Some Errored /\
      c_errored <$> coreHeap s2 !! c = Some true /\
      (forall k, (k, c) ∉ list_ s2) /\
      (forall m, attachCount c m s2 = 0).
Proof.
  intros Hr Ht Hb _. pose proof (wf_reachable _ _ Hr) as W.
  destruct (get (discoveryOnly X) s) as [[c s1]|e] eqn:G.
  2:{ unfold get in G. rewrite (optsToIndex_discoveryOnly _ b) in G by done.
      simpl in G. by destruct (Map_get _ _). }
  exists c, s1. split; [done|].
  pose proof (wf_get _ _ _ _ W G) as W1.
  unfold get in G. rewrite (optsToIndex_discoveryOnly _ b) in G by done. simpl in G.
  destruct (Map_get (encode b) (cores s)) as [ex|] eqn:M.
  - (* an open core is registered under X: it can never be pending again *)
    injection G as <- <-. split; [done|]. intros ls1 ls2 Hp. exfalso.
    apply Map_get_elem in M. destruct (wf_registered _ W _ _ M) as (pk & Hpk & _).
    apply core_key_status in Hpk. unfold core_status in Hpk.
    destruct (coreHeap s !! ex) as [co|] eqn:Hc; [|done]. simpl in Hpk.
    destruct (run_coreHeap ls1 (injectIntoReplicationStreams ex (set_rng (rng s) s)) ex co)
      as (co' & Hc' & Ev).
    { by rewrite inject_spec. }
    unfold core_status in Hp. rewrite Hc' in Hp. simpl in Hp.
    injection Hpk as Hpk. rewrite (ev_ready _ _ Ev _ Hpk) in Hp. done.
  - injection G as <- <-.
    assert (Hc : coreHeap (set_coreHeap (coreHeap (set_rng (rng s) s) ++
                   [newCore (encode b) (mkIndex (IBuf b) None None)
                            (requestOpts (discoveryOnly X))]) (set_rng (rng s) s))
                 !! length (coreHeap s)
                 = Some (newCore (encode b) (mkIndex (IBuf b) None None)
                            (requestOpts (discoveryOnly X)))).
    { simpl. by rewrite lookup_app_r, Nat.sub_diag. }
    split.
    { intros _. unfold core_status. simpl in *. rewrite Hc. simpl. by rewrite Ht. }
    intros ls1 ls2 Hp s2.
    set (s1 := set_coreHeap _ _) in *.
    destruct (run_coreHeap ls1 s1 _ _ Hc) as (co1 & Hc1 & Ev1).
    unfold core_status in Hp. rewrite Hc1 in Hp. simpl in Hp. injection Hp as Hp.
    pose proof (wf_run ls1 _ W1) as W2.
    destruct (wf_pending _ W2 _ _ Hc1 Hp) as (_ & He1 & Hl1).
    destruct (coreFailed_pending _ _ _ Hc1 Hp Hl1) as (co2 & Hc2 & Hs2 & He2).
    rewrite (ev_opts _ _ Ev1) in He2. simpl in He2. rewrite Ht in He2. simpl in He2.
    destruct (run_coreHeap ls2 (step (CoreFailed (length (coreHeap s))) (run ls1 s1)) _ _ Hc2)
      as (co3 & Hc3 & Ev3).
    fold s2 in Hc3.
    assert (Hst : core_status s2 (length (coreHeap s)) = Some Errored).
    { unfold core_status. rewrite Hc3. simpl. by rewrite (ev_errored_status _ _ Ev3 Hs2). }
    split; [done|]. split.
    { rewrite Hc3. simpl. by rewrite (ev_errored _ _ Ev3 He2). }
    apply errored_isolated; [|done].
    apply wf_run, wf_step. done.
Qed.
End AbsentLogs.

(** ** One handle per registered index, one attachment per pair *)

Section RegistryAndAttachment.
Context `{Crypto} `{DatEncoding}.

Lemma attachCount_le_1 s c m : wf s -> attachCount c m s <= 1.
Proof.
  intros W. unfold attachCount. destruct (streamHeap s !! m) as [st|] eqn:Hm; [|lia].
  destruct (wf_feeds _ W m st Hm) as [Hnd _].
  apply NoDup_ListNoDup in Hnd. by apply (proj1 (List.NoDup_count_occ Nat.eq_dec _) Hnd).
Qed.

Lemma attachCount_attached s c m : wf s -> attached c m s -> attachCount c m s = 1.
Proof.
  intros W (st & Hm & Hin). pose proof (attachCount_le_1 s c m W) as Hle.
  unfold attachCount in *. rewrite Hm in *.
  apply list_elem_of_In, (count_occ_In Nat.eq_dec) in Hin. lia.
Qed.

Lemma attachCount_pos s c m : 0 < attachCount c m s -> attached c m s.
Proof.
  unfold attachCount, attached. destruct (streamHeap s !! m) as [st|]; [|lia].
  intros Hp. exists st. split; [done|].
  apply list_elem_of_In, (count_occ_In Nat.eq_dec). lia.
Qed.

(** A stream in the session list was not destroyed. *)
Lemma active_not_destroyed s m :
  wf s -> active m s -> destroyed <$> streamHeap s !! m = Some false.
Proof.
  intros W Ha.
  assert (is_Some (streamHeap s !! m)) as [st Hm].
  { unfold active in Ha. apply list_elem_of_fmap in Ha as (ss & -> & Hin).
    apply lookup_lt_is_Some. by apply (wf_active _ W). }
  rewrite Hm. simpl. destruct (destroyed st) eqn:Hd; [|done].
  destruct (wf_destroyed _ W _ _ Hm Hd) as [Hc _].
  by destruct (wf_closed _ W _ _ Hm Hc).
Qed.

(** What running a queued callback of an open core does. *)
Lemma readyCallback_attach s i t st pk :
  wf s -> readyQueue s !! i = Some t -> core_key s (t_core t) = Some pk ->
  streamHeap s !! t_stream t = Some st ->
  attachCount (t_core t) (t_stream t) (readyCallback i s)
    = (if destroyed st then 0 else 1) /\
  length (readyQueue (readyCallback i s)) < length (readyQueue s).
Proof.
  intros W Hi Hpk Hm. pose proof (wf_readyCallback s i W) as W'.
  apply core_key_status in Hpk. unfold core_status in Hpk.
  assert (Hlen : length (delete i (readyQueue s)) < length (readyQueue s)).
  { rewrite length_delete by eauto. apply lookup_lt_Some in Hi. lia. }
  revert W'. unfold readyCallback, replicateCore_onready. rewrite Hi, Hpk. simpl.
  rewrite Hm. destruct (destroyed st) eqn:Hd.
  - destruct (wf_destroyed _ W _ _ Hm Hd) as [_ Hf]. rewrite Hf. simpl. intros _.
    split; [|done]. unfold attachCount. rewrite core_replicate_lookup, decide_True by done.
    simpl. rewrite Hm. simpl. by rewrite Hd, Hf.
  - destruct (existsb (Nat.eqb (t_core t)) (feeds st)) eqn:Hex; intros W'.
    + split; [|done]. apply attachCount_attached; [done|].
      exists st. split; [done|]. by apply existsb_eqb_elem.
    + split; [|done]. apply attachCount_attached; [done|].
      by apply (attached_core_replicate (set_readyQueue (delete i (readyQueue s)) s) _ _ st).
Qed.

(** What the ['ready'] notification does to a pending core. *)
Lemma coreOpened_pending s c co k :
  wf s -> coreHeap s !! c = Some co -> c_status co = Pending ->
  let s' := coreOpened c k s in
  let pk := openedKey co k in
  core_key s' c = Some pk /\
  cores s' = Map_set (encode (crypto_discoveryKey pk)) c (Map_set (encode pk) c (cores s)) /\
  readyQueue s' = readyQueue s ++ map (fun ss => mkTask c (stream ss) (ss_opts ss))
                                      (replicationStreams s) /\
  replicationStreams s' = replicationStreams s /\ streamHeap s' = streamHeap s /\
  feedEvents s' = feedEvents s ++ [(c, c_coreOpts co)].
Proof.
  intros W Hc Hp. destruct (wf_pending _ W _ _ Hc Hp) as (Hr & He & _).
  cbv zeta. unfold coreOpened. rewrite Hc, Hp, Hr. unfold onready.
  rewrite !coreHeap_updCore, !decide_True by done. rewrite Hc. simpl.
  rewrite He. rewrite inject_spec. simpl. repeat split; try done.
  unfold core_key. simpl. rewrite !list_lookup_alter_eq, Hc. done.
Qed.

Lemma get_registered r s i rng' c :
  _optsToIndex (requestOpts r) (rng s) = Ok (i, rng') ->
  Map_get (idxString (idx i)) (cores s) = Some c ->
  get r s = Ok (c, injectIntoReplicationStreams c (set_rng rng' s)).
Proof. intros Hi Hm. unfold get. rewrite Hi. simpl. by rewrite Hm. Qed.

(** Claim C1, as amended.  In every reachable state: each registry entry
    maps the text of the public key or of the discovery key of an open
    core to that core; a [get] whose index string is registered returns
    the registered handle and creates nothing; and when a pending core
    opens, it is registered under both strings, so that [get] by its
    public key and [get] by its discovery key both return it. *)
Theorem registry_dual_index (o : Opts) (s : Store) :
  reachable o s ->
  (forall k c, (k, c) ∈ cores s ->
     exists pk, core_key s c = Some pk /\
                (k = encode pk \/ k = encode (crypto_discoveryKey pk))) /\
  (forall r i rng' c,
     _optsToIndex (requestOpts r) (rng s) = Ok (i, rng') ->
     Map_get (idxString (idx i)) (cores s) = Some c ->
     exists s', get r s = Ok (c, s') /\ coreHeap s' = coreHeap s /\ cores s' = cores s) /\
  (forall c co k,
     coreHeap s !! c = Some co -> c_status co = Pending ->
     let s' := step (CoreOpened c k) s in
     let pk := openedKey co k in
     core_key s' c = Some pk /\
     Map_get (encode pk) (cores s') = Some c /\
     Map_get (encode (crypto_discoveryKey pk)) (cores s') = Some c /\
     (exists s'', get (ReqBuffer pk) s' = Ok (c, s'')) /\
     (exists s'', get (discoveryOnly (KBuf (crypto_discoveryKey pk))) s' = Ok (c, s''))).
Proof.
  intros Hr. pose proof (wf_reachable _ _ Hr) as W. split; [|split].
  - apply (wf_registered _ W).
  - intros r i rng' c Hi Hm.
    exists (injectIntoReplicationStreams c (set_rng rng' s)).
    split; [by apply (get_registered r s i rng')|]. by rewrite inject_spec.
  - intros c co k Hc Hp. cbv zeta. cbn [step].
    destruct (coreOpened_pending s c co k W Hc Hp) as (Hk & Hcs & _).
    set (pk := openedKey co k) in *. set (s' := coreOpened c k s) in *.
    assert (M2 : Map_get (encode (crypto_discoveryKey pk)) (cores s') = Some c).
    { rewrite Hcs. apply Map_get_set_eq. }
    assert (M1 : Map_get (encode pk) (cores s') = Some c).
    { rewrite Hcs. destruct (decide (encode (crypto_discoveryKey pk) = encode pk)) as [->|Hne].
      - apply Map_get_set_eq.
      - rewrite Map_get_set_ne by done. apply Map_get_set_eq. }
    repeat split; try done.
    + eexists. by apply (get_registered _ _ (mkIndex (IBuf (crypto_discoveryKey pk))
                                               (Some (KBuf pk)) None) (rng s')).
    + eexists. apply (get_registered _ _ (mkIndex (IBuf (crypto_discoveryKey pk)) None None)
                                     (rng s')); [|done].
      by apply optsToIndex_discoveryOnly.
Qed.

(** Claim C2, as amended.  In every reachable state no core is on a
    stream more than once; a registered core is on every active session
    exactly once as soon as no callback for the pair is queued, and an
    active session is never a destroyed stream; running a queued callback
    of a registered core shortens the queue and leaves the pair attached
    exactly once if the stream was not destroyed, and not attached if it
    was; and the callback is a no-op for a pair that is attached. *)
Theorem attach_exactly_once (o : Opts) (s : Store) :
  reachable o s ->
  (forall c m, attachCount c m s <= 1) /\
  (forall k c ss, (k, c) ∈ cores s -> ss ∈ replicationStreams s ->
     destroyed <$> streamHeap s !! stream ss = Some false /\
     (~ queued c (stream ss) s -> attachCount c (stream ss) s = 1)) /\
  (forall i t st, readyQueue s !! i = Some t -> (exists k, (k, t_core t) ∈ cores s) ->
     streamHeap s !! t_stream t = Some st ->
     let s' := step (ReadyCallback i) s in
     attachCount (t_core t) (t_stream t) s' = (if destroyed st then 0 else 1) /\
     length (readyQueue s') < length (readyQueue s)) /\
  (forall t, attachCount (t_core t) (t_stream t) s = 1 ->
     replicateCore_onready t false s = s).
Proof.
  intros Hr. pose proof (wf_reachable _ _ Hr) as W. split; [|split; [|split]].
  - intros c m. by apply attachCount_le_1.
  - intros k c ss Hc Hs. split.
    + apply (active_not_destroyed s (stream ss) W). unfold active.
      apply list_elem_of_fmap. eauto.
    + intros Hq. apply attachCount_attached; [done|].
      by destruct (wf_wired _ W k c ss Hc Hs).
  - intros i t st Hi [k Hk] Hm. cbv zeta. cbn [step].
    destruct (wf_registered _ W k _ Hk) as (pk & Hpk & _).
    by apply (readyCallback_attach s i t st pk).
  - intros t Hone. assert (Hat : attached (t_core t) (t_stream t) s).
    { apply attachCount_pos. lia. }
    destruct Hat as (st & Hm & Hin). unfold replicateCore_onready. rewrite Hm.
    apply existsb_eqb_elem in Hin. by rewrite Hin.
Qed.
End RegistryAndAttachment.

(** ** [close] and its callback *)

Section CloseCallbacks.
Context `{Crypto} `{DatEncoding}.

Lemma closeCallback_view i err s ct :
  closeQueue s !! i = Some ct ->
  let s' := closeCallback i err s in
  length (closeCalls s') = length (closeCalls s) /\
  closeQueue s' = delete i (closeQueue s) /\
  (callbacks s' = callbacks s \/ exists e, callbacks s' = callbacks s ++ [(ct_call ct, e)]).
Proof.
  intros Hi. cbv zeta. unfold closeCallback. rewrite Hi.
  unfold close_onclose, reset. destruct err as [e|]; simpl.
  - repeat split; eauto.
  - case_match; simpl; rewrite ?length_alter; [|by auto].
    case_match; simpl; rewrite ?length_alter; eauto.
Qed.

Lemma closeView_eq s s' :
  closeView s' = closeView s ->
  closeCalls s' = closeCalls s /\ closeQueue s' = closeQueue s /\
  callbacks s' = callbacks s.
Proof. unfold closeView. by intros [= -> -> ->]. Qed.

(** The steps that leave [closeView] alone. *)
Lemma step_closeView l s :
  l <> CallClose -> (forall i err, l <> CloseCallback i err) ->
  closeView (step l s) = closeView s.
Proof.
  intros H1 H2. destruct l; cbn [step]; try done.
  - apply after_get_view.
  - destruct (store_default r s) as [[c s']|e] eqn:E; simpl; [|done].
    by apply default_view in E as (_ & -> & _).
  - destruct (replicate _ _ s) as [[m s']|e] eqn:E; simpl; [|done].
    by apply replicate_view in E as [_ ->].
  - apply coreOpened_view.
  - apply coreFailed_view.
  - apply readyCallback_view.
  - apply engineAnchor_view.
  - apply remoteFeed_view.
  - apply replicate_onclose_view.
  - apply stream_destroy_view.
  - by destruct (H2 i err).
Qed.

Lemma step_silent n l s : silent n s -> silent n (step l s).
Proof.
  intros (Hn & Hq & Hc).
  destruct l; try (unfold silent;
    match goal with |- context [step ?l s] =>
      pose proof (step_closeView l s ltac:(done) ltac:(done)) as V end;
    destruct (closeView_eq _ _ V) as (-> & -> & ->); done).
  { cbn [step]. destruct (close_frame s) as (_&_&_&_&_&_&Cb&Cc&Cq). unfold silent.
    rewrite Cb, Cc, Cq, length_app. simpl. split; [lia|]. split; [|done].
    intros ct Hin. apply elem_of_app in Hin as [?|Hin]; [by auto|].
    apply list_elem_of_fmap in Hin as (e & -> & _). simpl. lia. }
  cbn [step]. destruct (closeQueue s !! i) as [ct|] eqn:Hi.
  - destruct (closeCallback_view i err s ct Hi) as (Cc & Cq & Cb). unfold silent.
    rewrite Cc, Cq. split; [done|]. split.
    + intros ct' Hin. apply Hq. by eapply list_elem_of_delete_inv.
    + intros e Hin. destruct Cb as [Cb|[e' Cb]]; rewrite Cb in Hin; [by eapply Hc|].
      apply elem_of_app in Hin as [?|Hin]; [by eapply Hc|].
      apply list_elem_of_singleton in Hin. injection Hin as Hin _.
      apply (Hq ct); [|done]. by eapply list_elem_of_lookup_2.
  - unfold closeCallback. by rewrite Hi.
Qed.

Lemma run_silent n ls s : silent n s -> silent n (run ls s).
Proof.
  revert s. induction ls as [|l ls IH]; intros s Hs; simpl; [done|].
  apply IH. by apply step_silent.
Qed.

Lemma step_closeIds l s : closeIds s -> closeIds (step l s).
Proof.
  intros (Hq & Hc).
  destruct l; try (unfold closeIds;
    match goal with |- context [step ?l s] =>
      pose proof (step_closeView l s ltac:(done) ltac:(done)) as V end;
    destruct (closeView_eq _ _ V) as (-> & -> & ->); done).
  { cbn [step]. destruct (close_frame s) as (_&_&_&_&_&_&Cb&Cc&Cq). unfold closeIds.
    rewrite Cb, Cc, Cq, length_app. simpl. split.
    - intros ct Hin. apply elem_of_app in Hin as [Hin|Hin]; [apply Hq in Hin; lia|].
      apply list_elem_of_fmap in Hin as (e & -> & _). simpl. lia.
    - intros n e Hin. apply Hc in Hin. lia. }
  cbn [step]. destruct (closeQueue s !! i) as [ct|] eqn:Hi.
  - destruct (closeCallback_view i err s ct Hi) as (Cc & Cq & Cb). unfold closeIds.
    rewrite Cc, Cq. split.
    + intros ct' Hin. apply Hq. by eapply list_elem_of_delete_inv.
    + intros n e Hin. destruct Cb as [Cb|[e' Cb]]; rewrite Cb in Hin; [by eapply Hc|].
      apply elem_of_app in Hin as [?|Hin]; [by eapply Hc|].
      apply list_elem_of_singleton in Hin. injection Hin as -> _.
      apply Hq. by eapply list_elem_of_lookup_2.
  - unfold closeCallback. by rewrite Hi.
Qed.

Lemma closeIds_reachable o s : reachable o s -> closeIds s.
Proof.
  intros [ls ->]. assert (Hi : closeIds (init o)).
  { split; simpl; intros; exfalso; by eapply not_elem_of_nil. }
  revert Hi. generalize (init o). induction ls as [|l ls IH]; intros s Hs; simpl; [done|].
  apply IH. by apply step_closeIds.
Qed.

(** Claim C3 fails on the code: on a store with nothing registered
    [close] starts no [core.close], and since only the answer of a
    [core.close] runs [onclose], its callback is never invoked and
    [reset] never runs, whatever happens afterwards. *)
Theorem close_without_cores_never_calls_back (o : Opts) (s : Store) :
  reachable o s -> cores s = [] ->
  closeQueue (snd (close s)) = closeQueue s /\
  forall ls e, (fst (close s), e) ∉ callbacks (run ls (snd (close s))).
Proof.
  intros Hr He. destruct (closeIds_reachable _ _ Hr) as [Hq Hc].
  destruct (close_frame s) as (Cf&_&_&_&_&_&Cb&Cc&Cq).
  assert (Cq' : closeQueue (snd (close s)) = closeQueue s).
  { rewrite Cq, He. apply app_nil_r. }
  split; [done|].
  intros ls e. apply run_silent. unfold silent. rewrite Cf, Cb, Cc, Cq', length_app.
  simpl. split; [lia|]. split.
  - intros ct Hin. apply Hq in Hin. lia.
  - intros e' Hin. apply Hc in Hin. lia.
Qed.
End CloseCallbacks.

(** When a [core.close] answers with an error, [reset] and the callback run
    at once, while the other closures are still in flight. *)
Lemma close_resets_on_first_error :
  let s := run [CallGet (ReqBuffer K1); CoreOpened 0 []; CallClose;
                CloseCallback 0 (Some TeardownError)] newStore in
  cores s = [] /\ callbacks s = [(0, Some TeardownError)] /\
  closeQueue s = [mkCloseTask 0 0] /\ core_isClosed s 0 = false.
Proof. vm_compute. repeat split. Qed.

(** ** Termination signals of a session *)

Section Sessions.
Context `{Crypto} `{DatEncoding}.

(** All three signals run the one [onclose]. *)
Lemma signals_share_onclose m sig s :
  step (StreamSignal m sig) s = replicate_onclose m s.
Proof. done. Qed.

(** [closed] makes every later signal a no-op. *)
Lemma onclose_once m s :
  replicate_onclose m (replicate_onclose m s) = replicate_onclose m s.
Proof.
  unfold replicate_onclose at 2 3.
  destruct (streamHeap s !! m) as [st|] eqn:Hm.
  - destruct (onclose_closed st) eqn:Hc.
    + unfold replicate_onclose. by rewrite Hm, Hc.
    + unfold replicate_onclose, updStream. simpl.
      by rewrite list_lookup_alter_eq, Hm.
  - unfold replicate_onclose. by rewrite Hm.
Qed.

(** A signal of a stream that is no longer in the list, and whose [closed]
    is still unset, takes the last session out of the list. *)
Lemma onclose_stale_removes_last m s st :
  streamHeap s !! m = Some st -> onclose_closed st = false -> ~ active m s ->
  replicationStreams (replicate_onclose m s) = removelast (replicationStreams s).
Proof.
  intros Hm Hc Ha. unfold replicate_onclose. rewrite Hm, Hc. simpl.
  rewrite indexOf_absent by done. apply splice1_last.
Qed.

(** While the session is in the list, its first signal takes it, and
    only it, out. *)
Lemma onclose_removes_active m s st :
  wf s -> active m s -> streamHeap s !! m = Some st -> onclose_closed st = false ->
  let s' := replicate_onclose m s in
  ~ active m s' /\ (forall m', m' <> m -> active m' s -> active m' s').
Proof.
  intros W Ha Hm Hc. cbv zeta. unfold replicate_onclose. rewrite Hm, Hc.
  unfold active in *. simpl.
  destruct (indexOf_elem _ _ Ha) as (i & Hi & Hl). rewrite Hi.
  assert (Hlen : i < length (replicationStreams s)).
  { apply lookup_lt_Some in Hl. by rewrite length_map in Hl. }
  rewrite splice1_nat by done.
  change (map stream (delete i (replicationStreams s)))
    with (stream <$> delete i (replicationStreams s)).
  rewrite list_fmap_delete. split.
  - pose proof (wf_sessions _ W) as Hnd.
    apply (NoDup_Permutation_proper _ _ (delete_Permutation _ _ _ Hl)) in Hnd.
    by apply NoDup_cons_1_1 in Hnd.
  - intros m' Hne Hin. destruct (elem_of_delete_or _ _ _ _ Hin Hl); [done|done].
Qed.
End Sessions.

(** ** Runs of the sample store *)

(** Claim C1 is false as stated: two calls of [get] with the same name
    resolve to the same index key, yet the second makes a second handle,
    even after the first core is open; and a call by discovery key made
    before the core of the call by public key is open makes a second
    handle too. *)
Lemma same_index_two_handles :
  indexKey (requestOpts (named "logs")) 1 = Ok (IStr "logs") /\
  handleOf (get (named "logs") newStore) = Some 0 /\
  handleOf (get (named "logs") (run [CallGet (named "logs"); CoreOpened 0 K1] newStore))
    = Some 1 /\
  indexKey (requestOpts (ReqBuffer K1)) 1
    = indexKey (requestOpts (discoveryOnly (KBuf (crypto_discoveryKey K1)))) 1 /\
  handleOf (get (ReqBuffer K1) newStore) = Some 0 /\
  handleOf (get (discoveryOnly (KBuf (crypto_discoveryKey K1)))
                (run [CallGet (ReqBuffer K1)] newStore)) = Some 1.
Proof. vm_compute. repeat split. Qed.

(** Claim C2 is false as stated: core [0] is open, session [0] is active
    and no callback is queued, yet core [0] is not on the stream.  The
    registry holds core [1] under both strings of the key they share. *)
Lemma ready_core_left_unattached :
  let s := run twoHandlesTrace newStore in
  core_status s 0 = Some (Ready K1) /\
  map stream (replicationStreams s) = [0] /\
  readyQueue s = [] /\
  attachCount 0 0 s = 0 /\ attachCount 1 0 s = 1.
Proof. vm_compute. repeat split. Qed.

(** Claim C8 fails on the code.  [close] destroys stream [0], whose
    [onclose] splices the list under the loop, so the loop never reaches
    stream [1]: it stays in the list, alive.  [reset] then drops it from
    the list although its [onclose] has not run.  When stream [1]
    terminates later (any of the three signals, or [destroy]), [indexOf]
    gives [-1] and [splice(-1, 1)] takes the last session, stream [2], out
    of the list, although stream [2] neither ended nor was destroyed. *)
Theorem stale_signal_removes_another_session :
  let view := fun s m => (fun st => (destroyed st, onclose_closed st)) <$> streamHeap s !! m in
  let s0 := run twoSessionsClosed newStore in
  let s := run staleTrace newStore in
  (map stream (replicationStreams s0) = [1] /\
   view s0 0 = Some (true, true) /\ view s0 1 = Some (false, false)) /\
  (map stream (replicationStreams s) = [2] /\
   view s 1 = Some (false, false) /\ view s 2 = Some (false, false)) /\
  (forall sig,
     map stream (replicationStreams (step (StreamSignal 1 sig) s)) = [] /\
     view (step (StreamSignal 1 sig) s) 2 = Some (false, false)) /\
  map stream (replicationStreams (step (StreamDestroy 1) s)) = [] /\
  view (step (StreamDestroy 1) s) 2 = Some (false, false).
Proof.
  cbv zeta. split; [|split; [|split]].
  - vm_compute. repeat split.
  - vm_compute. repeat split.
  - intros sig. destruct sig; vm_compute; repeat split.
  - vm_compute. repeat split.
Qed.

(** The five rules of C6 on concrete requests. *)
Lemma optsToIndex_first_match_witness :
  indexKey (mkCoreOpts true (Some "logs") None None None None) 0 = Ok (IStr "default") /\
  indexKey (requestOpts (named "logs")) 0 = Ok (IStr "logs") /\
  indexKey (requestOpts (ReqBuffer K1)) 0 = Ok (IBuf (crypto_discoveryKey K1)) /\
  indexKey (requestOpts (discoveryOnly (KText K1text))) 0 = Ok (IBuf K1) /\
  indexKey noOpts 0 = Ok (IBuf (crypto_discoveryKey (publicKey (crypto_keyPair 0)))).
Proof.
  split; [|split; [|split; [|split]]].
  - apply (proj1 (optsToIndex_first_match (mkCoreOpts true (Some "logs") None None None None) 0)).
    repeat split.
  - apply (proj1 (proj2 (optsToIndex_first_match (requestOpts (named "logs")) 0)) "logs");
      [intros [Hd _]; discriminate Hd|reflexivity|repeat split].
  - apply (proj1 (proj2 (proj2 (optsToIndex_first_match (requestOpts (ReqBuffer K1)) 0)))
             (KBuf K1)); reflexivity.
  - etransitivity.
    + apply (proj1 (proj2 (proj2 (proj2
               (optsToIndex_first_match (requestOpts (discoveryOnly (KText K1text))) 0))))
               (KText K1text));
        [intros [Hd _]; discriminate Hd|intros [Hd _]; discriminate Hd
        |reflexivity|reflexivity|reflexivity].
    + vm_compute. reflexivity.
  - apply (proj2 (proj2 (proj2 (proj2 (optsToIndex_first_match noOpts 0)))));
      [intros [Hd _]; discriminate Hd|intros [Hd _]; discriminate Hd
      |reflexivity|reflexivity].
Defined.

(** C7 on a new store. *)
Lemma default_idempotent_witness :
  let s1 := run [CallDefault (ReqOpts noOpts)] newStore in
  store_default (ReqOpts noOpts) newStore
    = remembered (get (ReqOpts (withDefaultFlag noOpts)) newStore) /\
  store_default (ReqBuffer K1) newStore = remembered (get (ReqBuffer K1) newStore) /\
  defaultCore s1 = Some 0 /\
  (forall r', store_default r' s1 = Ok (0, s1)) /\
  store_default (ReqBuffer K1) s1 = Ok (0, s1).
Proof.
  cbv zeta. split; [|split; [|split; [|split]]].
  - apply (proj1 (proj2 (default_idempotent (ReqOpts noOpts) newStore))); reflexivity.
  - apply (proj1 (proj2 (proj2 (default_idempotent (ReqBuffer K1) newStore))));
      [reflexivity|right; reflexivity].
  - apply (proj2 (proj2 (proj2 (default_idempotent (ReqOpts noOpts) newStore))) 0).
    reflexivity.
  - apply (proj2 (proj2 (proj2 (default_idempotent (ReqOpts noOpts) newStore))) 0).
    reflexivity.
  - apply (proj1 (default_idempotent (ReqBuffer K1)
                    (run [CallDefault (ReqOpts noOpts)] newStore)) 0).
    reflexivity.
Defined.

(** C10 on a store whose default core was closed and whose registry was
    reset. *)
Lemma close_keeps_default_witness :
  let s := run [CallDefault (ReqOpts noOpts); CoreOpened 0 K1] newStore in
  let s' := run [CloseCallback 0 None; CloseCallback 0 None] (step CallClose s) in
  defaultCore s = Some 0 /\
  cores s' = [] /\ replicationStreams s' = [] /\ callbacks s' = [(0, None)] /\
  c_closed <$> coreHeap s' !! 0 = Some true /\
  isDefaultSet s' = true /\
  store_default (ReqOpts noOpts) s' = Ok (0, s').
Proof.
  cbv zeta. split; [reflexivity|]. split; [reflexivity|]. split; [reflexivity|].
  split; [reflexivity|]. split; [reflexivity|].
  apply (close_keeps_default
           (run [CallDefault (ReqOpts noOpts); CoreOpened 0 K1] newStore) 0
           [CloseCallback 0 None; CloseCallback 0 None] (ReqOpts noOpts)).
  reflexivity.
Defined.

(** C4 on a new store, before and after [default()]. *)
Lemma encrypt_needs_default_witness :
  let s' := run [] (run [CallDefault (ReqOpts noOpts)] newStore) in
  givenOpts (ArgOpts encrypted) None = Some encrypted /\
  truthy_flag (encrypt encrypted) = true /\
  replicate (ArgOpts encrypted) None newStore = Throw ConfigurationError /\
  replicate ArgNone (Some encrypted) newStore = Throw ConfigurationError /\
  store_default (ReqOpts noOpts) newStore
    = Ok (0, run [CallDefault (ReqOpts noOpts)] newStore) /\
  exists s2 st,
    replicate (ArgOpts encrypted) None s' = Ok (length (streamHeap s'), s2) /\
    streamHeap s2 = streamHeap s' ++ [st] /\
    s_anchor st = Some 0 /\ truthy_flag (encrypt (s_opts st)) = true /\
    destroyed st = false /\ onclose_closed st = false /\
    map stream (replicationStreams s2)
      = map stream (replicationStreams s') ++ [length (streamHeap s')].
Proof.
  cbv zeta.
  assert (Hd : store_default (ReqOpts noOpts) newStore
               = Ok (0, run [CallDefault (ReqOpts noOpts)] newStore))
    by (vm_compute; reflexivity).
  split; [reflexivity|]. split; [reflexivity|]. split; [|split; [|split]].
  - apply (proj1 (encrypt_needs_default newStore (ArgOpts encrypted) None encrypted
                    eq_refl eq_refl)). reflexivity.
  - apply (proj1 (encrypt_needs_default newStore ArgNone (Some encrypted) encrypted
                    eq_refl eq_refl)). reflexivity.
  - exact Hd.
  - exact (proj2 (encrypt_needs_default newStore (ArgOpts encrypted) None encrypted
                    eq_refl eq_refl)
             (ReqOpts noOpts) 0 (run [CallDefault (ReqOpts noOpts)] newStore) [] Hd).
Defined.

Lemma reachable_run o ls : reachable o (run ls (init o)).
Proof. by exists ls. Qed.

Lemma reachable_step o s l : reachable o s -> reachable o (step l s).
Proof.
  intros [ls ->]. exists (ls ++ [l]). unfold run. by rewrite fold_left_app.
Qed.

(** C5 with one open session. *)
Lemma discovery_only_absent_witness :
  let s := run [plainSession] newStore in
  reachable emptyOpts s /\ truthy_arg (KBuf K1) = true /\ toBuffer (KBuf K1) = Ok K1 /\
  wellFormedKey K1 /\
  exists c s1,
    get (discoveryOnly (KBuf K1)) s = Ok (c, s1) /\
    core_status s1 c = Some Pending /\
    let s2 := run [RemoteFeed 0 K1; ReadyCallback 0] (step (CoreFailed c) (run [] s1)) in
    core_status s2 c = Some Errored /\
    c_errored <$> coreHeap s2 !! c = Some true /\
    (forall k, (k, c) ∉ list_ s2) /\
    (forall m, attachCount c m s2 = 0).
Proof.
  cbv zeta. split; [apply reachable_run|]. split; [reflexivity|]. split; [reflexivity|].
  split; [reflexivity|].
  destruct (discovery_only_absent emptyOpts (run [plainSession] newStore) (KBuf K1) K1
              (reachable_run _ _) eq_refl eq_refl eq_refl)
    as (c & s1 & Hg & Hnew & Hlater).
  exists c, s1. split; [exact Hg|].
  destruct (Hnew eq_refl) as [Hp _]. split; [exact Hp|].
  exact (Hlater [] [RemoteFeed 0 K1; ReadyCallback 0] Hp).
Defined.

(** C1 (amended) for the core of [get(K1)]. *)
Lemma registry_dual_index_witness :
  let s := run [CallGet (ReqBuffer K1)] newStore in
  let s' := step (CoreOpened 0 []) s in
  let pk := openedKey byKey1 [] in
  let byText := ReqOpts (mkCoreOpts false None (Some (KText K1text)) None None None) in
  reachable emptyOpts s /\
  coreHeap s !! 0 = Some byKey1 /\ c_status byKey1 = Pending /\ pk = K1 /\
  (core_key s' 0 = Some pk /\
   Map_get (encode pk) (cores s') = Some 0 /\
   Map_get (encode (crypto_discoveryKey pk)) (cores s') = Some 0 /\
   (exists s'', get (ReqBuffer pk) s' = Ok (0, s'')) /\
   (exists s'', get (discoveryOnly (KBuf (crypto_discoveryKey pk))) s' = Ok (0, s''))) /\
  (exists s'', get byText s' = Ok (0, s'') /\ coreHeap s'' = coreHeap s' /\
               cores s'' = cores s').
Proof.
  cbv zeta.
  set (s := run [CallGet (ReqBuffer K1)] newStore).
  set (byText := ReqOpts (mkCoreOpts false None (Some (KText K1text)) None None None)).
  assert (Hc : coreHeap s !! 0 = Some byKey1) by (vm_compute; reflexivity).
  assert (Hi : _optsToIndex (requestOpts byText) (rng (step (CoreOpened 0 []) s))
               = Ok (mkIndex (IBuf (crypto_discoveryKey K1)) (Some (KText K1text)) None, 1))
    by (vm_compute; reflexivity).
  assert (Hm : Map_get (idxString (idx (mkIndex (IBuf (crypto_discoveryKey K1))
                                          (Some (KText K1text)) None)))
                       (cores (step (CoreOpened 0 []) s)) = Some 0)
    by (vm_compute; reflexivity).
  split; [apply reachable_run|]. split; [exact Hc|]. split; [reflexivity|].
  split; [vm_compute; reflexivity|]. split.
  - exact (proj2 (proj2 (registry_dual_index emptyOpts s (reachable_run _ _)))
             0 byKey1 [] Hc eq_refl).
  - exact (proj1 (proj2 (registry_dual_index emptyOpts (step (CoreOpened 0 []) s)
                           (reachable_step _ _ _ (reachable_run _ _))))
             byText _ 1 0 Hi Hm).
Defined.

(** C2 (amended) for one core and one session; and for a session that
    [close] destroyed before its callbacks ran. *)
Lemma attach_exactly_once_witness :
  let s := run [CallGet (ReqBuffer K1); CoreOpened 0 []; plainSession] newStore in
  let s2 := run [CallGet (ReqBuffer K1); CoreOpened 0 []; plainSession;
                 ReadyCallback 0; ReadyCallback 0] newStore in
  let s3 := run [CallGet (ReqBuffer K1); CoreOpened 0 []; plainSession; CallClose]
                newStore in
  let t := mkTask 0 0 emptyOpts in
  let live := mkStream emptyOpts None [] false false in
  let dead := mkStream emptyOpts None [] true true in
  reachable emptyOpts s /\ reachable emptyOpts s2 /\ reachable emptyOpts s3 /\
  readyQueue s !! 0 = Some t /\ (encode K1, 0) ∈ cores s /\
  streamHeap s !! t_stream t = Some live /\
  attachCount 0 0 s <= 1 /\
  (attachCount (t_core t) (t_stream t) (step (ReadyCallback 0) s)
     = (if destroyed live then 0 else 1) /\
   length (readyQueue (step (ReadyCallback 0) s)) < length (readyQueue s)) /\
  destroyed <$> streamHeap s2 !! 0 = Some false /\
  attachCount 0 0 s2 = 1 /\
  replicateCore_onready t false s2 = s2 /\
  readyQueue s3 !! 0 = Some t /\ (encode K1, 0) ∈ cores s3 /\
  streamHeap s3 !! t_stream t = Some dead /\
  (attachCount (t_core t) (t_stream t) (step (ReadyCallback 0) s3)
     = (if destroyed dead then 0 else 1) /\
   length (readyQueue (step (ReadyCallback 0) s3)) < length (readyQueue s3)).
Proof.
  cbv zeta.
  set (s := run [CallGet (ReqBuffer K1); CoreOpened 0 []; plainSession] newStore).
  set (s2 := run [CallGet (ReqBuffer K1); CoreOpened 0 []; plainSession;
                  ReadyCallback 0; ReadyCallback 0] newStore).
  set (s3 := run [CallGet (ReqBuffer K1); CoreOpened 0 []; plainSession; CallClose]
                 newStore).
  assert (Hq : readyQueue s !! 0 = Some (mkTask 0 0 emptyOpts)) by (vm_compute; reflexivity).
  assert (Hin : (encode K1, 0) ∈ cores s) by (vm_compute; apply list_elem_of_here).
  assert (Hm : streamHeap s !! 0 = Some (mkStream emptyOpts None [] false false))
    by (vm_compute; reflexivity).
  assert (Hin2 : (encode K1, 0) ∈ cores s2) by (vm_compute; apply list_elem_of_here).
  assert (Hs2 : mkStreamState 0 emptyOpts ∈ replicationStreams s2)
    by (vm_compute; apply list_elem_of_here).
  assert (Hnq : ~ queued 0 (stream (mkStreamState 0 emptyOpts)) s2).
  { intros (t & Hq' & _). vm_compute in Hq'. inversion Hq'. }
  assert (Hq3 : readyQueue s3 !! 0 = Some (mkTask 0 0 emptyOpts))
    by (vm_compute; reflexivity).
  assert (Hin3 : (encode K1, 0) ∈ cores s3) by (vm_compute; apply list_elem_of_here).
  assert (Hm3 : streamHeap s3 !! 0 = Some (mkStream emptyOpts None [] true true))
    by (vm_compute; reflexivity).
  destruct (attach_exactly_once emptyOpts s (reachable_run _ _)) as (A & _ & C & _).
  destruct (attach_exactly_once emptyOpts s2 (reachable_run _ _)) as (_ & B & _ & D).
  destruct (attach_exactly_once emptyOpts s3 (reachable_run _ _)) as (_ & _ & C3 & _).
  destruct (B _ _ _ Hin2 Hs2) as [Live One]. specialize (One Hnq).
  split; [apply reachable_run|]. split; [apply reachable_run|].
  split; [apply reachable_run|].
  split; [exact Hq|]. split; [exact Hin|]. split; [exact Hm|]. split; [exact (A 0 0)|].
  split; [exact (C 0 _ _ Hq (ex_intro (fun k => (k, 0) ∈ cores s) (encode K1) Hin) Hm)|].
  split; [exact Live|]. split; [exact One|].
  split; [exact (D (mkTask 0 0 emptyOpts) One)|].
  split; [exact Hq3|]. split; [exact Hin3|]. split; [exact Hm3|].
  exact (C3 0 _ _ Hq3 (ex_intro (fun k => (k, 0) ∈ cores s3) (encode K1) Hin3) Hm3).
Defined.

(** C3 on a new store. *)
Lemma close_without_cores_never_calls_back_witness :
  reachable emptyOpts newStore /\ cores newStore = [] /\
  closeQueue (snd (close newStore)) = [] /\
  forall e, (0, e) ∉ callbacks (run [StreamSignal 0 SigClose; CallGet (ReqOpts noOpts)]
                                    (snd (close newStore))).
Proof.
  split; [apply (reachable_run emptyOpts [])|]. split; [reflexivity|].
  destruct (close_without_cores_never_calls_back emptyOpts newStore
              (reachable_run emptyOpts []) eq_refl) as [Q N].
  split; [exact Q|]. intros e. exact (N _ e).
Defined.

(** * Further properties *)

(** ** Errors of [get] *)

Section GetErrors.
Context `{Crypto} `{DatEncoding}.

Lemma optsToIndex_Throw o rng e :
  _optsToIndex o rng = Throw e <->
  e = DecodeError /\ indexedByKey o /\
  exists t, selectedKey o = Some (KText t) /\ truthy_string t = true /\ decode t = None.
Proof.
  unfold indexedByKey, selectedKey. split.
  - intros Ht.
    destruct (decide (opt_default o = true /\ keyless o)) as [[Hd Hk]|N1].
    { by rewrite (optsToIndex_default _ _ Hd Hk) in Ht. }
    destruct (decide (truthy_name (opt_name o) = true /\ keyless o)) as [[Hn Hk]|N2].
    { destruct (opt_name o) as [n|] eqn:En; [|done].
      by rewrite (optsToIndex_name _ _ n N1 En Hn Hk) in Ht. }
    rewrite (optsToIndex_keyed _ _ N1 N2) in Ht. unfold keyedIndex in Ht.
    destruct (key_or (opt_key o) (opt_discoveryKey o)) as [k0|] eqn:Ek.
    2:{ unfold freshIndex in Ht. by destruct (opt_keyPair o). }
    destruct (truthy_arg k0) eqn:Et.
    2:{ unfold freshIndex in Ht. by destruct (opt_keyPair o). }
    destruct k0 as [b|t]; simpl in Ht; [done|].
    destruct (decode t) eqn:Ed; [done|]. injection Ht as <-.
    split; [done|]. split; [done|]. by exists t.
  - intros (-> & [N1 N2] & t & Hs & Ht & Hd).
    rewrite (optsToIndex_keyed _ _ N1 N2). unfold keyedIndex. rewrite Hs. simpl.
    by rewrite Ht, Hd.
Qed.

(** Property X1.  On a request whose keys are well formed (the Buffers it
    brings are keys of 32 bytes, on which neither [crypto.discoveryKey] nor
    [datEncoding.encode] fails), [get] throws only a decode error, exactly
    when the request is indexed by key and the text it selects does not
    decode. *)
Theorem get_throws_iff_undecodable (r : Request) (s : Store) (e : Error) :
  wellFormedRequest (requestOpts r) = true ->
  (get r s = Throw e <->
   e = DecodeError /\ indexedByKey (requestOpts r) /\
   exists t, selectedKey (requestOpts r) = Some (KText t) /\
             truthy_string t = true /\ decode t = None).
Proof.
  intros _. rewrite <- (optsToIndex_Throw (requestOpts r) (rng s) e). unfold get.
  destruct (_optsToIndex (requestOpts r) (rng s)) as [[i rng']|e'] eqn:E.
  - simpl. destruct (Map_get _ _); split; intros; discriminate.
  - split; intros [= ->]; done.
Qed.
End GetErrors.

(** ** Streams only move forward *)

Lemma streamEvolves_refl st : streamEvolves st st.
Proof. by constructor. Qed.

Lemma streamEvolves_trans a b c :
  streamEvolves a b -> streamEvolves b c -> streamEvolves a c.
Proof.
  intros [A1 A2 A3 A4 A5] [B1 B2 B3 B4 B5]. constructor; auto; try congruence.
  intros Hd. etrans; [|by apply B3]. apply A3.
  destruct (destroyed b) eqn:E; [|done]. rewrite (B4 eq_refl) in Hd. done.
Qed.

Section StreamsForward.
Context `{Crypto} `{DatEncoding}.

Lemma streamsEvolve_refl h : streamsEvolve h h.
Proof. intros m st Hm. eauto using streamEvolves_refl. Qed.

Lemma streamsEvolve_trans a b c :
  streamsEvolve a b -> streamsEvolve b c -> streamsEvolve a c.
Proof.
  intros Hab Hbc i st Hi. destruct (Hab i st Hi) as (st' & Hi' & E1).
  destruct (Hbc i st' Hi') as (st'' & Hi'' & E2). eauto using streamEvolves_trans.
Qed.

Lemma streamsEvolve_app h st : streamsEvolve h (h ++ [st]).
Proof.
  intros m st' Hm. exists st'. split; [by apply lookup_app_l_Some|].
  apply streamEvolves_refl.
Qed.

Lemma streamsEvolve_alter h m f :
  (forall st, h !! m = Some st -> streamEvolves st (f st)) -> streamsEvolve h (alter f m h).
Proof.
  intros Hf m' st Hm. destruct (decide (m = m')) as [->|Hne].
  - exists (f st). rewrite list_lookup_alter_eq, Hm. split; [done|]. by apply Hf.
  - exists st. rewrite list_lookup_alter_ne by done. split; [done|].
    apply streamEvolves_refl.
Qed.

Lemma core_replicate_streams c m s :
  streamsEvolve (streamHeap s) (streamHeap (core_replicate c m s)).
Proof.
  unfold core_replicate, updStream. simpl. apply streamsEvolve_alter. intros st _.
  destruct (destroyed st) eqn:Hd; [apply streamEvolves_refl|].
  constructor; simpl; auto. intros _. by apply prefix_app_r.
Qed.

Lemma get_streamHeap r s c s' : get r s = Ok (c, s') -> streamHeap s' = streamHeap s.
Proof.
  unfold get. destruct (_optsToIndex _ _) as [[i rng']|e]; [|done]. simpl.
  destruct (Map_get _ _); intros [= <- <-]; by rewrite ?inject_spec.
Qed.

Lemma after_get_streamHeap r s : streamHeap (after (get r s) s) = streamHeap s.
Proof.
  destruct (get r s) as [[c s']|e] eqn:E; simpl; [|done]. by eapply get_streamHeap.
Qed.

Lemma replicate_onclose_streams m s :
  streamsEvolve (streamHeap s) (streamHeap (replicate_onclose m s)).
Proof.
  unfold replicate_onclose. repeat case_match; try apply streamsEvolve_refl.
  unfold updStream. simpl. apply streamsEvolve_alter. intros st _.
  constructor; simpl; auto.
Qed.

Lemma stream_destroy_streams m s :
  streamsEvolve (streamHeap s) (streamHeap (stream_destroy m s)).
Proof.
  unfold stream_destroy. destruct (streamHeap s !! m) as [st|]; [|apply streamsEvolve_refl].
  destruct (destroyed st); [apply streamsEvolve_refl|].
  eapply streamsEvolve_trans; [|apply replicate_onclose_streams].
  unfold updStream. simpl. apply streamsEvolve_alter. intros st' _.
  constructor; simpl; auto. done.
Qed.

Lemma destroyLoop_streams fuel i s :
  streamsEvolve (streamHeap s) (streamHeap (destroyLoop fuel i s)).
Proof.
  revert i s. induction fuel as [|fuel IH]; intros i s; simpl; [apply streamsEvolve_refl|].
  destruct (replicationStreams s !! i) as [ss|]; [|apply streamsEvolve_refl].
  eapply streamsEvolve_trans; [apply stream_destroy_streams|apply IH].
Qed.

Lemma close_streams s : streamsEvolve (streamHeap s) (streamHeap (snd (close s))).
Proof. rewrite (proj1 (close_loop s)). apply destroyLoop_streams. Qed.

Lemma step_streamHeap l s : streamsEvolve (streamHeap s) (streamHeap (step l s)).
Proof.
  destruct l; cbn [step].
  - rewrite after_get_streamHeap. apply streamsEvolve_refl.
  - unfold store_default. destruct (defaultCore s); simpl; [apply streamsEvolve_refl|].
    match goal with |- context [get ?r s] => destruct (get r s) as [[c' s'']|e] eqn:E end;
      simpl; [|apply streamsEvolve_refl].
    rewrite (get_streamHeap _ _ _ _ E). apply streamsEvolve_refl.
  - destruct (replicate _ _ s) as [[m s']|e] eqn:E; simpl; [|apply streamsEvolve_refl].
    assert (exists st, streamHeap s' = streamHeap s ++ [st]) as [st ->];
      [|apply streamsEvolve_app].
    unfold replicate in E.
    destruct discoveryKey; destruct (replicate_opts_Ok _ _ _ _ E) as [-> ->];
      simpl; eauto.
  - apply close_streams.
  - assert (streamHeap (coreOpened c k s) = streamHeap s) as ->;
      [|apply streamsEvolve_refl].
    unfold coreOpened, onready. repeat (case_match; try done).
    by rewrite inject_spec.
  - assert (streamHeap (coreFailed c s) = streamHeap s) as ->;
      [|apply streamsEvolve_refl].
    unfold coreFailed. by repeat case_match.
  - unfold readyCallback, replicateCore_onready. simpl.
    repeat case_match; try apply streamsEvolve_refl.
    apply (core_replicate_streams _ _ (set_readyQueue _ s)).
  - unfold engineAnchor. repeat case_match; try apply streamsEvolve_refl.
    apply core_replicate_streams.
  - unfold remoteFeed. case_match; [|apply streamsEvolve_refl].
    rewrite after_get_streamHeap. apply streamsEvolve_refl.
  - apply replicate_onclose_streams.
  - apply stream_destroy_streams.
  - assert (streamHeap (closeCallback i err s) = streamHeap s) as ->;
      [|apply streamsEvolve_refl].
    unfold closeCallback, close_onclose, reset. simpl. by repeat case_match.
Qed.

Lemma run_streamHeap ls s : streamsEvolve (streamHeap s) (streamHeap (run ls s)).
Proof.
  revert s. induction ls as [|l ls IH]; intros s; simpl; [apply streamsEvolve_refl|].
  eapply streamsEvolve_trans; [apply step_streamHeap|apply IH].
Qed.

Lemma reachable_run_from o s ls : reachable o s -> reachable o (run ls s).
Proof.
  intros [ls0 ->]. exists (ls0 ++ ls). unfold run. by rewrite fold_left_app.
Qed.

(** Property X2.  Attachment lasts until the stream is destroyed: a core that
    is on a stream stays on it, exactly once, in every later state in which
    the stream is not destroyed; the end of the session alone does not take
    it off.  On a destroyed stream there is no core. *)
Theorem attachment_lasts_until_destroy (o : Opts) (s : Store) (c m : nat)
    (ls : list Label) :
  reachable o s -> attachCount c m s = 1 ->
  let s' := run ls s in
  (destroyed <$> streamHeap s' !! m = Some false /\ attachCount c m s' = 1) \/
  (destroyed <$> streamHeap s' !! m = Some true /\ forall c', attachCount c' m s' = 0).
Proof.
  intros Hr Hone. cbv zeta.
  assert (W' : wf (run ls s)) by (by apply (wf_reachable o), reachable_run_from).
  assert (Hat : attached c m s) by (apply attachCount_pos; lia).
  destruct Hat as (st & Hm & Hin).
  destruct (run_streamHeap ls s m st Hm) as (st' & Hm' & Ev).
  rewrite Hm'. simpl. destruct (destroyed st') eqn:Hd.
  - right. split; [done|]. intros c'. unfold attachCount. rewrite Hm'.
    by rewrite (proj2 (wf_destroyed _ W' _ _ Hm' Hd)).
  - left. split; [done|]. apply attachCount_attached; [done|].
    exists st'. split; [done|]. destruct (sev_feeds _ _ Ev Hd) as [k ->].
    apply elem_of_app; by left.
Qed.

(** Property X3.  Only open cores are listed or attached: a core that [list]
    shows, or that is on some stream, has opened. *)
Theorem listed_or_attached_is_open (o : Opts) (s : Store) (c : nat) :
  reachable o s ->
  (exists k, (k, c) ∈ list_ s) \/ (exists m, 0 < attachCount c m s) ->
  exists pk, core_status s c = Some (Ready pk).
Proof.
  intros Hr Hor. pose proof (wf_reachable _ _ Hr) as W.
  destruct Hor as [[k Hk]|[m Hm]].
  - destruct (wf_registered _ W k c Hk) as (pk & Hpk & _). exists pk.
    by apply core_key_status.
  - apply attachCount_pos in Hm as (st & Hst & Hin).
    destruct (wf_feeds _ W m st Hst) as [_ Hall]. destruct (Hall c Hin) as [pk Hpk].
    exists pk. by apply core_key_status.
Qed.
End StreamsForward.

(** ** What [close] does to sessions and closed cores *)

Section CloseProtocol.
Context `{Crypto} `{DatEncoding}.

Lemma evens_cons {A} (x : A) l : evens (x :: l) = x :: odds l.
Proof. by destruct l. Qed.

Lemma indexOf_middle (pre : list StreamState) ss rest :
  stream ss ∉ map stream pre ->
  indexOf (stream ss) (pre ++ ss :: rest) = Z.of_nat (length pre).
Proof.
  induction pre as [|a pre IH]; intros Hn; simpl.
  - by rewrite Nat.eqb_refl.
  - apply not_elem_of_cons in Hn as [Hne Hn].
    destruct (Nat.eqb (stream a) (stream ss)) eqn:E.
    + apply Nat.eqb_eq in E. congruence.
    + rewrite (IH Hn). destruct (Z.of_nat (length pre) <? 0)%Z eqn:Hlt; lia.
Qed.

Lemma destroyLoop_done fuel i s :
  replicationStreams s !! i = None -> destroyLoop fuel i s = s.
Proof. intros Hi. destruct fuel; simpl; [done|]. by rewrite Hi. Qed.

Lemma stream_destroy_length m s :
  length (replicationStreams (stream_destroy m s)) <= length (replicationStreams s).
Proof.
  unfold stream_destroy, replicate_onclose, updStream, splice1. simpl.
  repeat (case_match; simpl; try done); try lia.
  all: apply sublist_length, sublist_delete.
Qed.

(** The loop needs no more rounds than the array has entries past the
    iterator: with that many, further fuel changes nothing. *)
Lemma destroyLoop_fuel fuel fuel' i s :
  length (replicationStreams s) - i <= fuel -> fuel <= fuel' ->
  destroyLoop fuel' i s = destroyLoop fuel i s.
Proof.
  revert fuel' i s. induction fuel as [|fuel IH]; intros fuel' i s Hlen Hle.
  - simpl. apply destroyLoop_done, lookup_ge_None. lia.
  - destruct fuel' as [|fuel']; [lia|]. simpl.
    destruct (replicationStreams s !! i) as [ss|] eqn:Hi; [|done].
    apply IH; [|lia]. pose proof (stream_destroy_length (stream ss) s). lia.
Qed.

(** [destroy] on the entry the iterator points at: the stream is active, so
    [onclose] takes exactly that entry out. *)
Lemma stream_destroy_head s pre ss rest :
  wf s -> replicationStreams s = pre ++ ss :: rest ->
  exists st, streamHeap s !! stream ss = Some st /\
    stream_destroy (stream ss) s =
    updStream (stream ss)
      (fun st => set_onclose_closed true (set_feeds [] (set_destroyed true st)))
      (set_replicationStreams (pre ++ rest) s).
Proof.
  intros W Hl.
  assert (Ha : active (stream ss) s).
  { unfold active. rewrite Hl. apply list_elem_of_fmap. exists ss. split; [done|].
    apply elem_of_app. right. apply list_elem_of_here. }
  pose proof (active_not_destroyed s (stream ss) W Ha) as Hd.
  destruct (streamHeap s !! stream ss) as [st|] eqn:Hm; [|done].
  simpl in Hd. injection Hd as Hd. exists st. split; [done|].
  rewrite (stream_destroy_spec s _ st Hm Hd).
  destruct (onclose_closed st) eqn:Hc.
  { by destruct (wf_closed _ W _ _ Hm Hc). }
  pose proof (wf_sessions _ W) as Hnd. rewrite Hl in Hnd.
  change (map stream (pre ++ ss :: rest)) with (stream <$> (pre ++ ss :: rest)) in Hnd.
  rewrite fmap_app in Hnd. apply NoDup_app in Hnd as (_ & Hnd & _).
  rewrite Hl, indexOf_middle.
  - rewrite splice1_nat by (rewrite length_app; simpl; lia). by rewrite delete_middle.
  - intros Hin. apply (Hnd _ Hin). simpl. apply list_elem_of_here.
Qed.

(** The loop of [close] over the live array: [destroy] takes the entry under
    the iterator out of the array, the next one moves into its place and the
    iterator steps over it. *)
Lemma destroyLoop_odds fuel :
  forall pre rest s,
  wf s -> replicationStreams s = pre ++ rest -> length rest <= fuel ->
  let s' := destroyLoop fuel (length pre) s in
  replicationStreams s' = pre ++ odds rest /\
  (forall ss, ss ∈ evens rest ->
     exists st, streamHeap s' !! stream ss = Some st /\ destroyed st = true) /\
  (forall m, m ∉ map stream (evens rest) -> streamHeap s' !! m = streamHeap s !! m).
Proof.
  induction fuel as [|fuel IH]; intros pre rest s W Hl Hlen; cbv zeta.
  { destruct rest; [|simpl in Hlen; lia]. simpl. rewrite Hl.
    split; [done|]. split; [|done]. intros ss Hin. by apply not_elem_of_nil in Hin. }
  destruct rest as [|ss rest].
  { rewrite destroyLoop_done.
    - rewrite Hl. split; [done|]. split; [|done].
      intros ss Hin. by apply not_elem_of_nil in Hin.
    - apply lookup_ge_None. rewrite Hl, app_nil_r. lia. }
  simpl destroyLoop.
  assert (Hi : replicationStreams s !! length pre = Some ss).
  { rewrite Hl. by rewrite list_lookup_middle. }
  rewrite Hi.
  destruct (stream_destroy_head s pre ss rest W Hl) as (st & Hm & Hs1).
  pose proof (wf_stream_destroy s (stream ss) W) as W1.
  set (s1 := stream_destroy (stream ss) s) in *.
  assert (Hl1 : replicationStreams s1 = pre ++ rest) by (by rewrite Hs1).
  assert (Hh1 : streamHeap s1
                = alter (fun st => set_onclose_closed true (set_feeds [] (set_destroyed true st)))
                        (stream ss) (streamHeap s)) by (by rewrite Hs1).
  assert (Hss : forall s2, streamsEvolve (streamHeap s1) (streamHeap s2) ->
            exists st2, streamHeap s2 !! stream ss = Some st2 /\ destroyed st2 = true).
  { intros s2 Ev. destruct (Ev (stream ss) (set_onclose_closed true
                               (set_feeds [] (set_destroyed true st)))) as (st2 & Hm2 & E2).
    - by rewrite Hh1, list_lookup_alter_eq, Hm.
    - exists st2. split; [done|]. by apply (sev_destroyed _ _ E2). }
  rewrite evens_cons.
  destruct rest as [|ss2 rest].
  { rewrite destroyLoop_done.
    2:{ apply lookup_ge_None. rewrite Hl1, app_nil_r. lia. }
    rewrite Hl1. split; [done|]. split.
    - intros ss' Hin. apply list_elem_of_singleton in Hin as ->.
      apply Hss, streamsEvolve_refl.
    - intros m Hn. rewrite Hh1. apply list_lookup_alter_ne. intros <-.
      apply Hn. simpl. apply list_elem_of_here. }
  assert (Hl2 : replicationStreams s1 = (pre ++ [ss2]) ++ rest).
  { by rewrite Hl1, <- app_assoc. }
  assert (Hlen2 : length rest <= fuel) by (simpl in Hlen; lia).
  pose proof (IH (pre ++ [ss2]) rest s1 W1 Hl2 Hlen2) as IH1. cbv zeta in IH1.
  replace (length (pre ++ [ss2])) with (S (length pre)) in IH1
    by (rewrite length_app; simpl; lia).
  destruct IH1 as (I1 & I2 & I3).
  change (odds (ss :: ss2 :: rest)) with (evens (ss2 :: rest)).
  change (odds (ss2 :: rest)) with (evens rest) in *.
  rewrite evens_cons. split; [by rewrite I1, <- app_assoc|]. split.
  - intros ss' Hin. apply elem_of_cons in Hin as [->|Hin]; [|by apply I2].
    apply Hss, destroyLoop_streams.
  - intros m Hn. rewrite I3.
    + rewrite Hh1. apply list_lookup_alter_ne. intros <-.
      apply Hn. simpl. apply list_elem_of_here.
    + intros Hin. apply Hn. simpl. by apply list_elem_of_further.
Qed.

(** Property X4.  [close] destroys every other session.  Its loop iterates
    [replicationStreams] itself while [destroy] makes [onclose] take the
    current entry out, so the iterator steps over the entry that follows: the
    sessions at the even positions are destroyed (their streams end without
    feeds) and leave the list, the sessions at the odd positions stay in the
    list with their streams untouched. *)
Theorem close_destroys_every_other_session (o : Opts) (s : Store) :
  reachable o s ->
  let s' := snd (close s) in
  replicationStreams s' = odds (replicationStreams s) /\
  (forall ss, ss ∈ evens (replicationStreams s) ->
     exists st, streamHeap s' !! stream ss = Some st /\
                destroyed st = true /\ onclose_closed st = true /\ feeds st = []) /\
  (forall m, m ∉ map stream (evens (replicationStreams s)) ->
     streamHeap s' !! m = streamHeap s !! m).
Proof.
  intros Hr. cbv zeta. pose proof (wf_reachable _ _ Hr) as W.
  assert (W' : wf (snd (close s))) by (by apply wf_close).
  destruct (close_loop s) as [Hh Hl]. rewrite Hh, Hl.
  destruct (destroyLoop_odds (length (replicationStreams s)) [] (replicationStreams s) s
              W eq_refl (le_n _)) as (A & B & C).
  simpl in A, B, C. split; [done|]. split; [|done].
  intros ss Hin. destruct (B ss Hin) as (st & Hm & Hd). exists st.
  split; [done|]. split; [done|].
  rewrite <- Hh in Hm. apply (wf_destroyed _ W' _ _ Hm Hd).
Qed.

(** Property X5.  [close] never calls back when every registered core is
    closed already. *)
Theorem close_of_closed_cores_never_calls_back (o : Opts) (s : Store) :
  reachable o s ->
  (forall k c, (k, c) ∈ cores s -> core_isClosed s c = true) ->
  closeQueue (snd (close s)) = closeQueue s /\
  forall ls e, (fst (close s), e) ∉ callbacks (run ls (snd (close s))).
Proof.
  intros Hr Hall. destruct (closeIds_reachable _ _ Hr) as [Hq Hc].
  destruct (close_frame s) as (Cf&_&_&_&_&_&Cb&Cc&Cq).
  assert (Cq' : closeQueue (snd (close s)) = closeQueue s).
  { rewrite Cq.
    rewrite (List.filter_ext_in _ (fun _ => false)), List.filter_false; [apply app_nil_r|].
    intros [k c] Hin. simpl. apply list_elem_of_In in Hin. by rewrite (Hall k c Hin). }
  split; [done|].
  intros ls e. apply run_silent. unfold silent. rewrite Cf, Cb, Cc, Cq', length_app.
  simpl. split; [lia|]. split.
  - intros ct Hin. apply Hq in Hin. lia.
  - intros e' Hin. apply Hc in Hin. lia.
Qed.
End CloseProtocol.

(** ** A [close] whose cores all answer without error *)

Section CloseAnswers.
Context `{Crypto} `{DatEncoding}.

Lemma core_isClosed_set s c c' :
  core_isClosed s c' = true -> core_isClosed (updCore c (set_closed true) s) c' = true.
Proof.
  unfold core_isClosed, updCore. simpl. destruct (decide (c = c')) as [->|Hne].
  - rewrite list_lookup_alter_eq. by destruct (coreHeap s !! c').
  - by rewrite list_lookup_alter_ne.
Qed.

Lemma core_isClosed_set_eq s c :
  c < length (coreHeap s) -> core_isClosed (updCore c (set_closed true) s) c = true.
Proof.
  intros Hlt. unfold core_isClosed, updCore. simpl. rewrite list_lookup_alter_eq.
  apply lookup_lt_is_Some in Hlt as [co ->]. done.
Qed.

(** One answer: either more are awaited, or this was the last one and
    [reset] ran. *)
Lemma closing_step call cb0 targets k i s :
  closing call cb0 targets k s -> i < k ->
  let s' := closeCallback i None s in
  (2 <= k /\ closing call cb0 targets (k - 1) s') \/
  (k = 1 /\ cores s' = [] /\ replicationStreams s' = [] /\ closeQueue s' = [] /\
   callbacks s' = cb0 ++ [(call, None)] /\
   forall c, c ∈ targets -> core_isClosed s' c = true).
Proof.
  intros [L C R B V T] Hi. cbv zeta. unfold closeCallback.
  destruct (closeQueue s !! i) as [ct|] eqn:Hq.
  2:{ apply lookup_ge_None in Hq. lia. }
  assert (Hin : ct ∈ closeQueue s) by (by eapply list_elem_of_lookup_2).
  pose proof (C ct Hin) as Hcall. pose proof (V ct Hin) as Hval.
  set (s2 := updCore (ct_core ct) (set_closed true)
               (set_closeQueue (delete i (closeQueue s)) s)).
  assert (T2 : forall c, c ∈ targets ->
             (exists ct', ct' ∈ delete i (closeQueue s) /\ ct_core ct' = c)
             \/ core_isClosed s2 c = true).
  { intros c Hc. destruct (T c Hc) as [(ct' & Hin' & <-)|Hcl].
    - destruct (elem_of_delete_or _ _ _ _ Hin' Hq) as [->|Hd]; [right|left; eauto].
      by apply core_isClosed_set_eq.
    - right. by apply core_isClosed_set. }
  unfold close_onclose. rewrite Hcall.
  change (closeCalls (set_closeCalls (alter (fun r => (r - 1)%Z) call (closeCalls s2)) s2))
    with (alter (fun r => (r - 1)%Z) call (closeCalls s)).
  rewrite list_lookup_alter_eq, R. simpl.
  destruct (decide (k = 1)) as [->|Hk].
  - right. simpl. split; [done|]. unfold reset. simpl. repeat split; try done.
    + destruct (closeQueue s) as [|a [|b q]]; simpl in L; try lia.
      by destruct i.
    + by rewrite B.
    + intros c Hc. destruct (T2 c Hc) as [(ct' & Hin' & _)|Hcl]; [|done].
      exfalso. destruct (closeQueue s) as [|a [|b q]]; simpl in L; try lia.
      destruct i; simpl in Hin'; [by apply not_elem_of_nil in Hin'|lia].
  - left. split; [lia|].
    destruct (Z.of_nat k - 1)%Z eqn:Ez; [lia| |lia].
    constructor; simpl.
    + rewrite length_delete by eauto. lia.
    + intros ct' Hin'. apply C. by eapply list_elem_of_delete_inv.
    + rewrite list_lookup_alter_eq, R. simpl. f_equal. lia.
    + done.
    + intros ct' Hin'. rewrite length_alter. apply V.
      by eapply list_elem_of_delete_inv.
    + intros c Hc. destruct (T2 c Hc) as [?|Hcl]; [by left|right]. exact Hcl.
Qed.

Lemma closing_run call cb0 targets order :
  forall k s, 1 <= k -> validOrder order k -> closing call cb0 targets k s ->
  let s' := run (answersOk order) s in
  cores s' = [] /\ replicationStreams s' = [] /\ closeQueue s' = [] /\
  callbacks s' = cb0 ++ [(call, None)] /\
  forall c, c ∈ targets -> core_isClosed s' c = true.
Proof.
  induction order as [|i order IH]; intros k s Hk Hv Hc; simpl in Hv; [lia|].
  destruct Hv as [Hi Hv]. cbv zeta. simpl.
  destruct (closing_step _ _ _ _ i _ Hc Hi) as [[Hk2 Hc']|(-> & Hfin)].
  - apply (IH (k - 1)); [lia|done|done].
  - destruct order as [|j order]; [exact Hfin|]. simpl in Hv. lia.
Qed.

(** Property X6.  When every registered core is open and nothing else is
    closing, [close] calls back exactly once, with no error, after the last
    answer, and then the registry and the session list are empty and the cores
    are closed. *)
Theorem close_calls_back_once (o : Opts) (s : Store) (order : list nat) :
  reachable o s -> closeQueue s = [] -> cores s <> [] ->
  (forall k c, (k, c) ∈ cores s -> core_isClosed s c = false) ->
  validOrder order (length (cores s)) ->
  let s' := run (answersOk order) (snd (close s)) in
  cores s' = [] /\ replicationStreams s' = [] /\ closeQueue s' = [] /\
  callbacks s' = callbacks s ++ [(fst (close s), None)] /\
  forall k c, (k, c) ∈ cores s -> core_isClosed s' c = true.
Proof.
  intros Hr Hq Hne Hopen Hv. pose proof (wf_reachable _ _ Hr) as W.
  destruct (close_frame s) as (Cf&Ch&_&_&_&_&Cb&Cc&Cq).
  assert (Cq' : closeQueue (snd (close s))
                = map (fun e => mkCloseTask (snd e) (length (closeCalls s))) (cores s)).
  { rewrite Cq, Hq. simpl. f_equal.
    rewrite (List.filter_ext_in _ (fun _ => true)).
    - clear. induction (cores s) as [|a l IH]; simpl; congruence.
    - intros [k c] Hin. simpl. apply list_elem_of_In in Hin. by rewrite (Hopen k c Hin). }
  assert (Hc : closing (fst (close s)) (callbacks s) (map snd (cores s))
                       (length (cores s)) (snd (close s))).
  { rewrite Cf. constructor.
    - by rewrite Cq', length_map.
    - intros ct Hin. rewrite Cq' in Hin. by apply list_elem_of_fmap in Hin as (e & -> & _).
    - rewrite Cc. rewrite lookup_app_r, Nat.sub_diag by done. done.
    - done.
    - intros ct Hin. rewrite Cq' in Hin. apply list_elem_of_fmap in Hin as ([k c] & -> & Hin).
      change (c < length (coreHeap (snd (close s)))).
      rewrite Ch. destruct (wf_registered _ W k c Hin) as (pk & Hpk & _).
      apply lookup_lt_is_Some. by eapply core_key_Some.
    - intros c Hin. apply list_elem_of_fmap in Hin as ([k c'] & -> & Hin). left.
      exists (mkCloseTask c' (length (closeCalls s))). split; [|done].
      rewrite Cq'. apply list_elem_of_fmap. by exists (k, c'). }
  assert (Hk : 1 <= length (cores s)).
  { destruct (cores s); [done|simpl; lia]. }
  destruct (closing_run _ _ _ order _ _ Hk Hv Hc) as (A & B & C & D & E).
  repeat split; try done.
  intros k c Hin. apply E. apply list_elem_of_fmap. by exists (k, c).
Qed.
End CloseAnswers.

(** ** Sessions that ended *)

Section EndedSessions.
Context `{Crypto} `{DatEncoding}.

Lemma closedInactive_reachable o s : reachable o s -> closedInactive s.
Proof. intros R m st Hm Hc. by apply (wf_closed _ (wf_reachable _ _ R) m st). Qed.

(** Property X7.  The first termination signal of an active session takes that
    session, and no other, out of the session list. *)
Theorem first_signal_ends_the_session (o : Opts) (s : Store) (m : nat) (sig : Signal) :
  reachable o s -> active m s ->
  let s' := step (StreamSignal m sig) s in
  ~ active m s' /\ forall m', m' <> m -> (active m' s' <-> active m' s).
Proof.
  intros R Ha. cbv zeta. cbn [step].
  pose proof (wf_reachable _ _ R) as W.
  assert (exists st, streamHeap s !! m = Some st) as [st Hm].
  { unfold active in Ha. apply list_elem_of_fmap in Ha as (ss & -> & Hin).
    apply lookup_lt_is_Some. by apply (wf_active _ W). }
  assert (Hc : onclose_closed st = false).
  { destruct (onclose_closed st) eqn:Hc; [|done].
    by destruct (closedInactive_reachable _ _ R m st Hm Hc). }
  destruct (onclose_removes_active m s st W Ha Hm Hc) as [A1 A2].
  split; [done|]. intros m' Hne. split; [|by apply A2].
  unfold replicate_onclose. rewrite Hm, Hc. unfold active. simpl.
  intros Hin. apply list_elem_of_fmap in Hin as (ss & -> & Hin).
  apply elem_of_splice1 in Hin. apply list_elem_of_fmap. eauto.
Qed.

(** Property X8.  Once a termination signal of a stream was handled, whatever
    happens next the stream is never in the session list again, and further
    signals of it change nothing. *)
Theorem ended_session_stays_out (o : Opts) (s : Store) (m : nat) (sig : Signal)
    (ls : list Label) :
  reachable o s -> m < length (streamHeap s) ->
  let s' := run ls (step (StreamSignal m sig) s) in
  ~ active m s' /\ forall sig', step (StreamSignal m sig') s' = s'.
Proof.
  intros R Hlt. cbv zeta.
  set (s1 := step (StreamSignal m sig) s).
  assert (R1 : reachable o s1) by apply (reachable_run_from o s [StreamSignal m sig] R).
  assert (exists st1, streamHeap s1 !! m = Some st1 /\ onclose_closed st1 = true)
    as (st1 & Hm1 & Hc1).
  { apply lookup_lt_is_Some in Hlt as [st Hm]. unfold s1. cbn [step].
    unfold replicate_onclose. rewrite Hm.
    destruct (onclose_closed st) eqn:Hc; [eauto|].
    unfold updStream. simpl. rewrite list_lookup_alter_eq, Hm. simpl. eauto. }
  destruct (run_streamHeap ls s1 m st1 Hm1) as (st2 & Hm2 & E).
  pose proof (sev_closed _ _ E Hc1) as Hc2.
  split.
  - exact (closedInactive_reachable o (run ls s1) (reachable_run_from o s1 ls R1)
             m st2 Hm2 Hc2).
  - intros sig'. cbn [step]. unfold replicate_onclose. by rewrite Hm2, Hc2.
Qed.
End EndedSessions.

(** ** Configuration and [replicate] *)

Section Configuration.
Context `{Crypto} `{DatEncoding}.

Lemma get_config r s c s' :
  get r s = Ok (c, s') -> opts s' = opts s /\ storeId s' = storeId s.
Proof.
  unfold get. destruct (_optsToIndex _ _) as [[i rng']|e]; [|done]. simpl.
  destruct (Map_get _ _); intros [= <- <-]; by rewrite ?inject_spec.
Qed.

Lemma after_get_config r s :
  opts (after (get r s) s) = opts s /\ storeId (after (get r s) s) = storeId s.
Proof.
  destruct (get r s) as [[c s']|e] eqn:E; simpl; [|done]. by eapply get_config.
Qed.

Lemma closeQueue_fold_config call (l : JsMap) s :
  let s' := fold_left (fun s '(_, core) =>
               if core_isClosed s core then s
               else set_closeQueue (closeQueue s ++ [mkCloseTask core call]) s) l s in
  opts s' = opts s /\ storeId s' = storeId s.
Proof.
  revert s. induction l as [|[k c] l IH]; intros s; simpl; [done|].
  destruct (core_isClosed s c); [apply IH|].
  specialize (IH (set_closeQueue (closeQueue s ++ [mkCloseTask c call]) s)).
  simpl in IH. exact IH.
Qed.

(** No method and no notification writes [this.opts] or [this.storeId]. *)
Lemma step_config l s :
  opts (step l s) = opts s /\ storeId (step l s) = storeId s.
Proof.
  destruct l; cbn [step].
  - apply after_get_config.
  - unfold store_default. destruct (defaultCore s); simpl; [done|].
    match goal with |- context [get ?r s] => destruct (get r s) as [[c' s'']|e] eqn:E end;
      simpl; [|done].
    by apply get_config in E.
  - destruct (replicate _ _ s) as [[m s']|e] eqn:E; simpl; [|done].
    unfold replicate in E.
    by destruct discoveryKey; destruct (replicate_opts_Ok _ _ _ _ E) as [-> ->].
  - unfold close. cbn [snd].
    set (s1 := set_closeCalls _ s).
    set (s2 := destroyLoop _ 0 s1).
    pose proof (closeQueue_fold_config (length (closeCalls s)) (cores s2) s2) as Q.
    cbv zeta in Q. destruct Q as [-> ->].
    destruct (destroyLoop_streamsOnly (length (replicationStreams s1)) 0 s1) as [E1 _ _ E2 _].
    unfold s2. by rewrite E1, E2.
  - unfold coreOpened, onready. repeat (case_match; try done). by rewrite inject_spec.
  - unfold coreFailed. by repeat case_match.
  - unfold readyCallback, replicateCore_onready. simpl. by repeat case_match.
  - unfold engineAnchor. by repeat case_match.
  - unfold remoteFeed. case_match; [apply after_get_config|done].
  - unfold replicate_onclose. by repeat case_match.
  - by destruct (stream_destroy_streamsOnly m s) as [E1 _ _ E2 _].
  - unfold closeCallback, close_onclose, reset. simpl. by repeat case_match.
Qed.

Lemma run_config ls s : opts (run ls s) = opts s /\ storeId (run ls s) = storeId s.
Proof.
  revert s. induction ls as [|l ls IH]; intros s; simpl; [done|].
  destruct (IH (step l s)) as [-> ->]. apply step_config.
Qed.

Lemma reachable_config o s :
  reachable o s -> opts s = o /\ storeId s = crypto_randomBytes 0 5.
Proof. intros [ls ->]. destruct (run_config ls (init o)) as [-> ->]. done. Qed.
End Configuration.

Section Replicate.
Context `{Crypto} `{DatEncoding}.

Lemma replicate_givenOpts a ro s : replicate a ro s = replicate_opts (givenOpts a ro) s.
Proof. by destruct a. Qed.

(** Property X9.  [replicate] throws in exactly two cases, both without a
    default core: a [TypeError] when it was given no options object (it reads
    [replicationOpts.encrypt] of [undefined]), and the configuration error
    when the options of the call set [encrypt]. *)
Theorem replicate_throws_iff (a : ReplicateArg) (ro : option Opts) (s : Store) (e : Error) :
  replicate a ro s = Throw e <->
  defaultCore s = None /\
  match givenOpts a ro with
  | None => e = TypeError
  | Some o => truthy_flag (encrypt o) = true /\ e = ConfigurationError
  end.
Proof.
  rewrite replicate_givenOpts. unfold replicate_opts.
  destruct (defaultCore s) as [d|]; [by split; [|intros [? _]]|].
  destruct (givenOpts a ro) as [o|].
  - destruct (truthy_flag (encrypt o)).
    + split; [by intros [= <-]|by intros (_ & _ & ->)].
    + split; [done|by intros (_ & ? & _)].
  - split; [by intros [= <-]|by intros (_ & ->)].
Qed.

(** Property X10.  A successful [replicate] makes a new stream with the merged
    options, puts it in the session list beside the sessions that were there,
    and queues one callback for it for every registry entry.  The stream comes
    from the default core when there is one: an open default core is on the
    stream once when [replicate] returns, and no other core is on it yet.
    Registry and cores are left alone. *)
Theorem replicate_starts_a_session (o : Opts) (s : Store) (a : ReplicateArg)
    (ro : option Opts) (m : nat) (s' : Store) :
  reachable o s -> replicate a ro s = Ok (m, s') ->
  m = length (streamHeap s) /\ ~ active m s /\ active m s' /\
  (forall m', active m' s -> active m' s') /\
  streamHeap s' !! m
    = Some (mkStream (spread_opt o (givenOpts a ro)) (defaultCore s) (anchored s)
                     false false) /\
  cores s' = cores s /\ coreHeap s' = coreHeap s /\
  (forall k c, (k, c) ∈ cores s ->
     queued c m s' /\
     attachCount c m s' = if decide (defaultCore s = Some c) then 1 else 0).
Proof.
  intros R Hr. pose proof (wf_reachable _ _ R) as W.
  destruct (reachable_config _ _ R) as [Ho _].
  rewrite replicate_givenOpts in Hr.
  destruct (replicate_opts_Ok _ _ _ _ Hr) as [-> ->]. clear Hr. rewrite Ho.
  assert (Hl : (streamHeap s ++ [mkStream (spread_opt o (givenOpts a ro)) (defaultCore s)
                                          (anchored s) false false]) !! length (streamHeap s)
               = Some (mkStream (spread_opt o (givenOpts a ro)) (defaultCore s)
                                (anchored s) false false)).
  { by rewrite lookup_app_r, Nat.sub_diag. }
  split; [done|]. split; [|split; [|split; [|split; [|split; [|split]]]]].
  - unfold active. intros Ha. apply list_elem_of_fmap in Ha as (ss & E & Hin).
    apply (wf_active _ W) in Hin. lia.
  - unfold active. simpl. rewrite map_app. apply elem_of_app. right. simpl.
    by apply list_elem_of_singleton.
  - unfold active. simpl. intros m' Ha. rewrite map_app. apply elem_of_app. by left.
  - exact Hl.
  - done.
  - done.
  - intros k c Hin. split.
    + exists (mkTask c (length (streamHeap s)) (spread_opt o (givenOpts a ro))).
      split; [|done]. simpl. apply elem_of_app. right.
      apply list_elem_of_fmap. by exists (k, c).
    + unfold attachCount. simpl. rewrite Hl. simpl. unfold anchored.
      destruct (wf_registered _ W k c Hin) as (pk & Hpk & _).
      destruct (defaultCore s) as [d|]; [|by rewrite decide_False].
      destruct (decide (d = c)) as [->|Hne].
      * rewrite Hpk, decide_True by done. simpl.
        by destruct (Nat.eq_dec c c).
      * rewrite decide_False by congruence.
        destruct (core_key s d); simpl; [|done]. by destruct (Nat.eq_dec d c).
Qed.

(** Property X11.  The check before replication reads only the options of the
    call.  On a store that was made with [encrypt] set, a call whose options
    leave [encrypt] out passes the check without a default core, and its
    stream is made with [encrypt] set and without a main core. *)
Theorem store_level_encrypt_skips_the_check (o : Opts) (s : Store) (a : ReplicateArg)
    (ro : option Opts) (og : Opts) :
  reachable o s -> truthy_flag (encrypt o) = true -> defaultCore s = None ->
  givenOpts a ro = Some og -> encrypt og = None ->
  exists s' st,
    replicate a ro s = Ok (length (streamHeap s), s') /\
    streamHeap s' !! length (streamHeap s) = Some st /\
    truthy_flag (encrypt (s_opts st)) = true /\ s_anchor st = None.
Proof.
  intros R Ho D Hg He. destruct (reachable_config _ _ R) as [Hopts _].
  rewrite replicate_givenOpts, Hg. unfold replicate_opts. rewrite D, He. simpl.
  rewrite replicate_fold. eexists _, _. split; [done|]. simpl.
  rewrite lookup_app_r, Nat.sub_diag by done. simpl. split; [done|].
  simpl. rewrite He, Hopts. done.
Qed.
End Replicate.

(** ** The callbacks of [_replicateCore] *)

Section ReadyQueue.
Context `{Crypto} `{DatEncoding}.

Lemma get_readyQueue r s c s' t :
  get r s = Ok (c, s') -> t ∈ readyQueue s' ->
  t ∈ readyQueue s \/ exists k, (k, t_core t) ∈ cores s'.
Proof.
  unfold get. destruct (_optsToIndex _ _) as [[i rng']|e]; [|done]. simpl.
  destruct (Map_get _ _) as [ex|] eqn:M; intros [= <- <-]; [|by left].
  rewrite inject_spec. simpl. intros Hin. apply elem_of_app in Hin as [Hin|Hin]; [by left|].
  right. apply list_elem_of_fmap in Hin as (ss & -> & _). simpl.
  apply Map_get_elem in M. eauto.
Qed.

Lemma after_get_readyQueue r s t :
  t ∈ readyQueue (after (get r s) s) ->
  t ∈ readyQueue s \/ exists k, (k, t_core t) ∈ cores (after (get r s) s).
Proof.
  destruct (get r s) as [[c s']|e] eqn:E; simpl; [|by left]. by eapply get_readyQueue.
Qed.

(** A callback that waits after a step waited before it, or belongs to a
    core that is registered. *)
Lemma step_readyQueue l s t :
  wf s -> t ∈ readyQueue (step l s) ->
  t ∈ readyQueue s \/ exists k, (k, t_core t) ∈ cores (step l s).
Proof.
  intros W. destruct l; cbn [step].
  - apply after_get_readyQueue.
  - unfold store_default. destruct (defaultCore s); simpl; [by left|].
    match goal with |- context [get ?r s] => destruct (get r s) as [[c' s'']|e] eqn:E end;
      simpl; [|by left].
    by apply (get_readyQueue _ _ _ _ t E).
  - destruct (replicate _ _ s) as [[m s']|e] eqn:E; simpl; [|by left].
    rewrite replicate_givenOpts in E.
    destruct (replicate_opts_Ok _ _ _ _ E) as [-> ->]. simpl.
    intros Hin. apply elem_of_app in Hin as [Hin|Hin]; [by left|].
    right. apply list_elem_of_fmap in Hin as ([k c] & -> & Hin). simpl. eauto.
  - destruct (close_frame s) as (_&_&_&_&_&->&_). by left.
  - destruct (coreHeap s !! c) as [co|] eqn:Hc.
    2:{ unfold coreOpened. rewrite Hc. by left. }
    destruct (c_status co) eqn:Hp.
    2,3: unfold coreOpened; rewrite Hc, Hp; by left.
    destruct (coreOpened_pending s c co k W Hc Hp) as (_ & -> & -> & _).
    intros Hin. apply elem_of_app in Hin as [Hin|Hin]; [by left|].
    right. apply list_elem_of_fmap in Hin as (ss & -> & _). simpl.
    eexists. apply Map_get_elem, Map_get_set_eq.
  - unfold coreFailed, errorListener. repeat (case_match; try (by left)).
  - unfold readyCallback, replicateCore_onready, core_replicate. simpl.
    repeat (case_match; try (by left)); simpl; intros Hin; left;
      by apply list_elem_of_delete_inv in Hin.
  - unfold engineAnchor, core_replicate. repeat (case_match; try (by left)).
  - unfold remoteFeed. case_match; [apply after_get_readyQueue|by left].
  - unfold replicate_onclose. repeat (case_match; try (by left)).
  - destruct (stream_destroy_streamsOnly m s) as [_ _ _ _ _ _ E _]. rewrite E. by left.
  - unfold closeCallback, close_onclose, reset. simpl.
    repeat (case_match; try (by left)).
Qed.

Lemma queueOpen_step l s : wf s -> queueOpen s -> queueOpen (step l s).
Proof.
  intros W Q t Hin. destruct (step_readyQueue l s t W Hin) as [Hold|[k Hk]].
  - destruct (Q t Hold) as [pk Hpk]. exists pk.
    unfold core_key in *. destruct (coreHeap s !! t_core t) as [co|] eqn:Hc; [|done].
    destruct (step_coreHeap l s _ _ Hc) as (co' & -> & Ev).
    destruct (c_status co) eqn:Hs; try done. by rewrite (ev_ready _ _ Ev _ Hs).
  - destruct (wf_registered _ (wf_step l s W) k _ Hk) as (pk & Hpk & _). eauto.
Qed.

Lemma queueOpen_reachable o s : reachable o s -> queueOpen s.
Proof.
  intros [ls ->].
  assert (G : forall s0, wf s0 -> queueOpen s0 -> queueOpen (run ls s0)).
  { induction ls as [|l ls IH]; intros s0 W Q; [done|]. simpl.
    apply IH; [by apply wf_step|by apply queueOpen_step]. }
  apply G; [apply wf_init|]. intros t Hin. simpl in Hin. by apply not_elem_of_nil in Hin.
Qed.

(** What running a callback of an open core does. *)
Lemma readyCallback_open s i t :
  readyQueue s !! i = Some t -> is_Some (core_key s (t_core t)) ->
  let s' := readyCallback i s in
  readyQueue s' = delete i (readyQueue s) /\ cores s' = cores s /\
  replicationStreams s' = replicationStreams s /\ coreHeap s' = coreHeap s.
Proof.
  intros Hi [pk Hpk]. apply core_key_status in Hpk. unfold core_status in Hpk.
  cbv zeta. unfold readyCallback, replicateCore_onready, core_replicate.
  rewrite Hi, Hpk. simpl. by repeat case_match.
Qed.

(** Property X12.  Every callback the store hands to [core.ready] belongs to a
    core that is open already and to a stream that exists, so none of them is
    ever called with an error: when the engine runs it, it leaves the queue,
    and its core is on its stream exactly once, unless the stream was
    destroyed in the meantime: then the stream stays without feeds. *)
Theorem ready_callbacks_never_fail (o : Opts) (s : Store) (i : nat) (t : ReadyTask) :
  reachable o s -> readyQueue s !! i = Some t ->
  (exists pk, core_status s (t_core t) = Some (Ready pk)) /\
  exists st, streamHeap s !! t_stream t = Some st /\
  let s' := step (ReadyCallback i) s in
  readyQueue s' = delete i (readyQueue s) /\
  attachCount (t_core t) (t_stream t) s' = if destroyed st then 0 else 1.
Proof.
  intros R Hi. pose proof (wf_reachable _ _ R) as W.
  assert (Hin : t ∈ readyQueue s) by by eapply list_elem_of_lookup_2.
  destruct (queueOpen_reachable _ _ R t Hin) as [pk Hpk].
  split; [exists pk; by apply core_key_status|].
  assert (Hm : is_Some (streamHeap s !! t_stream t)).
  { apply lookup_lt_is_Some, (wf_queue _ W). done. }
  destruct Hm as [st Hm]. exists st. split; [done|]. cbv zeta. cbn [step].
  destruct (readyCallback_open s i t Hi (ex_intro _ pk Hpk)) as (Hq & _).
  split; [done|]. apply (readyCallback_attach s i t st pk W Hi Hpk Hm).
Qed.

Lemma drainReady_run n s :
  wf s -> queueOpen s -> n <= length (readyQueue s) ->
  let s' := run (drainReady n) s in
  wf s' /\ readyQueue s' = drop n (readyQueue s) /\ cores s' = cores s /\
  replicationStreams s' = replicationStreams s /\ coreHeap s' = coreHeap s.
Proof.
  revert s. induction n as [|n IH]; intros s W Q Hn; cbv zeta.
  - simpl. by rewrite drop_0.
  - change (drainReady (S n)) with (ReadyCallback 0 :: drainReady n).
    change (run (ReadyCallback 0 :: drainReady n) s)
      with (run (drainReady n) (step (ReadyCallback 0) s)).
    destruct (readyQueue s) as [|t q] eqn:Eq; [simpl in Hn; lia|].
    assert (Hi : readyQueue s !! 0 = Some t) by by rewrite Eq.
    assert (Hk : is_Some (core_key s (t_core t))).
    { apply Q. rewrite Eq. apply list_elem_of_here. }
    destruct (readyCallback_open s 0 t Hi Hk) as (Hq & Hc & Hr & Hh).
    rewrite Eq in Hq. simpl in Hq.
    destruct (IH (step (ReadyCallback 0) s)) as (W' & Hq' & Hc' & Hr' & Hh').
    + by apply wf_step.
    + by apply queueOpen_step.
    + cbn [step]. rewrite Hq. simpl in Hn. lia.
    + cbn [step] in *. rewrite Hq in Hq'. simpl.
      split; [done|]. split; [done|]. split; [congruence|]. split; congruence.
Qed.

(** Property X13.  Once the engine has run the callbacks that wait in
    [core.ready], every core in the registry is on every active session,
    exactly once; registry and session list are as they were. *)
Theorem ready_callbacks_attach_everything (o : Opts) (s : Store) :
  reachable o s ->
  let s' := run (drainReady (length (readyQueue s))) s in
  readyQueue s' = [] /\ cores s' = cores s /\
  replicationStreams s' = replicationStreams s /\
  forall k c m, (k, c) ∈ cores s -> active m s -> attachCount c m s' = 1.
Proof.
  intros R. pose proof (wf_reachable _ _ R) as W. cbv zeta.
  destruct (drainReady_run (length (readyQueue s)) s W (queueOpen_reachable _ _ R))
    as (W' & Hq & Hc & Hr & _); [done|].
  rewrite drop_all in Hq. split; [done|]. split; [done|]. split; [done|].
  intros k c m Hk Ha. unfold active in Ha.
  apply list_elem_of_fmap in Ha as (ss & -> & Hin).
  apply attachCount_attached; [done|].
  rewrite <- Hc in Hk. rewrite <- Hr in Hin.
  destruct (wf_wired _ W' k c ss Hk Hin) as [Hat|(t & Ht & _)]; [done|].
  rewrite Hq in Ht. by apply not_elem_of_nil in Ht.
Qed.
End ReadyQueue.

(** ** [getInfo] over time *)

Section Info.
Context `{Crypto} `{DatEncoding}.
















End Info.

(** ** Storage directories *)

Lemma string_length_append (a b : string) :
  String.length (a +:+ b) = String.length a + String.length b.
Proof. induction a as [|x a IH]; simpl; [done|]. by rewrite IH. Qed.

Lemma sharded_neq t : sharded t <> t.
Proof.
  intros E. apply (f_equal String.length) in E. unfold sharded in E.
  rewrite !string_length_append in E. simpl in E. lia.
Qed.

Section Storage.
Context `{Crypto} `{DatEncoding}.

Lemma optsToIndex_byKey o rng X b :
  opt_key o = Some X -> truthy_arg X = true -> toBuffer X = Ok b ->
  _optsToIndex o rng = Ok (mkIndex (IBuf (crypto_discoveryKey b)) (Some X) None, rng).
Proof.
  intros Hk Ht Hb. rewrite optsToIndex_keyed.
  - unfold keyedIndex, key_or. rewrite Hk. simpl. rewrite ?Ht, Hb. simpl. by rewrite ?Ht.
  - unfold keyless. rewrite Hk. simpl. rewrite Ht. by intros (_ & ? & _).
  - unfold keyless. rewrite Hk. simpl. rewrite Ht. by intros (_ & ? & _).
Qed.

(** What [get] does when the index string is not in the registry. *)
Lemma get_unregistered r s i rng' :
  _optsToIndex (requestOpts r) (rng s) = Ok (i, rng') ->
  Map_get (idxString (idx i)) (cores s) = None ->
  get r s = Ok (length (coreHeap s),
                set_coreHeap (coreHeap s ++ [newCore (idxString (idx i)) i (requestOpts r)])
                             (set_rng rng' s)).
Proof. intros Hi Hm. unfold get. rewrite Hi. simpl. by rewrite Hm. Qed.

Lemma madeBy_get_unregistered r s i rng' :
  _optsToIndex (requestOpts r) (rng s) = Ok (i, rng') ->
  Map_get (idxString (idx i)) (cores s) = None ->
  madeBy (get r s) = Some (newCore (idxString (idx i)) i (requestOpts r)).
Proof.
  intros Hi Hm. rewrite (get_unregistered _ _ _ _ Hi Hm). simpl.
  by rewrite lookup_app_r, Nat.sub_diag.
Qed.

(** Property X15.  A log asked for by its key and the same log asked for by
    its discovery key live in the same directory, the sharded text of the
    discovery key.  By key the engine gets the key and may create the log; by
    discovery key it gets no key and must find the log on disk. *)
Theorem key_and_discovery_key_share_storage (s : Store) (X Y : KeyArg) (b : Buffer) :
  truthy_arg X = true -> toBuffer X = Ok b ->
  truthy_arg Y = true -> toBuffer Y = Ok (crypto_discoveryKey b) ->
  Map_get (encode (crypto_discoveryKey b)) (cores s) = None ->
  encode (crypto_discoveryKey b) <> "default" ->
  exists co1 co2,
    madeBy (get (keyOnly X) s) = Some co1 /\
    madeBy (get (discoveryOnly Y) s) = Some co2 /\
    c_storageRoot co1 = sharded (encode (crypto_discoveryKey b)) /\
    c_storageRoot co2 = c_storageRoot co1 /\
    c_ctorKey co1 = Some X /\ c_createIfMissing co1 = true /\
    c_ctorKey co2 = None /\ c_createIfMissing co2 = false.
Proof.
  intros HX Hb HY Hd Hm Hne.
  assert (Hs : String.eqb (encode (crypto_discoveryKey b)) "default" = false).
  { by apply String.eqb_neq. }
  assert (I1 : _optsToIndex (requestOpts (keyOnly X)) (rng s)
               = Ok (mkIndex (IBuf (crypto_discoveryKey b)) (Some X) None, rng s)).
  { by apply optsToIndex_byKey. }
  assert (I2 : _optsToIndex (requestOpts (discoveryOnly Y)) (rng s)
               = Ok (mkIndex (IBuf (crypto_discoveryKey b)) None None, rng s)).
  { by apply optsToIndex_discoveryOnly. }
  eexists _, _. split; [|split].
  - by apply (madeBy_get_unregistered _ _ _ _ I1).
  - by apply (madeBy_get_unregistered _ _ _ _ I2).
  - simpl. unfold storageRootOf. simpl. rewrite Hs, HY. done.
Qed.

(** Property X16.  A name given together with a key does not change the index,
    which is still the discovery key, but it changes the directory: with the
    name the log is stored under the unsharded text of the discovery key,
    without it under the sharded one.  The two requests name the same log and
    the same registry slot, and two different places on disk. *)
Theorem name_with_key_moves_the_storage (s : Store) (n : string) (X : KeyArg) (b : Buffer) :
  truthy_string n = true -> truthy_arg X = true -> toBuffer X = Ok b ->
  Map_get (encode (crypto_discoveryKey b)) (cores s) = None ->
  encode (crypto_discoveryKey b) <> "default" ->
  indexKey (requestOpts (nameAndKey n X)) (rng s)
    = indexKey (requestOpts (keyOnly X)) (rng s) /\
  exists co1 co2,
    madeBy (get (keyOnly X) s) = Some co1 /\
    madeBy (get (nameAndKey n X) s) = Some co2 /\
    c_storageRoot co1 = sharded (encode (crypto_discoveryKey b)) /\
    c_storageRoot co2 = encode (crypto_discoveryKey b) /\
    c_storageRoot co1 <> c_storageRoot co2 /\
    c_ctorKey co1 = c_ctorKey co2.
Proof.
  intros Hn HX Hb Hm Hne.
  assert (Hs : String.eqb (encode (crypto_discoveryKey b)) "default" = false).
  { by apply String.eqb_neq. }
  assert (I1 : _optsToIndex (requestOpts (keyOnly X)) (rng s)
               = Ok (mkIndex (IBuf (crypto_discoveryKey b)) (Some X) None, rng s)).
  { by apply optsToIndex_byKey. }
  assert (I2 : _optsToIndex (requestOpts (nameAndKey n X)) (rng s)
               = Ok (mkIndex (IBuf (crypto_discoveryKey b)) (Some X) None, rng s)).
  { by apply optsToIndex_byKey. }
  split; [unfold indexKey; by rewrite I1, I2|].
  eexists _, _. split; [|split].
  - by apply (madeBy_get_unregistered _ _ _ _ I1).
  - by apply (madeBy_get_unregistered _ _ _ _ I2).
  - simpl. unfold storageRootOf. simpl. rewrite Hs, Hn. simpl.
    split; [done|]. split; [done|]. split; [apply sharded_neq|done].
Qed.

Lemma optsToIndex_IStr o rng i rng' t :
  _optsToIndex o rng = Ok (i, rng') -> idx i = IStr t ->
  rng' = rng /\ (t = "default" \/ truthy_name (opt_name o) = true).
Proof.
  unfold _optsToIndex. cbv zeta.
  assert (K : keyedIndex o rng = Ok (i, rng') -> idx i = IStr t -> False).
  { unfold keyedIndex, freshIndex.
    repeat case_match; intros; simplify_eq; simpl in *; done. }
  destruct (opt_default o && _).
  { intros [= <- <-]. simpl. intros [= <-]. by split; [|left]. }
  destruct (opt_name o) as [n|]; [|by intros A B; destruct (K A B)]. simpl.
  destruct (truthy_string n) eqn:Hn; simpl; [|by intros A B; destruct (K A B)].
  destruct (negb _ && _); [|by intros A B; destruct (K A B)].
  intros [= <- <-]. simpl. intros [= <-]. by split; [|right].
Qed.

(** Property X17.  The registry holds cores under the text of their keys only.
    A request that is indexed by a name or by the marker ["default"] (text
    that is no encoding of a key) therefore never finds a core, however often
    it was made and whether or not its log is open: every such call makes a
    new handle, over the same directory. *)
Theorem get_by_name_always_makes_a_handle (o : Opts) (s : Store) (r : Request) (t : string) :
  reachable o s -> indexKey (requestOpts r) (rng s) = Ok (IStr t) ->
  (forall b, encode b <> t) ->
  exists s' co,
    get r s = Ok (length (coreHeap s), s') /\
    coreHeap s' = coreHeap s ++ [co] /\ cores s' = cores s /\
    c_storageRoot co = t /\ c_status co = Pending.
Proof.
  intros R Hi Hne. pose proof (wf_reachable _ _ R) as W.
  unfold indexKey in Hi.
  destruct (_optsToIndex (requestOpts r) (rng s)) as [[i rng']|e] eqn:E; [|done].
  injection Hi as Hi.
  destruct (optsToIndex_IStr _ _ _ _ _ E Hi) as [-> Hor].
  assert (Hm : Map_get (idxString (idx i)) (cores s) = None).
  { rewrite Hi. simpl. destruct (Map_get t (cores s)) as [c|] eqn:M; [|done].
    apply Map_get_elem in M. destruct (wf_registered _ W _ _ M) as (pk & _ & [Hk|Hk]);
      symmetry in Hk; by apply Hne in Hk. }
  eexists _, _. split; [by apply (get_unregistered _ _ _ _ E)|].
  simpl. split; [done|]. split; [done|]. split; [|done].
  rewrite Hi. simpl. unfold storageRootOf.
  destruct Hor as [Hd|Hn]; [by rewrite Hd|]. by rewrite Hn, andb_false_r.
Qed.
End Storage.

(** ** [feed] events *)

Section FeedEvents.
Context `{Crypto} `{DatEncoding}.

Lemma opened_same s s' : coreHeap s' = coreHeap s -> openedBefore s s'.
Proof. intros E c co' pk Hc Hs. rewrite E in Hc. eauto. Qed.

Lemma opened_trans a b c : openedBefore a b -> openedBefore b c -> openedBefore a c.
Proof.
  intros Hab Hbc i co' pk Hc Hs.
  destruct (Hbc i co' pk Hc Hs) as (co1 & Hc1 & Hs1 & Ho1).
  destruct (Hab i co1 pk Hc1 Hs1) as (co0 & Hc0 & Hs0 & Ho0).
  exists co0. split; [done|]. split; [done|]. congruence.
Qed.

Lemma opened_app s s' co0 :
  coreHeap s' = coreHeap s ++ [co0] -> c_status co0 = Pending -> openedBefore s s'.
Proof.
  intros E Hp c co' pk Hc Hs. rewrite E in Hc.
  apply lookup_app_Some in Hc as [Hc|[_ Hc]]; [eauto|].
  apply list_lookup_singleton_Some in Hc as [_ <-]. congruence.
Qed.

Lemma opened_updCore s c0 f :
  (forall co, c_coreOpts (f co) = c_coreOpts co) ->
  (forall co pk, c_status (f co) = Ready pk -> c_status co = Ready pk) ->
  openedBefore s (updCore c0 f s).
Proof.
  intros Ho Hr c co' pk Hc Hs. rewrite coreHeap_updCore in Hc.
  destruct (decide (c0 = c)) as [->|Hne]; [|eauto].
  destruct (coreHeap s !! c) as [co|]; [|done]. simpl in Hc. injection Hc as <-.
  exists co. split; [done|]. split; [by apply Hr|]. by rewrite Ho.
Qed.

Lemma get_opened r s c s' :
  get r s = Ok (c, s') -> feedEvents s' = feedEvents s /\ openedBefore s s'.
Proof.
  unfold get. destruct (_optsToIndex _ _) as [[i rng']|e]; [|done]. simpl.
  destruct (Map_get _ _); intros [= <- <-].
  - rewrite inject_spec. split; [done|]. by apply opened_same.
  - split; [done|]. by eapply opened_app.
Qed.

Lemma after_get_opened r s :
  feedEvents (after (get r s) s) = feedEvents s /\ openedBefore s (after (get r s) s).
Proof.
  destruct (get r s) as [[c s']|e] eqn:E; simpl; [by eapply get_opened|].
  split; [done|]. by apply opened_same.
Qed.

Lemma coreOpened_other c k s c' :
  c' <> c -> coreHeap (coreOpened c k s) !! c' = coreHeap s !! c'.
Proof.
  intros Hne. unfold coreOpened, onready.
  repeat (case_match; try done); rewrite ?inject_spec; simpl;
    by rewrite ?list_lookup_alter_ne.
Qed.

Lemma closeQueue_fold_feedEvents call (l : JsMap) s :
  feedEvents (fold_left (fun s '(_, core) =>
               if core_isClosed s core then s
               else set_closeQueue (closeQueue s ++ [mkCloseTask core call]) s) l s)
  = feedEvents s.
Proof.
  revert s. induction l as [|[k c] l IH]; intros s; simpl; [done|].
  destruct (core_isClosed s c); by rewrite IH.
Qed.

Lemma close_feedEvents s : feedEvents (snd (close s)) = feedEvents s.
Proof.
  unfold close. cbn [snd]. rewrite closeQueue_fold_feedEvents.
  by rewrite (so_feedEvents _ _ (destroyLoop_streamsOnly _ _ _)).
Qed.

(** A step emits no ['feed'] and opens no core, unless it is the ['ready']
    of a pending core. *)
Lemma step_opened l s :
  (feedEvents (step l s) = feedEvents s /\ openedBefore s (step l s)) \/
  (exists c k co, l = CoreOpened c k /\ coreHeap s !! c = Some co /\
                  c_status co = Pending).
Proof.
  destruct l; cbn [step].
  - left. apply after_get_opened.
  - left. unfold store_default. destruct (defaultCore s); simpl.
    { split; [done|]. by apply opened_same. }
    match goal with |- context [get ?r s] => destruct (get r s) as [[c' s'']|e] eqn:E end;
      simpl.
    + destruct (get_opened _ _ _ _ E) as [E1 E2]. split; [done|].
      intros c co' pk Hc. apply E2. exact Hc.
    + split; [done|]. by apply opened_same.
  - left. destruct (replicate _ _ s) as [[m s']|e] eqn:E; simpl.
    + rewrite replicate_givenOpts in E.
      destruct (replicate_opts_Ok _ _ _ _ E) as [-> ->]. split; [done|].
      by apply opened_same.
    + split; [done|]. by apply opened_same.
  - left. split; [apply close_feedEvents|].
    apply opened_same. by destruct (close_frame s) as (_&->&_).
  - destruct (coreHeap s !! c) as [co|] eqn:Hc.
    2:{ left. unfold coreOpened. rewrite Hc. split; [done|]. by apply opened_same. }
    destruct (c_status co) eqn:Hp.
    + right. eauto 6.
    + left. unfold coreOpened. rewrite Hc, Hp. split; [done|]. by apply opened_same.
    + left. unfold coreOpened. rewrite Hc, Hp. split; [done|]. by apply opened_same.
  - left. unfold coreFailed.
    destruct (coreHeap s !! c) as [co|] eqn:Hc; [|by split; [|apply opened_same]].
    destruct (c_status co) eqn:Hp; try (by split; [|apply opened_same]).
    assert (E1 : openedBefore s (updCore c (set_status Errored) s)).
    { by apply opened_updCore. }
    destruct (c_errorListener co); [|by split].
    split; [done|]. unfold errorListener.
    eapply opened_trans; [exact E1|].
    eapply opened_trans; apply opened_updCore; try done.
    + intros co0. by destruct (truthy_key _).
    + intros co0 pk. by destruct (truthy_key _).
  - left. unfold readyCallback, replicateCore_onready. simpl.
    repeat case_match; by split; [|apply opened_same].
  - left. unfold engineAnchor. repeat case_match; by split; [|apply opened_same].
  - left. unfold remoteFeed. case_match; [apply after_get_opened|].
    by split; [|apply opened_same].
  - left. unfold replicate_onclose. repeat case_match; by split; [|apply opened_same].
  - left. destruct (stream_destroy_streamsOnly m s) as [_ _ _ _ E1 _ _ _ E2 _].
    split; [done|]. by apply opened_same.
  - left. unfold closeCallback.
    destruct (closeQueue s !! i) as [ct|]; [|by split; [|apply opened_same]].
    assert (Hx : forall s', coreHeap (close_onclose (ct_call ct) err s') = coreHeap s' /\
                            feedEvents (close_onclose (ct_call ct) err s') = feedEvents s').
    { intros s'. unfold close_onclose, reset. simpl. by repeat case_match. }
    cbv zeta. split; [by rewrite (proj2 (Hx _)); destruct err|].
    destruct err as [e|].
    + apply opened_same. by rewrite (proj1 (Hx _)).
    + eapply opened_trans; [|apply opened_same, (proj1 (Hx _))].
      by apply (opened_updCore (set_closeQueue (delete i (closeQueue s)) s)).
Qed.

Lemma feedLog_step l s : wf s -> feedLog s -> feedLog (step l s).
Proof.
  intros W [F1 F2 F3].
  destruct (step_opened l s) as [[E B]|(c & k & co & -> & Hc & Hp)].
  - constructor.
    + by rewrite E.
    + rewrite E. intros c o Hin. destruct (F2 c o Hin) as (co & pk & Hc & Ho & Hs).
      destruct (step_coreHeap l s c co Hc) as (co' & Hc' & Ev).
      exists co', pk. split; [done|]. split; [by rewrite (ev_opts _ _ Ev)|].
      by apply (ev_ready _ _ Ev).
    + rewrite E. intros c co' pk Hc' Hs'.
      destruct (B c co' pk Hc' Hs') as (co & Hc & Hs & Ho). rewrite <- Ho. by eapply F3.
  - cbn [step].
    destruct (coreOpened_pending s c co k W Hc Hp) as (Hk & _ & _ & _ & _ & Hf).
    assert (Hnew : c ∉ map fst (feedEvents s)).
    { intros Hin. apply list_elem_of_fmap in Hin as ([c' o'] & -> & Hin).
      destruct (F2 _ _ Hin) as (co0 & pk & Hc0 & _ & Hs0). simpl in Hc.
      rewrite Hc in Hc0. injection Hc0 as <-. congruence. }
    destruct (step_coreHeap (CoreOpened c k) s c co Hc) as (co1 & Hc1 & Ev1).
    cbn [step] in Hc1.
    constructor.
    + rewrite Hf, map_app. simpl. apply NoDup_app. split; [done|]. split.
      * intros x Hx Hx'. apply list_elem_of_singleton in Hx'. by subst x.
      * apply NoDup_singleton.
    + rewrite Hf. intros c' o Hin. apply elem_of_app in Hin as [Hin|Hin].
      * destruct (F2 c' o Hin) as (co0 & pk & Hc0 & Ho & Hs).
        destruct (step_coreHeap (CoreOpened c k) s c' co0 Hc0) as (co' & Hc' & Ev).
        exists co', pk. split; [done|]. split; [by rewrite (ev_opts _ _ Ev)|].
        by apply (ev_ready _ _ Ev).
      * apply list_elem_of_singleton in Hin. injection Hin as -> ->.
        apply core_key_status in Hk. unfold core_status in Hk. rewrite Hc1 in Hk.
        simpl in Hk. injection Hk as Hk.
        exists co1, (openedKey co k). split; [done|]. split; [apply (ev_opts _ _ Ev1)|done].
    + rewrite Hf. intros c' co' pk Hc' Hs'. apply elem_of_app.
      destruct (decide (c' = c)) as [->|Hne].
      * right. rewrite Hc1 in Hc'. injection Hc' as <-.
        rewrite (ev_opts _ _ Ev1). by apply list_elem_of_singleton.
      * left. rewrite coreOpened_other in Hc' by done. by eapply F3.
Qed.

Lemma feedLog_reachable o s : reachable o s -> feedLog s.
Proof.
  intros [ls ->].
  assert (G : forall s0, wf s0 -> feedLog s0 -> feedLog (run ls s0)).
  { induction ls as [|l ls IH]; intros s0 W F; [done|]. simpl.
    apply IH; [by apply wf_step|by apply feedLog_step]. }
  apply G; [apply wf_init|]. constructor; simpl.
  - apply NoDup_nil_2.
  - intros c o' Hin. by apply not_elem_of_nil in Hin.
  - intros c co pk Hc. by rewrite lookup_nil in Hc.
Qed.

(** Property X18.  The store emits ['feed'] exactly once for every core that
    opens, when it opens, with the options the core was asked for, and never
    for a core that is pending or failed.  Every core in the registry, and so
    every core [list] shows, was announced. *)
Theorem feed_event_once_per_open_core (o : Opts) (s : Store) (c : nat) :
  reachable o s ->
  count_occ Nat.eq_dec (map fst (feedEvents s)) c <= 1 /\
  ((exists pk, core_status s c = Some (Ready pk)) <-> c ∈ map fst (feedEvents s)) /\
  (forall co, (c, co) ∈ feedEvents s -> c_coreOpts <$> coreHeap s !! c = Some co) /\
  ((exists k, (k, c) ∈ list_ s) -> c ∈ map fst (feedEvents s)).
Proof.
  intros R. pose proof (wf_reachable _ _ R) as W.
  destruct (feedLog_reachable _ _ R) as [F1 F2 F3].
  assert (Hopen : (exists pk, core_status s c = Some (Ready pk)) ->
                  c ∈ map fst (feedEvents s)).
  { intros [pk Hs]. unfold core_status in Hs.
    destruct (coreHeap s !! c) as [co|] eqn:Hc; [|done]. simpl in Hs. injection Hs as Hs.
    apply list_elem_of_fmap. exists (c, c_coreOpts co). split; [done|]. by eapply F3. }
  split; [|split; [|split]].
  - apply NoDup_ListNoDup in F1. by apply (proj1 (List.NoDup_count_occ Nat.eq_dec _) F1).
  - split; [done|]. intros Hin. apply list_elem_of_fmap in Hin as ([c' o'] & -> & Hin).
    destruct (F2 _ _ Hin) as (co & pk & Hc & _ & Hs). exists pk.
    unfold core_status. simpl. by rewrite Hc, <- Hs.
  - intros co Hin. destruct (F2 _ _ Hin) as (co0 & pk & Hc & Ho & _).
    by rewrite Hc, <- Ho.
  - intros [k Hk]. apply Hopen.
    destruct (wf_registered _ W k c Hk) as (pk & Hpk & _).
    exists pk. by apply core_key_status.
Qed.
End FeedEvents.

(** ** A [close] with failing cores *)

Section CloseErrors.
Context `{Crypto} `{DatEncoding}.

Lemma answer_step call s i a k r :
  (forall ct, ct ∈ closeQueue s -> ct_call ct = call) ->
  length (closeQueue s) = k -> i < k -> closeCalls s !! call = Some r ->
  let s' := step (CloseCallback i a) s in
  (forall ct, ct ∈ closeQueue s' -> ct_call ct = call) /\
  length (closeQueue s') = k - 1 /\
  match a with
  | Some e =>
      closeCalls s' !! call = Some r /\
      callbacks s' = callbacks s ++ [(call, Some e)] /\
      cores s' = [] /\ replicationStreams s' = []
  | None =>
      closeCalls s' !! call = Some (r - 1)%Z /\
      ((r - 1)%Z <> 0%Z ->
       callbacks s' = callbacks s /\ cores s' = cores s /\
       replicationStreams s' = replicationStreams s)
  end.
Proof.
  intros Hq Hk Hi Hr. cbv zeta. cbn [step]. unfold closeCallback.
  assert (is_Some (closeQueue s !! i)) as [ct Hct].
  { apply lookup_lt_is_Some. lia. }
  rewrite Hct. cbv zeta.
  assert (Hcall : ct_call ct = call).
  { apply Hq. by eapply list_elem_of_lookup_2. }
  rewrite Hcall.
  assert (Hdel : forall ct', ct' ∈ delete i (closeQueue s) -> ct_call ct' = call).
  { intros ct' Hin. apply Hq. by eapply list_elem_of_delete_inv. }
  assert (Hlen : length (delete i (closeQueue s)) = k - 1).
  { rewrite length_delete by eauto. lia. }
  destruct a as [e|].
  - unfold close_onclose, reset. simpl. done.
  - unfold close_onclose. cbv zeta.
    set (s1 := set_closeCalls _ _).
    assert (Hr1 : closeCalls s1 !! call = Some (r - 1)%Z).
    { unfold s1. simpl. by rewrite list_lookup_alter_eq, Hr. }
    rewrite Hr1. destruct (r - 1)%Z as [|p|p] eqn:E.
    + unfold reset. simpl. split; [done|]. split; [done|]. split; [done|]. intros ?. lia.
    + split; [done|]. split; [done|]. split; [exact Hr1|]. intros _. done.
    + split; [done|]. split; [done|]. split; [exact Hr1|]. intros _. done.
Qed.

Lemma omap_errors_nil call order :
  failed order = false -> errorsOf call order = [].
Proof.
  induction order as [|[i [e|]] order IH]; simpl; [done|done|]. intros Hf. by apply IH.
Qed.

Lemma answers_run call order :
  forall s k r,
  (forall ct, ct ∈ closeQueue s -> ct_call ct = call) ->
  length (closeQueue s) = k -> closeCalls s !! call = Some r ->
  validOrder (map fst order) k ->
  (Z.of_nat k < r)%Z \/ (r = Z.of_nat k /\ failed order = true) ->
  let s' := run (answers order) s in
  callbacks s' = callbacks s ++ errorsOf call order /\
  (failed order = true -> cores s' = [] /\ replicationStreams s' = []).
Proof.
  induction order as [|[i a] order IH]; intros s k r Hq Hk Hr Hv Hor; cbv zeta.
  - simpl. rewrite app_nil_r. split; [done|]. done.
  - simpl in Hv. destruct Hv as [Hi Hv].
    change (run (answers ((i, a) :: order)) s)
      with (run (answers order) (step (CloseCallback i a) s)).
    destruct (answer_step call s i a k r Hq Hk Hi Hr) as (Hq' & Hk' & Ha).
    set (s1 := step (CloseCallback i a) s) in *.
    destruct a as [e|].
    + destruct Ha as (Hr' & Hcb & Hc & Hrs).
      assert (Hgt : (Z.of_nat (k - 1) < r)%Z).
      { destruct Hor as [?|[-> _]]; lia. }
      destruct (IH s1 (k - 1) r Hq' Hk' Hr' Hv (or_introl Hgt)) as (IH1 & IH2).
      cbv zeta in IH1, IH2. split.
      * rewrite IH1, Hcb. simpl. by rewrite <- app_assoc.
      * intros _. destruct (failed order) eqn:Hf; [by apply IH2|].
        clear IH1 IH2 IH.
        assert (G : forall order' s0 k0 r0,
                  failed order' = false ->
                  (forall ct, ct ∈ closeQueue s0 -> ct_call ct = call) ->
                  length (closeQueue s0) = k0 -> closeCalls s0 !! call = Some r0 ->
                  validOrder (map fst order') k0 -> (Z.of_nat k0 < r0)%Z ->
                  cores (run (answers order') s0) = cores s0 /\
                  replicationStreams (run (answers order') s0) = replicationStreams s0).
        { induction order' as [|[j [e'|]] order' IH']; intros s0 k0 r0 F Q0 K0 R0 V0 G0;
            [done|done|].
          simpl in V0. destruct V0 as [Hj V0]. simpl in F.
          change (run (answers ((j, None) :: order')) s0)
            with (run (answers order') (step (CloseCallback j None) s0)).
          destruct (answer_step call s0 j None k0 r0 Q0 K0 Hj R0) as (Q1 & K1 & R1 & Fr).
          destruct Fr as (_ & Fc & Frs); [lia|].
          destruct (IH' _ (k0 - 1) (r0 - 1)%Z F Q1 K1 R1 V0) as [-> ->]; [lia|].
          done. }
        destruct (G order s1 (k - 1) r Hf Hq' Hk' Hr' Hv Hgt) as [-> ->]. done.
    + destruct Ha as (Hr' & Hfr).
      assert (Hor' : (Z.of_nat (k - 1) < r - 1)%Z \/
                     ((r - 1)%Z = Z.of_nat (k - 1) /\ failed order = true)).
      { destruct Hor as [?|[-> Hf]]; [left; lia|]. right. simpl in Hf. split; [lia|done]. }
      assert (Hk2 : 2 <= k \/ (Z.of_nat k < r)%Z).
      { destruct Hor as [?|[-> Hf]]; [by right|]. left. simpl in Hf.
        destruct order as [|[j b] order]; [done|]. simpl in Hv. lia. }
      destruct Hfr as (Hcb & Hc & Hrs); [lia|].
      destruct (IH s1 (k - 1) (r - 1)%Z Hq' Hk' Hr' Hv Hor') as (IH1 & IH2).
      cbv zeta in IH1, IH2. split.
      * rewrite IH1, Hcb. done.
      * simpl. exact IH2.
Qed.

(** Property X19.  [close] fails fast and may call back more than once.  When
    the cores answer and at least one answers with an error, the callback runs
    once for every error, with that error, at the moment the error arrives and
    without waiting for the other cores; it never runs with [null]; and
    registry and session list are emptied. *)
Theorem close_calls_back_for_every_error (s : Store) (order : list (nat * option Error)) :
  closeQueue s = [] ->
  (forall k c, (k, c) ∈ cores s -> core_isClosed s c = false) ->
  validOrder (map fst order) (length (cores s)) ->
  failed order = true ->
  let s' := run (answers order) (snd (close s)) in
  callbacks s' = callbacks s ++ errorsOf (fst (close s)) order /\
  cores s' = [] /\ replicationStreams s' = [].
Proof.
  intros Hq Hopen Hv Hf. cbv zeta.
  destruct (close_frame s) as (Hcall & _ & _ & _ & _ & _ & Hcb & Hcc & Hcq).
  cbv zeta in Hcb, Hcc, Hcq. rewrite Hq, app_nil_l in Hcq.
  assert (Hfil : List.filter (fun e => negb (core_isClosed s (snd e))) (cores s) = cores s).
  { rewrite (List.filter_ext_in _ (fun _ => true)); [apply List.filter_true|].
    intros [k c] Hin. simpl. apply list_elem_of_In in Hin. by rewrite (Hopen k c Hin). }
  rewrite Hfil in Hcq.
  destruct (answers_run (fst (close s)) order (snd (close s)) (length (cores s))
              (Map_size (cores s))) as (A1 & A2).
  - intros ct Hin. rewrite Hcq in Hin. apply list_elem_of_fmap in Hin as (e & -> & _).
    by rewrite Hcall.
  - by rewrite Hcq, length_map.
  - rewrite Hcc, Hcall. by rewrite lookup_app_r, Nat.sub_diag.
  - done.
  - right. done.
  - cbv zeta in A1, A2. rewrite A1, Hcb. split; [done|]. by apply A2.
Qed.
End CloseErrors.

(** ** What changes the registry; remote announcements *)

Section Frames.
Context `{Crypto} `{DatEncoding}.

Lemma get_cores r s c s' : get r s = Ok (c, s') -> cores s' = cores s.
Proof.
  unfold get. destruct (_optsToIndex _ _) as [[i rng']|e]; [|done]. simpl.
  destruct (Map_get _ _); intros [= <- <-]; by rewrite ?inject_spec.
Qed.

Lemma Map_set_keeps k c m k0 c0 :
  (k0, c0) ∈ m -> (k0, c0) ∈ Map_set k c m \/ (k0, c) ∈ Map_set k c m.
Proof.
  induction m as [|[k2 c2] m IH]; simpl; intros Hm.
  - by apply not_elem_of_nil in Hm.
  - destruct (String.eqb k2 k) eqn:E.
    + apply elem_of_cons in Hm as [Hm|Hm].
      * injection Hm as -> ->. right. apply elem_of_cons. by left.
      * left. apply elem_of_cons. by right.
    + apply elem_of_cons in Hm as [Hm|Hm].
      * left. apply elem_of_cons. by left.
      * destruct (IH Hm) as [?|?]; [left|right]; apply elem_of_cons; by right.
Qed.

(** Property X20.  No call of a method changes what [list] returns.  The
    registry changes in two places only.  When a pending core opens, every key
    stays, with its core or remapped to the core that opened; when an answer
    to [core.close] runs [reset], the registry is emptied. *)
Theorem registry_changes_only_on_ready_and_reset (l : Label) (s : Store) :
  list_ (step l s) = list_ s \/
  (exists c k co, l = CoreOpened c k /\ coreHeap s !! c = Some co /\
                  c_status co = Pending /\
                  forall k0 c0, (k0, c0) ∈ list_ s ->
                    (k0, c0) ∈ list_ (step l s) \/ (k0, c) ∈ list_ (step l s)) \/
  (exists i err, l = CloseCallback i err /\ list_ (step l s) = []).
Proof.
  unfold list_. destruct l; cbn [step].
  - left. destruct (get r s) as [[c s']|e] eqn:E; simpl; [|done]. by eapply get_cores.
  - left. unfold store_default. destruct (defaultCore s); simpl; [done|].
    match goal with |- context [get ?r s] => destruct (get r s) as [[c' s'']|e] eqn:E end;
      simpl; [|done].
    by eapply get_cores.
  - left. destruct (replicate _ _ s) as [[m s']|e] eqn:E; simpl; [|done].
    rewrite replicate_givenOpts in E.
    by destruct (replicate_opts_Ok _ _ _ _ E) as [-> ->].
  - left. by destruct (close_frame s) as (_&_&_&->&_).
  - destruct (coreHeap s !! c) as [co|] eqn:Hc.
    2:{ left. unfold coreOpened. by rewrite Hc. }
    destruct (c_status co) eqn:Hp.
    2,3: left; unfold coreOpened; by rewrite Hc, Hp.
    right. left. exists c, k, co. split; [done|]. split; [done|]. split; [done|].
    intros k0 c0 Hin. unfold coreOpened, onready. rewrite Hc, Hp.
    repeat (case_match; try (by left)); rewrite ?inject_spec; simpl.
    destruct (Map_set_keeps (encode k1) c (cores s) k0 c0 Hin) as [Hin'|Hin'].
    + apply Map_set_keeps. exact Hin'.
    + right. destruct (Map_set_keeps (encode (crypto_discoveryKey k1)) c _ k0 c Hin');
        done.
  - left. unfold coreFailed, errorListener. by repeat case_match.
  - left. unfold readyCallback, replicateCore_onready. simpl. by repeat case_match.
  - left. unfold engineAnchor. by repeat case_match.
  - left. unfold remoteFeed. case_match; [|done].
    match goal with |- context [get ?r s] => destruct (get r s) as [[c s']|e] eqn:E end;
      simpl; [|done].
    by eapply get_cores.
  - left. unfold replicate_onclose. by repeat case_match.
  - left. by rewrite (so_cores _ _ (stream_destroy_streamsOnly m s)).
  - unfold closeCallback, close_onclose, reset. simpl.
    repeat (case_match; try (by left)); simpl; try (by left);
      right; right; by eexists _, _.
Qed.

(** Property X21.  A feed announced by a remote peer is looked up by discovery
    key only.  The announcement changes neither registry nor default core nor
    session list, and emits nothing.  If the key is registered no handle is
    made; otherwise one handle is made, pending, without key and secret key
    and with [createIfMissing] off, and off it stays: a peer cannot make the
    store create a log. *)
Theorem remote_feed_cannot_create_a_log (s : Store) (m : nat) (dkey : Buffer) :
  let s' := step (RemoteFeed m dkey) s in
  list_ s' = list_ s /\ defaultCore s' = defaultCore s /\
  replicationStreams s' = replicationStreams s /\ feedEvents s' = feedEvents s /\
  (coreHeap s' = coreHeap s \/
   Map_get (encode dkey) (cores s) = None /\
   exists co, coreHeap s' = coreHeap s ++ [co] /\
     c_status co = Pending /\ c_ctorKey co = None /\ c_secretKey co = None /\
     c_createIfMissing co = false /\
     forall ls co', coreHeap (run ls s') !! length (coreHeap s) = Some co' ->
       c_createIfMissing co' = false).
Proof.
  cbv zeta. cbn [step]. unfold remoteFeed, list_.
  destruct (streamHeap s !! m) as [st|]; [|by repeat split; try left].
  set (r := ReqOpts _).
  assert (I : _optsToIndex (requestOpts r) (rng s)
              = Ok (mkIndex (IBuf dkey) None None, rng s)).
  { by apply (optsToIndex_discoveryOnly (KBuf dkey) dkey). }
  destruct (Map_get (encode dkey) (cores s)) as [c|] eqn:M.
  - rewrite (get_registered r s _ _ c I M). simpl. rewrite inject_spec. simpl.
    repeat split; try done. by left.
  - rewrite (get_unregistered r s _ _ I M). simpl.
    repeat split; try done. right. split; [done|].
    eexists. split; [done|]. simpl. repeat split; try done.
    intros ls co' Hc'.
    set (s1 := set_coreHeap _ _) in *.
    assert (Hc : coreHeap s1 !! length (coreHeap s)
                 = Some (newCore (encode dkey) (mkIndex (IBuf dkey) None None)
                                 (requestOpts r))).
    { unfold s1. simpl. by rewrite lookup_app_r, Nat.sub_diag. }
    destruct (run_coreHeap ls s1 _ _ Hc) as (co1 & Hc1 & Ev).
    rewrite Hc' in Hc1. injection Hc1 as <-.
    by rewrite (ev_createIfMissing _ _ Ev).
Qed.
End Frames.

(** ** The further properties on the sample store *)

Lemma openTrace_cores : cores (run openTrace newStore) = openRegistry.
Proof. vm_compute. reflexivity. Qed.

Lemma openRegistry_elem k c : (k, c) ∈ openRegistry -> c = 0.
Proof.
  unfold openRegistry. intros Hin.
  repeat (apply elem_of_cons in Hin as [Hin|Hin]; [by injection Hin|]).
  by apply not_elem_of_nil in Hin.
Qed.

Lemma hexEncode_length b : String.length (hexEncode b) = 2 * length b.
Proof. induction b as [|x b IH]; simpl; [done|]. rewrite IH. lia. Qed.

(** X1: a key that is not hexadecimal. *)
Lemma get_throws_iff_undecodable_witness :
  wellFormedRequest (requestOpts (keyOnly (KText "xyz"))) = true /\
  get (keyOnly (KText "xyz")) newStore = Throw DecodeError.
Proof.
  assert (Hw : wellFormedRequest (requestOpts (keyOnly (KText "xyz"))) = true)
    by reflexivity.
  split; [exact Hw|].
  apply (proj2 (get_throws_iff_undecodable (keyOnly (KText "xyz")) newStore DecodeError Hw)).
  split; [reflexivity|]. split.
  - split; intros [Hf _]; discriminate Hf.
  - exists "xyz". split; [reflexivity|]. split; reflexivity.
Defined.

(** X2: the core stays on the stream when the session ends. *)
Lemma attachment_lasts_until_destroy_witness :
  let s := run attachedTrace newStore in
  let s' := run [StreamSignal 0 SigEnd; CallGet (ReqBuffer K1)] s in
  reachable emptyOpts s /\ attachCount 0 0 s = 1 /\
  ((destroyed <$> streamHeap s' !! 0 = Some false /\ attachCount 0 0 s' = 1) \/
   (destroyed <$> streamHeap s' !! 0 = Some true /\ forall c', attachCount c' 0 s' = 0)).
Proof.
  cbv zeta.
  assert (Ha : attachCount 0 0 (run attachedTrace newStore) = 1) by (vm_compute; reflexivity).
  split; [apply reachable_run|]. split; [exact Ha|].
  exact (attachment_lasts_until_destroy emptyOpts (run attachedTrace newStore) 0 0 _
           (reachable_run _ _) Ha).
Defined.

(** X3 for the core of [get(K1)]. *)
Lemma listed_or_attached_is_open_witness :
  let s := run openTrace newStore in
  reachable emptyOpts s /\ (encode K1, 0) ∈ list_ s /\
  exists pk, core_status s 0 = Some (Ready pk).
Proof.
  cbv zeta.
  assert (Hin : (encode K1, 0) ∈ list_ (run openTrace newStore))
    by (vm_compute; apply list_elem_of_here).
  split; [apply reachable_run|]. split; [exact Hin|].
  exact (listed_or_attached_is_open emptyOpts (run openTrace newStore) 0
           (reachable_run _ _)
           (or_introl (ex_intro (fun k => (k, 0) ∈ list_ (run openTrace newStore))
                                (encode K1) Hin))).
Defined.

(** X4 with three sessions: the second one survives [close]. *)
Lemma close_destroys_every_other_session_witness :
  let s := run [plainSession; plainSession; plainSession] newStore in
  let s' := snd (close s) in
  reachable emptyOpts s /\
  replicationStreams s' = odds (replicationStreams s) /\
  (forall ss, ss ∈ evens (replicationStreams s) ->
     exists st, streamHeap s' !! stream ss = Some st /\
                destroyed st = true /\ onclose_closed st = true /\ feeds st = []) /\
  (forall m, m ∉ map stream (evens (replicationStreams s)) ->
     streamHeap s' !! m = streamHeap s !! m).
Proof.
  cbv zeta. split; [apply reachable_run|].
  exact (close_destroys_every_other_session emptyOpts
           (run [plainSession; plainSession; plainSession] newStore) (reachable_run _ _)).
Defined.

(** X5: a second [close] while the first one waits for its last answer. *)
Lemma close_of_closed_cores_never_calls_back_witness :
  let s := run [CallGet (ReqBuffer K1); CoreOpened 0 []; CallClose; CloseCallback 0 None]
               newStore in
  reachable emptyOpts s /\ core_isClosed s 0 = true /\
  closeQueue (snd (close s)) = closeQueue s /\
  forall e, (fst (close s), e) ∉ callbacks (run [CloseCallback 0 None] (snd (close s))).
Proof.
  cbv zeta.
  set (s := run [CallGet (ReqBuffer K1); CoreOpened 0 []; CallClose; CloseCallback 0 None]
                newStore).
  assert (Hc : cores s = openRegistry) by (vm_compute; reflexivity).
  assert (H0 : core_isClosed s 0 = true) by (vm_compute; reflexivity).
  assert (Hall : forall k c, (k, c) ∈ cores s -> core_isClosed s c = true).
  { intros k c Hin. rewrite Hc in Hin. by rewrite (openRegistry_elem k c Hin). }
  destruct (close_of_closed_cores_never_calls_back emptyOpts s (reachable_run _ _) Hall)
    as [Q N].
  split; [apply reachable_run|]. split; [exact H0|]. split; [exact Q|].
  intros e. exact (N _ e).
Defined.

(** X6 for one core, registered under two keys. *)
Lemma close_calls_back_once_witness :
  let s := run openTrace newStore in
  let s' := run (answersOk [0; 0]) (snd (close s)) in
  reachable emptyOpts s /\ closeQueue s = [] /\ cores s = openRegistry /\
  core_isClosed s 0 = false /\ validOrder [0; 0] (length (cores s)) /\
  cores s' = [] /\ replicationStreams s' = [] /\ closeQueue s' = [] /\
  callbacks s' = callbacks s ++ [(fst (close s), None)] /\
  forall k c, (k, c) ∈ cores s -> core_isClosed s' c = true.
Proof.
  cbv zeta.
  set (s := run openTrace newStore).
  assert (Hq : closeQueue s = []) by (vm_compute; reflexivity).
  assert (Hc : cores s = openRegistry) by apply openTrace_cores.
  assert (H0 : core_isClosed s 0 = false) by (vm_compute; reflexivity).
  assert (Hne : cores s <> []) by (rewrite Hc; discriminate).
  assert (Hall : forall k c, (k, c) ∈ cores s -> core_isClosed s c = false).
  { intros k c Hin. rewrite Hc in Hin. by rewrite (openRegistry_elem k c Hin). }
  assert (Hv : validOrder [0; 0] (length (cores s))).
  { rewrite Hc. simpl. lia. }
  split; [apply reachable_run|]. split; [exact Hq|]. split; [exact Hc|].
  split; [exact H0|]. split; [exact Hv|].
  exact (close_calls_back_once emptyOpts s [0; 0] (reachable_run _ _) Hq Hne Hall Hv).
Defined.

(** X7 with two sessions. *)
Lemma first_signal_ends_the_session_witness :
  let s := run [plainSession; plainSession] newStore in
  let s' := step (StreamSignal 0 SigEnd) s in
  reachable emptyOpts s /\ active 0 s /\
  ~ active 0 s' /\ forall m', m' <> 0 -> (active m' s' <-> active m' s).
Proof.
  cbv zeta.
  assert (Ha : active 0 (run [plainSession; plainSession] newStore))
    by (vm_compute; apply list_elem_of_here).
  split; [apply reachable_run|]. split; [exact Ha|].
  exact (first_signal_ends_the_session emptyOpts (run [plainSession; plainSession] newStore)
           0 SigEnd (reachable_run _ _) Ha).
Defined.

(** X8 with a second session and a [close] after the signal. *)
Lemma ended_session_stays_out_witness :
  let s := run [plainSession] newStore in
  let s' := run [plainSession; CallClose] (step (StreamSignal 0 SigFinish) s) in
  reachable emptyOpts s /\ 0 < length (streamHeap s) /\
  ~ active 0 s' /\ forall sig', step (StreamSignal 0 sig') s' = s'.
Proof.
  cbv zeta.
  assert (Hl : 0 < length (streamHeap (run [plainSession] newStore)))
    by (vm_compute; lia).
  split; [apply reachable_run|]. split; [exact Hl|].
  exact (ended_session_stays_out emptyOpts (run [plainSession] newStore) 0 SigFinish
           [plainSession; CallClose] (reachable_run _ _) Hl).
Defined.

(** X9: [replicate()] on a new store. *)
Lemma replicate_throws_iff_witness :
  replicate ArgNone None newStore = Throw TypeError.
Proof.
  apply (proj2 (replicate_throws_iff ArgNone None newStore TypeError)).
  split; reflexivity.
Defined.

(** X10 on a store whose default core is open. *)
Lemma replicate_starts_a_session_witness :
  let s := run [CallDefault (ReqOpts noOpts); CoreOpened 0 K1] newStore in
  let s' := step plainSession s in
  reachable emptyOpts s /\ replicate (ArgOpts emptyOpts) None s = Ok (0, s') /\
  0 = length (streamHeap s) /\ ~ active 0 s /\ active 0 s' /\
  (forall m', active m' s -> active m' s') /\
  streamHeap s' !! 0
    = Some (mkStream (spread_opt emptyOpts (givenOpts (ArgOpts emptyOpts) None))
                     (defaultCore s) (anchored s) false false) /\
  cores s' = cores s /\ coreHeap s' = coreHeap s /\
  (forall k c, (k, c) ∈ cores s ->
     queued c 0 s' /\
     attachCount c 0 s' = if decide (defaultCore s = Some c) then 1 else 0).
Proof.
  cbv zeta.
  set (s := run [CallDefault (ReqOpts noOpts); CoreOpened 0 K1] newStore).
  assert (Hr : replicate (ArgOpts emptyOpts) None s = Ok (0, step plainSession s))
    by (vm_compute; reflexivity).
  split; [apply reachable_run|]. split; [exact Hr|].
  exact (replicate_starts_a_session emptyOpts s (ArgOpts emptyOpts) None 0 _
           (reachable_run _ _) Hr).
Defined.

(** X11 on a store made with [{ encrypt: true }]. *)
Lemma store_level_encrypt_skips_the_check_witness :
  let s := init encrypted in
  reachable encrypted s /\ truthy_flag (encrypt encrypted) = true /\
  defaultCore s = None /\ givenOpts (ArgOpts emptyOpts) None = Some emptyOpts /\
  encrypt emptyOpts = None /\
  exists s' st,
    replicate (ArgOpts emptyOpts) None s = Ok (length (streamHeap s), s') /\
    streamHeap s' !! length (streamHeap s) = Some st /\
    truthy_flag (encrypt (s_opts st)) = true /\ s_anchor st = None.
Proof.
  cbv zeta. split; [apply (reachable_run encrypted [])|].
  split; [reflexivity|]. split; [reflexivity|]. split; [reflexivity|].
  split; [reflexivity|].
  exact (store_level_encrypt_skips_the_check encrypted (init encrypted) (ArgOpts emptyOpts)
           None emptyOpts (reachable_run encrypted []) eq_refl eq_refl eq_refl eq_refl).
Defined.

(** X12 for the second callback of a new session. *)
Lemma ready_callbacks_never_fail_witness :
  let s := run sessionTrace newStore in
  let t := mkTask 0 0 emptyOpts in
  let s' := step (ReadyCallback 1) s in
  reachable emptyOpts s /\ readyQueue s !! 1 = Some t /\
  (exists pk, core_status s (t_core t) = Some (Ready pk)) /\
  exists st, streamHeap s !! t_stream t = Some st /\
    readyQueue s' = delete 1 (readyQueue s) /\
    attachCount (t_core t) (t_stream t) s' = if destroyed st then 0 else 1.
Proof.
  cbv zeta.
  assert (Hq : readyQueue (run sessionTrace newStore) !! 1 = Some (mkTask 0 0 emptyOpts))
    by (vm_compute; reflexivity).
  split; [apply reachable_run|]. split; [exact Hq|].
  exact (ready_callbacks_never_fail emptyOpts (run sessionTrace newStore) 1 _
           (reachable_run _ _) Hq).
Defined.

(** X13 for one core and one session. *)
Lemma ready_callbacks_attach_everything_witness :
  let s := run sessionTrace newStore in
  let s' := run (drainReady (length (readyQueue s))) s in
  reachable emptyOpts s /\ length (readyQueue s) = 2 /\
  readyQueue s' = [] /\ cores s' = cores s /\
  replicationStreams s' = replicationStreams s /\
  forall k c m, (k, c) ∈ cores s -> active m s -> attachCount c m s' = 1.
Proof.
  cbv zeta. split; [apply reachable_run|]. split; [vm_compute; reflexivity|].
  exact (ready_callbacks_attach_everything emptyOpts (run sessionTrace newStore)
           (reachable_run _ _)).
Defined.


(** X15 for [K1] on a new store. *)
Lemma key_and_discovery_key_share_storage_witness :
  let dk := crypto_discoveryKey K1 in
  truthy_arg (KBuf K1) = true /\ toBuffer (KBuf K1) = Ok K1 /\
  truthy_arg (KBuf dk) = true /\ toBuffer (KBuf dk) = Ok dk /\
  Map_get (encode dk) (cores newStore) = None /\ encode dk <> "default" /\
  exists co1 co2,
    madeBy (get (keyOnly (KBuf K1)) newStore) = Some co1 /\
    madeBy (get (discoveryOnly (KBuf dk)) newStore) = Some co2 /\
    c_storageRoot co1 = sharded (encode dk) /\
    c_storageRoot co2 = c_storageRoot co1 /\
    c_ctorKey co1 = Some (KBuf K1) /\ c_createIfMissing co1 = true /\
    c_ctorKey co2 = None /\ c_createIfMissing co2 = false.
Proof.
  cbv zeta.
  assert (Hne : encode (crypto_discoveryKey K1) <> "default")
    by (vm_compute; discriminate).
  split; [reflexivity|]. split; [reflexivity|]. split; [reflexivity|].
  split; [reflexivity|]. split; [reflexivity|]. split; [exact Hne|].
  exact (key_and_discovery_key_share_storage newStore (KBuf K1)
           (KBuf (crypto_discoveryKey K1)) K1 eq_refl eq_refl eq_refl eq_refl eq_refl Hne).
Defined.

(** X16 for [K1] on a new store. *)
Lemma name_with_key_moves_the_storage_witness :
  let dk := crypto_discoveryKey K1 in
  truthy_string "notes" = true /\ truthy_arg (KBuf K1) = true /\
  toBuffer (KBuf K1) = Ok K1 /\
  Map_get (encode dk) (cores newStore) = None /\ encode dk <> "default" /\
  indexKey (requestOpts (nameAndKey "notes" (KBuf K1))) (rng newStore)
    = indexKey (requestOpts (keyOnly (KBuf K1))) (rng newStore) /\
  exists co1 co2,
    madeBy (get (keyOnly (KBuf K1)) newStore) = Some co1 /\
    madeBy (get (nameAndKey "notes" (KBuf K1)) newStore) = Some co2 /\
    c_storageRoot co1 = sharded (encode dk) /\
    c_storageRoot co2 = encode dk /\
    c_storageRoot co1 <> c_storageRoot co2 /\
    c_ctorKey co1 = c_ctorKey co2.
Proof.
  cbv zeta.
  assert (Hne : encode (crypto_discoveryKey K1) <> "default")
    by (vm_compute; discriminate).
  split; [reflexivity|]. split; [reflexivity|]. split; [reflexivity|].
  split; [reflexivity|]. split; [exact Hne|].
  exact (name_with_key_moves_the_storage newStore "notes" (KBuf K1) K1
           eq_refl eq_refl eq_refl eq_refl Hne).
Defined.

(** X17: a name of odd length is no hexadecimal text. *)
Lemma get_by_name_always_makes_a_handle_witness :
  let s := run [CallGet (named "notes"); CoreOpened 0 K1] newStore in
  reachable emptyOpts s /\
  indexKey (requestOpts (named "notes")) (rng s) = Ok (IStr "notes") /\
  (forall b, encode b <> "notes") /\
  exists s' co,
    get (named "notes") s = Ok (length (coreHeap s), s') /\
    coreHeap s' = coreHeap s ++ [co] /\ cores s' = cores s /\
    c_storageRoot co = "notes" /\ c_status co = Pending.
Proof.
  cbv zeta.
  assert (Hi : indexKey (requestOpts (named "notes"))
                 (rng (run [CallGet (named "notes"); CoreOpened 0 K1] newStore))
               = Ok (IStr "notes")) by (vm_compute; reflexivity).
  assert (Hne : forall b, encode b <> "notes").
  { intros b E. apply (f_equal String.length) in E. simpl in E.
    rewrite hexEncode_length in E. lia. }
  split; [apply reachable_run|]. split; [exact Hi|]. split; [exact Hne|].
  exact (get_by_name_always_makes_a_handle emptyOpts _ (named "notes") "notes"
           (reachable_run _ _) Hi Hne).
Defined.

(** X18 for the core of [get(K1)]. *)
Lemma feed_event_once_per_open_core_witness :
  let s := run openTrace newStore in
  reachable emptyOpts s /\
  count_occ Nat.eq_dec (map fst (feedEvents s)) 0 <= 1 /\
  ((exists pk, core_status s 0 = Some (Ready pk)) <-> 0 ∈ map fst (feedEvents s)) /\
  (forall co, (0, co) ∈ feedEvents s -> c_coreOpts <$> coreHeap s !! 0 = Some co) /\
  ((exists k, (k, 0) ∈ list_ s) -> 0 ∈ map fst (feedEvents s)).
Proof.
  cbv zeta. split; [apply reachable_run|].
  exact (feed_event_once_per_open_core emptyOpts (run openTrace newStore) 0
           (reachable_run _ _)).
Defined.

(** X19: both [core.close] calls of one core fail, the callback runs twice. *)
Lemma close_calls_back_for_every_error_witness :
  let s := run openTrace newStore in
  let order := [(0, Some TeardownError); (0, Some TeardownError)] in
  let s' := run (answers order) (snd (close s)) in
  closeQueue s = [] /\ cores s = openRegistry /\ core_isClosed s 0 = false /\
  validOrder (map fst order) (length (cores s)) /\ failed order = true /\
  callbacks s' = callbacks s ++ errorsOf (fst (close s)) order /\
  cores s' = [] /\ replicationStreams s' = [].
Proof.
  cbv zeta.
  set (s := run openTrace newStore).
  assert (Hq : closeQueue s = []) by (vm_compute; reflexivity).
  assert (Hc : cores s = openRegistry) by apply openTrace_cores.
  assert (H0 : core_isClosed s 0 = false) by (vm_compute; reflexivity).
  assert (Hall : forall k c, (k, c) ∈ cores s -> core_isClosed s c = false).
  { intros k c Hin. rewrite Hc in Hin. by rewrite (openRegistry_elem k c Hin). }
  assert (Hv : validOrder (map fst [(0, Some TeardownError); (0, Some TeardownError)])
                          (length (cores s))).
  { rewrite Hc. simpl. lia. }
  split; [exact Hq|]. split; [exact Hc|]. split; [exact H0|]. split; [exact Hv|].
  split; [reflexivity|].
  exact (close_calls_back_for_every_error s _ Hq Hall Hv eq_refl).
Defined.
